(** * within: run a command in several directories, prefixing its output

    A shallow embedding of the two programs the repository holds, one for
    each event loop:

    - [Kqueue]: the kqueue(2) program, [src/within.c];
    - [Select]: the select(2) program, [src/unnamed/part_002], which its
      header says came after the kqueue one;
    - [Child]: what the child of [start_job] does between [fork] and
      [execvp], the same in both.

    Both share the option parser ([parse_options], up to the separator
    test) and the byte loop of [run_piper] that adds the [directory: ]
    prefixes.  The operating system is the environment: every system call
    a program makes is answered by an explicit value, and a run is the list
    of those answers.  The state of a program holds, next to the variables
    of [main], the pipers it has allocated, the descriptors it has open and
    the calls it has made on its output streams.

    The file has three parts: the programs, the vocabulary the properties
    are stated in, and the properties with their proofs. *)

From stdpp Require Import base list gmap strings.
From Stdlib Require Import ZArith Ascii Lia.

#[local] Set Warnings "-clear-no-such-hyp".

Local Open Scope Z_scope.

(** * The programs *)

(** ** Process results *)

(** How a process ends other than by returning from [main]: through
    [exit], [err] or [errx], with an exit status and what it printed. *)
Inductive termination :=
| Exited (status : Z) (diagnostic : string).

Definition exit_code (t : termination) : Z :=
  match t with
  | Exited status _ => status
  end.

(** A computation that goes on with a value, ends the process, or leaves
    the behaviour C defines. *)
Inductive result (A : Type) :=
| Ok (a : A)
| Stop (t : termination)
| Undefined.           (* a freed or null pointer is used *)
Arguments Ok {A} a.
Arguments Stop {A} t.
Arguments Undefined {A}.

#[global] Instance result_bind : MBind result := λ A B k r,
  match r with
  | Ok a => k a
  | Stop t => Stop t
  | Undefined => Undefined
  end.

(** [err(1, msg)] and [errx(1, msg)]. *)
Definition err {A} (status : Z) (msg : string) : result A :=
  Stop (Exited status msg).

(** ** [strtol] and the conversion to [int] *)

Module Libc.

(** [isspace] in the C locale. *)
Definition isspace (c : ascii) : bool :=
  let n := nat_of_ascii c in
  (n =? 32)%nat || ((9 <=? n)%nat && (n <=? 13)%nat).

Definition digit (c : ascii) : option Z :=
  let n := nat_of_ascii c in
  if (48 <=? n)%nat && (n <=? 57)%nat then Some (Z.of_nat n - 48) else None.

Fixpoint skip_space (s : string) : string :=
  match s with
  | String c s' => if isspace c then skip_space s' else s
  | EmptyString => s
  end.

(** The digits at the head of [s], most significant first. *)
Fixpoint leading_digits (s : string) : list Z :=
  match s with
  | String c s' =>
      match digit c with
      | Some d => d :: leading_digits s'
      | None => []
      end
  | EmptyString => []
  end.

Definition decimal (ds : list Z) : Z :=
  fold_left (fun acc d => 10 * acc + d) ds 0.

(** The subject sequence of [strtol(s, NULL, 10)]: white space, an
    optional sign, decimal digits.  [None] when there is no digit. *)
Definition numeric_prefix (s : string) : option Z :=
  let s1 := skip_space s in
  let '(negative, s2) :=
    match s1 with
    | String "-" r => (true, r)
    | String "+" r => (false, r)
    | _ => (false, s1)
    end in
  match leading_digits s2 with
  | [] => None
  | ds => Some (if negative then - decimal ds else decimal ds)
  end.

Section Widths.
(** Width of [long] in bits; [int] has 32. *)
Variable long_bits : Z.

Definition LONG_MAX : Z := 2 ^ (long_bits - 1) - 1.
Definition LONG_MIN : Z := - 2 ^ (long_bits - 1).

(** [strtol(s, NULL, 10)]: 0 without a subject sequence, the value
    clamped to the range of [long] otherwise. *)
Definition strtol (s : string) : Z :=
  match numeric_prefix s with
  | None => 0
  | Some v => Z.max LONG_MIN (Z.min LONG_MAX v)
  end.
End Widths.

Definition INT_MAX : Z := 2 ^ 31 - 1.

(** [(int)x] for a [long] x: reduction modulo 2^32 into the range of
    [int] (C leaves the result to the implementation when x is out of
    range; this is what the compilers in use do). *)
Definition to_int (x : Z) : Z := (x + 2 ^ 31) mod 2 ^ 32 - 2 ^ 31.

End Libc.

(** ** Command line *)

(** One return of [getopt(argc, argv, "j:")] other than -1: the option
    character it returns and [optarg]. *)
Record getopt_ret := { opt_char : ascii; optarg : string }.

(** The globals set by [parse_options]. *)
Record options := {
  max_jobs : Z;
  num_directories : Z;
  directories : list string;
  command : list string
}.

(** [strcmp(s, t)] as a truth value: the strings differ. *)
Definition strcmp (s t : string) : bool := negb (String.eqb s t).

Section ParseOptions.
(** Width of [long]. *)
Variable long_bits : Z.
(** The line [usage] prints. *)
Variable usage_text : string.
(** The test of the [for] loop that recognises the separator:
    [strcmp("--", argv[i]) == 0] in [src/within.c],
    [!strcmp("-", argv[i]) || !strcmp("--", argv[i])] in the select
    program. *)
Variable is_separator : string → bool.

Definition usage {A} : result A := Stop (Exited 1 usage_text).

(** The [while] loop over [getopt]. *)
Fixpoint parse_flags (max_jobs : Z) (opts : list getopt_ret) : result Z :=
  match opts with
  | [] => Ok max_jobs
  | o :: opts' =>
      if Ascii.eqb (opt_char o) "j" then
        let max_jobs := Libc.to_int (Libc.strtol long_bits (optarg o)) in
        if max_jobs <? 1 then err 1 ("invalid -j: " +:+ optarg o)
        else parse_flags max_jobs opts'
      else Stop (Exited 1 "")
  end.

(** The [for] loop over the arguments left by [getopt], at index [i]
    with [rest] still to look at, and the [if (i == argc)] after it. *)
Fixpoint split_args (max_jobs : Z) (argv : list string) (i : Z)
    (rest : list string) : result options :=
  let argc := Z.of_nat (length argv) in
  match rest with
  | [] =>
      Ok {| max_jobs := max_jobs; num_directories := 1;
            directories := argv; command := drop 1 argv |}
  | a :: rest' =>
      if negb (is_separator a) then split_args max_jobs argv (i + 1) rest'
      else if (i <? 1) || (argc <=? i + 1) then usage
      else
        Ok {| max_jobs := max_jobs; num_directories := i;
              directories := argv;
              command := drop (Z.to_nat (i + 1)) argv |}
  end.

(** [parse_options]: [opts] are the successive returns of [getopt],
    [argv] the arguments from [optind] on. *)
Definition parse_options (opts : list getopt_ret) (argv : list string)
    : result options :=
  max_jobs ← parse_flags 1 opts;
  if Z.of_nat (length argv) <? 2 then usage
  else split_args max_jobs argv 0 argv.
End ParseOptions.

(** The directories the jobs run in: [directories[0 .. num_directories)]. *)
Definition job_directories (o : options) : list string :=
  take (Z.to_nat (num_directories o)) (directories o).

(** ** Pipers *)

Inductive FILE := stdout | stderr.

(** The calls made on the two output streams, in program order. *)
Inductive out_call :=
| fprintf_prefix (f : FILE) (prefix : string)  (* fprintf(f, "%s: ", prefix) *)
| fputc (c : ascii) (f : FILE).

(** [struct piper]; the [next] field of the select program is the order of
    the list the pipers are kept in. *)
Record piper := {
  in_fd : Z;
  out_file : FILE;
  prefix : string;   (* directory name *)
  newline : bool     (* 1 if last character was a newline *)
}.

Definition set_newline (p : piper) (b : bool) : piper :=
  {| in_fd := in_fd p; out_file := out_file p; prefix := prefix p;
     newline := b |}.

Definition LF : ascii := ascii_of_nat 10.

(** The [for (i = 0; i < num_read; i++)] loop of [run_piper] over the bytes
    read: the calls it makes and the piper it leaves. *)
Fixpoint pipe_bytes (p : piper) (data : list ascii) : list out_call * piper :=
  match data with
  | [] => ([], p)
  | c :: data' =>
      let before :=
        if newline p then [fprintf_prefix (out_file p) (prefix p)] else [] in
      let '(calls, p') := pipe_bytes (set_newline p (Ascii.eqb c LF)) data' in
      (before ++ fputc c (out_file p) :: calls, p')
  end.

(** The bytes a list of calls puts on stream [f]. *)
Definition FILE_eqb (f g : FILE) : bool :=
  match f, g with
  | stdout, stdout | stderr, stderr => true
  | _, _ => false
  end.

Definition bytes_of_call (f : FILE) (c : out_call) : list ascii :=
  match c with
  | fprintf_prefix g prefix =>
      if FILE_eqb f g then String.list_ascii_of_string (prefix +:+ ": ") else []
  | fputc b g => if FILE_eqb f g then [b] else []
  end.

Definition written (f : FILE) (calls : list out_call) : list ascii :=
  concat (map (bytes_of_call f) calls).

(** ** What the system answers *)

(** [errno]: the two values the programs test for, and the others. *)
Inductive errno := EINTR | EAGAIN | Eother (code : Z).

(** A [read] that returns a positive count: the bytes, at least one. *)
Definition chunk : Type := ascii * list ascii.

Definition chunk_bytes (c : chunk) : list ascii := c.1 :: c.2.

(** What the reads of one activation of the select program's [run_piper]
    return: positive counts, then end of file or a failure. *)
Inductive read_end := read_eof | read_fail (e : errno).

Record read_script := { chunks : list chunk; ending : read_end }.

(** [pipe], like every call that opens a descriptor, returns the lowest
    descriptor that is not open: the first of 0, 1, 2, ... that is not in
    [fds].  One of the first [size fds + 1] is not. *)
Definition lowest_unused (fds : gset Z) : Z :=
  default 0
    (head (filter (λ fd, fd ∉ fds) (seqZ 0 (Z.of_nat (size fds) + 1)))).
#[global] Arguments lowest_unused : simpl never.

(** ** The select program ([src/unnamed/part_002]) *)

Module Select.

(** The variables of [main], the list of pipers, and what the process
    holds and has done.  [directory] and [num_jobs] are [int]s that stay
    between 0 and the number of arguments (see [counted] below), so that
    incrementing them never wraps. *)
Record state := {
  directory : Z;               (* [directory] of [main] *)
  num_jobs : Z;                (* [num_jobs] of [main] *)
  status : Z;                  (* [status] of [main] *)
  pipers : list positive;      (* the list at [pipers], head first *)
  heap : gmap positive piper;  (* the [struct piper]s allocated *)
  fds : gset Z;                (* the descriptors open in this process *)
  output : list out_call;      (* the calls on stdout and stderr so far *)
  started : list string;       (* directories of the children forked *)
  reaped : list Z              (* statuses stored by [waitpid] *)
}.

Definition initial : state :=
  {| directory := 0; num_jobs := 0; status := 0; pipers := [];
     heap := ∅; fds := {[0; 1; 2]}; output := []; started := [];
     reaped := [] |}.

(** *** System calls on the descriptor table and the allocator *)

(** [pipe]: the two lowest descriptors not in use, the read end first. *)
Definition pipe (s : state) : Z * Z * state :=
  let r := lowest_unused (fds s) in
  let w := lowest_unused ({[r]} ∪ fds s) in
  (r, w,
   {| directory := directory s; num_jobs := num_jobs s; status := status s;
      pipers := pipers s; heap := heap s; fds := {[r; w]} ∪ fds s;
      output := output s; started := started s; reaped := reaped s |}).

Definition close (fd : Z) (s : state) : state :=
  {| directory := directory s; num_jobs := num_jobs s; status := status s;
     pipers := pipers s; heap := heap s; fds := fds s ∖ {[fd]};
     output := output s; started := started s; reaped := reaped s |}.

(** The parent's side of a successful [fork]. *)
Definition forked (dir : string) (s : state) : state :=
  {| directory := directory s; num_jobs := num_jobs s; status := status s;
     pipers := pipers s; heap := heap s; fds := fds s;
     output := output s; started := started s ++ [dir];
     reaped := reaped s |}.

Definition set_list (ps : list positive) (h : gmap positive piper)
    (s : state) : state :=
  {| directory := directory s; num_jobs := num_jobs s; status := status s;
     pipers := ps; heap := h; fds := fds s;
     output := output s; started := started s; reaped := reaped s |}.

Definition emit (calls : list out_call) (s : state) : state :=
  {| directory := directory s; num_jobs := num_jobs s; status := status s;
     pipers := pipers s; heap := heap s; fds := fds s;
     output := output s ++ calls; started := started s;
     reaped := reaped s |}.

(** *** [start_piper] *)

(** The two [fcntl] calls make [in_fd] non-blocking: from then on a [read]
    on it with nothing to read fails with EAGAIN. *)
Record piper_calls := { malloc_ok : bool; getfl_ok : bool; setfl_ok : bool }.

Definition start_piper (in_fd : Z) (out_file : FILE) (prefix : string)
    (c : piper_calls) (s : state) : result state :=
  if negb (malloc_ok c) then err 1 "malloc" else
  let piper := fresh (dom (heap s)) in
  let h :=
    <[piper := {| in_fd := in_fd; out_file := out_file; prefix := prefix;
                  newline := true |}]> (heap s) in
  if negb (getfl_ok c) then err 1 "F_GETFL" else
  if negb (setfl_ok c) then err 1 "F_SETFL" else
  (* add to list *)
  Ok (set_list (piper :: pipers s) h s).

(** *** [start_job], in the parent *)

(** The child ([case 0]) is another process: it puts the write ends of the
    pipes in the place of its standard output and error, changes to
    [directory] and executes [command].  What it writes, and its status
    when it ends (1 from [err] if one of these calls fails), reach this
    process as what [read] and [waitpid] return. *)
Record job_calls := {
  pipe_stdout_ok : bool;
  pipe_stderr_ok : bool;
  fork_ok : bool;
  stdout_piper : piper_calls;
  stderr_piper : piper_calls
}.

Definition start_job (dir : string) (c : job_calls) (s : state)
    : result state :=
  if negb (pipe_stdout_ok c) then err 1 "pipe" else
  let '(stdout_r, stdout_w, s) := pipe s in
  if negb (pipe_stderr_ok c) then err 1 "pipe" else
  let '(stderr_r, stderr_w, s) := pipe s in
  if negb (fork_ok c) then err 1 "fork" else
  let s := close stdout_w s in
  let s := close stderr_w s in
  let s := forked dir s in
  s ← start_piper stdout_r stdout dir (stdout_piper c) s;
  start_piper stderr_r stderr dir (stderr_piper c) s.

(** *** [remove_piper] *)

(** The walk along the list: the first cell equal to [piper] is taken
    out.  The cell is freed where it is found, and only there. *)
Fixpoint unlink (piper : positive) (l : list positive) : list positive :=
  match l with
  | [] => []
  | q :: l' => if Pos.eqb q piper then l' else q :: unlink piper l'
  end.

Definition remove_piper (piper : positive) (s : state) : state :=
  if bool_decide (piper ∈ pipers s)
  then set_list (unlink piper (pipers s)) (delete piper (heap s)) s
  else s.

(** *** [run_piper] *)

(** The [while ((num_read = read(...)) > 0)] loop. *)
Fixpoint drain (p : piper) (reads : list chunk) : list out_call * piper :=
  match reads with
  | [] => ([], p)
  | c :: reads' =>
      let '(calls, p) := pipe_bytes p (chunk_bytes c) in
      let '(calls', p) := drain p reads' in
      (calls ++ calls', p)
  end.

Definition run_piper (piper : positive) (r : read_script) (s : state)
    : result state :=
  match heap s !! piper with
  | None => Undefined
  | Some p =>
      let '(calls, p) := drain p (chunks r) in
      let s := emit calls (set_list (pipers s) (<[piper := p]> (heap s)) s) in
      match ending r with
      | read_eof => Ok (remove_piper piper s)
      | read_fail EAGAIN => Ok s
      | read_fail _ => err 1 "read"
      end
  end.

(** *** [main] *)

(** The number of descriptors an [fd_set] has room for, as
    [<sys/select.h>] has it on the systems the program is built for. *)
Definition FD_SETSIZE : Z := 1024.

(** [FD_ZERO] and the [for] loop with [FD_SET] and [MAX]. *)
Fixpoint fd_sets (h : gmap positive piper) (ps : list positive)
    (piper_fds : gset Z) (nfds : Z) : result (gset Z * Z) :=
  match ps with
  | [] => Ok (piper_fds, nfds)
  | piper :: ps' =>
      match h !! piper with
      | None => Undefined
      | Some p =>
          (* [FD_SET(fd, &set)] writes into [set] at bit [fd], with no
             test: outside [0, FD_SETSIZE) it writes outside [set] *)
          if (0 <=? in_fd p) && (in_fd p <? FD_SETSIZE)
          then fd_sets h ps' ({[in_fd p]} ∪ piper_fds)
                 (Z.max nfds (in_fd p + 1))
          else Undefined
      end
  end.

(** What [select] returns: the descriptors it reports readable, each with
    what the reads on it are going to return, or -1 with [errno]. *)
Inductive select_ret :=
| select_ready (ready : gmap Z read_script)
| select_fail (e : errno).

(** The set [select] leaves in [piper_fds]: only descriptors that were
    in the set and below [nfds]. *)
Definition fd_isset (piper_fds : gset Z) (nfds : Z)
    (ready : gmap Z read_script) (fd : Z) : option read_script :=
  if bool_decide (fd ∈ piper_fds) && (fd <? nfds) then ready !! fd
  else None.

(** The [for] loop over the pipers after [select]; [piper_next] is read
    before [run_piper] frees the cell. *)
Fixpoint run_ready (isset : Z → option read_script) (ps : list positive)
    (s : state) : result state :=
  match ps with
  | [] => Ok s
  | piper :: piper_next =>
      match heap s !! piper with
      | None => Undefined
      | Some p =>
          s ← match isset (in_fd p) with
              | Some r => run_piper piper r s
              | None => Ok s
              end;
          run_ready isset piper_next s
      end
  end.

(** From [select], with the sets as the loop with [FD_SET] has left them,
    to the end of the [if (select(...) != -1) ... else]. *)
Definition poll (r : select_ret) (s : state) : result state :=
  '(piper_fds, nfds) ← fd_sets (heap s) (pipers s) ∅ 0;
  match r with
  | select_ready ready =>
      run_ready (fd_isset piper_fds nfds ready) (pipers s) s
  | select_fail EINTR => Ok s
  | select_fail _ => err 1 "select"
  end.

(** What [waitpid(-1, &child_status, WNOHANG)] returns: -1, 0, or the
    identifier of a child that ended, with its status stored. *)
Inductive waitpid_ret :=
| waitpid_fail
| waitpid_none
| waitpid_child (child_status : Z).

(** [num_jobs++; directory++] after [start_job]. *)
Definition job_started (s : state) : state :=
  {| directory := directory s + 1; num_jobs := num_jobs s + 1;
     status := status s; pipers := pipers s; heap := heap s; fds := fds s;
     output := output s; started := started s; reaped := reaped s |}.

(** [num_jobs--; if (child_status) status = 1]. *)
Definition job_collected (child_status : Z) (s : state) : state :=
  {| directory := directory s; num_jobs := num_jobs s - 1;
     status := if child_status =? 0 then status s else 1;
     pipers := pipers s; heap := heap s; fds := fds s;
     output := output s; started := started s;
     reaped := reaped s ++ [child_status] |}.

(** The system calls [main] blocks in. *)
Inductive point :=
| Starting   (* [start_job(directories[directory])] *)
| Polling    (* [select] *)
| Reaping.   (* [waitpid] *)

Inductive outcome :=
| Blocked (at_call : point) (s : state)
| Returns (status : Z) (s : state)   (* [return status] *)
| Aborted (t : termination)          (* [err] *)
| Crashed.

(** [while (num_jobs || pipers || directory < num_directories)] *)
Definition loop_test (o : options) (s : state) : bool :=
  negb (num_jobs s =? 0)
  || match pipers s with [] => false | _ => true end
  || (directory s <? num_directories o).

(** [while (num_jobs < max_jobs && directory < num_directories)] *)
Definition fill_test (o : options) (s : state) : bool :=
  (num_jobs s <? max_jobs o) && (directory s <? num_directories o).

(** Control from the test of the inner loop, of the outer loop, and of
    [while (num_jobs)], up to the next system call.  Before [select] that
    is through [FD_ZERO] and the loop with [FD_SET]: [main] blocks in
    [select] with the sets built. *)
Definition at_fill (o : options) (s : state) : outcome :=
  if fill_test o s then Blocked Starting s
  else
    match fd_sets (heap s) (pipers s) ∅ 0 with
    | Ok _ => Blocked Polling s
    | Stop t => Aborted t
    | Undefined => Crashed
    end.

Definition at_loop (o : options) (s : state) : outcome :=
  if loop_test o s then at_fill o s else Returns (status s) s.

Definition at_reap (o : options) (s : state) : outcome :=
  if negb (num_jobs s =? 0) then Blocked Reaping s else at_loop o s.

Inductive answer :=
| job_answer (c : job_calls)
| select_answer (r : select_ret)
| waitpid_answer (w : waitpid_ret).

Definition continue (r : result state) (k : state → outcome) : outcome :=
  match r with
  | Ok s => k s
  | Stop t => Aborted t
  | Undefined => Crashed
  end.

(** One system call of [main] and the code after it, up to the next. An
    answer to another call than the pending one is no step. *)
Definition step (o : options) (at_call : point) (s : state) (a : answer)
    : option outcome :=
  match at_call, a with
  | Starting, job_answer c =>
      Some match directories o !! Z.to_nat (directory s) with
           | None => Crashed
           | Some dir =>
               continue (start_job dir c s) (λ s, at_fill o (job_started s))
           end
  | Polling, select_answer r => Some (continue (poll r s) (at_reap o))
  | Reaping, waitpid_answer w =>
      Some match w with
           | waitpid_fail => Aborted (Exited 1 "waitpid")
           | waitpid_none => at_loop o s
           | waitpid_child child_status =>
               at_reap o (job_collected child_status s)
           end
  | _, _ => None
  end.

Fixpoint exec (o : options) (out : outcome) (answers : list answer)
    : option outcome :=
  match answers with
  | [] => Some out
  | a :: answers' =>
      match out with
      | Blocked at_call s => out' ← step o at_call s a; exec o out' answers'
      | _ => None
      end
  end.

(** The loop of [main], from its first test, against the answers of the
    system. *)
Definition run (o : options) (answers : list answer) : option outcome :=
  exec o (at_loop o initial) answers.

(** directories separated from command with - or -- *)
Definition is_separator (a : string) : bool :=
  negb (strcmp "-" a && strcmp "--" a).

Definition usage_text : string :=
  "usage: within [-j jobs] directory [... -] command ...".

Definition main (long_bits : Z) (opts : list getopt_ret)
    (argv : list string) (answers : list answer) : option outcome :=
  match parse_options long_bits usage_text is_separator opts argv with
  | Ok o => run o answers
  | Stop t => match answers with [] => Some (Aborted t) | _ => None end
  | Undefined => Some Crashed
  end.

End Select.

(** ** The kqueue program ([src/within.c]) *)

Module Kqueue.

Record state := {
  directory : Z;               (* [directory] of [main] *)
  num_jobs : Z;                (* [num_jobs] of [main] *)
  readers : gmap Z positive;   (* EVFILT_READ events in [queue]:
                                  [ident] to [udata] *)
  children : gset Z;           (* EVFILT_PROC events in [queue] *)
  heap : gmap positive piper;  (* the [struct piper]s allocated *)
  fds : gset Z;                (* the descriptors open in this process *)
  output : list out_call;      (* the calls on stdout and stderr so far *)
  started : list string;       (* directories of the children forked *)
  exited : list Z              (* exit statuses the kernel reported *)
}.

(** After [queue = kqueue()]. *)
Definition initial : state :=
  {| directory := 0; num_jobs := 0; readers := ∅; children := ∅;
     heap := ∅; fds := {[0; 1; 2; 3]}; output := []; started := [];
     exited := [] |}.

Definition set_fds (f : gset Z) (s : state) : state :=
  {| directory := directory s; num_jobs := num_jobs s;
     readers := readers s; children := children s; heap := heap s;
     fds := f; output := output s; started := started s;
     exited := exited s |}.

Definition set_queue (r : gmap Z positive) (c : gset Z) (s : state)
    : state :=
  {| directory := directory s; num_jobs := num_jobs s;
     readers := r; children := c; heap := heap s;
     fds := fds s; output := output s; started := started s;
     exited := exited s |}.

Definition set_heap (h : gmap positive piper) (s : state) : state :=
  {| directory := directory s; num_jobs := num_jobs s;
     readers := readers s; children := children s; heap := h;
     fds := fds s; output := output s; started := started s;
     exited := exited s |}.

Definition emit (calls : list out_call) (s : state) : state :=
  {| directory := directory s; num_jobs := num_jobs s;
     readers := readers s; children := children s; heap := heap s;
     fds := fds s; output := output s ++ calls; started := started s;
     exited := exited s |}.

Definition forked (dir : string) (s : state) : state :=
  {| directory := directory s; num_jobs := num_jobs s;
     readers := readers s; children := children s; heap := heap s;
     fds := fds s; output := output s; started := started s ++ [dir];
     exited := exited s |}.

(** [pipe]: the two lowest descriptors not in use, the read end first. *)
Definition pipe (s : state) : Z * Z * state :=
  let r := lowest_unused (fds s) in
  let w := lowest_unused ({[r]} ∪ fds s) in
  (r, w, set_fds ({[r; w]} ∪ fds s) s).

Definition close (fd : Z) (s : state) : state :=
  set_fds (fds s ∖ {[fd]}) s.

(** *** [register_job], [register_piper], [deregister_piper] *)

Definition register_job (ok : bool) (pid : Z) (s : state) : result state :=
  if negb ok then err 1 "adding exit kevent"
  else Ok (set_queue (readers s) ({[pid]} ∪ children s) s).

Definition register_piper (ok : bool) (piper : positive) (s : state)
    : result state :=
  match heap s !! piper with
  | None => Undefined
  | Some p =>
      if negb ok then err 1 "adding file kevent"
      else Ok (set_queue (<[in_fd p := piper]> (readers s)) (children s) s)
  end.

Definition deregister_piper (ok : bool) (piper : positive) (s : state)
    : result state :=
  match heap s !! piper with
  | None => Undefined
  | Some p =>
      if negb ok then err 1 "removing file kevent"
      else Ok (set_queue (delete (in_fd p) (readers s)) (children s) s)
  end.

(** *** [start_piper] *)

Record piper_calls := { malloc_ok : bool; register_ok : bool }.

Definition start_piper (in_fd : Z) (out_file : FILE) (prefix : string)
    (c : piper_calls) (s : state) : result state :=
  if negb (malloc_ok c) then err 1 "malloc" else
  let piper := fresh (dom (heap s)) in
  let s :=
    set_heap
      (<[piper := {| in_fd := in_fd; out_file := out_file;
                     prefix := prefix; newline := true |}]> (heap s)) s in
  register_piper (register_ok c) piper s.

(** *** [start_job], in the parent *)

(** The child ([case 0]) is as in the select program; here its end reaches
    this process as an EVFILT_PROC event. *)
Record job_calls := {
  pipe_stdout_ok : bool;
  pipe_stderr_ok : bool;
  fork_pid : option Z;         (* [None]: [fork] returns -1 *)
  register_job_ok : bool;
  stdout_piper : piper_calls;
  stderr_piper : piper_calls
}.

Definition start_job (dir : string) (c : job_calls) (s : state)
    : result state :=
  if negb (pipe_stdout_ok c) then err 1 "pipe" else
  let '(stdout_r, stdout_w, s) := pipe s in
  if negb (pipe_stderr_ok c) then err 1 "pipe" else
  let '(stderr_r, stderr_w, s) := pipe s in
  match fork_pid c with
  | None => err 1 "fork"
  | Some pid =>
      let s := close stdout_w s in
      let s := close stderr_w s in
      let s := forked dir s in
      s ← register_job (register_job_ok c) pid s;
      s ← start_piper stdout_r stdout dir (stdout_piper c) s;
      start_piper stderr_r stderr dir (stderr_piper c) s
  end.

(** *** [run_piper] *)

(** What [read] returns: -1 with [errno], or the bytes read (none at end
    of file). *)
Inductive read_ret :=
| read_error (e : errno)
| read_bytes (data : list ascii).

Record read_calls := {
  data_malloc_ok : bool;
  read_returns : read_ret;
  deregister_ok : bool
}.

Definition run_piper (piper : positive) (num_readable : Z)
    (c : read_calls) (s : state) : result state :=
  if negb (data_malloc_ok c) then err 1 "malloc" else
  match heap s !! piper with
  | None => Undefined
  | Some p =>
      match read_returns c with
      | read_error _ => err 1 "read"
      | read_bytes data =>
          let data := take (Z.to_nat num_readable) data in
          let '(calls, p) := pipe_bytes p data in
          Ok (emit calls (set_heap (<[piper := p]> (heap s)) s))
      end
  end.

(** *** [main] *)

(** What [kevent(queue, NULL, 0, &event, 1, NULL)] returns: -1, or one
    event of a filter that was registered. *)
Inductive kevent_ret :=
| kevent_fail
| kevent_proc (ident data : Z)     (* EVFILT_PROC: the child [ident]
                                      exited with status [data] *)
| kevent_read (ident data : Z) (ev_eof : bool) (c : read_calls).

(** [num_jobs++; directory++] after [start_job]. *)
Definition job_started (s : state) : state :=
  {| directory := directory s + 1; num_jobs := num_jobs s + 1;
     readers := readers s; children := children s; heap := heap s;
     fds := fds s; output := output s; started := started s;
     exited := exited s |}.

(** [case EVFILT_PROC: num_jobs--]; the event was added with
    EV_ONESHOT. *)
Definition job_exited (ident data : Z) (s : state) : state :=
  {| directory := directory s; num_jobs := num_jobs s - 1;
     readers := readers s; children := children s ∖ {[ident]};
     heap := heap s; fds := fds s; output := output s;
     started := started s; exited := exited s ++ [data] |}.

(** [if (event.flags & EV_EOF)] and its three calls. *)
Definition retire (ok : bool) (piper : positive) (s : state)
    : result state :=
  s ← deregister_piper ok piper s;
  match heap s !! piper with
  | None => Undefined
  | Some p =>
      let s := close (in_fd p) s in
      Ok (set_heap (delete piper (heap s)) s)
  end.

(** [case EVFILT_READ]. *)
Definition readable (piper : positive) (data : Z) (ev_eof : bool)
    (c : read_calls) (s : state) : result state :=
  s ← run_piper piper data c s;
  if ev_eof then retire (deregister_ok c) piper s else Ok s.

Inductive point :=
| Starting   (* [start_job(directories[directory])] *)
| Polling.   (* [kevent] *)

Inductive outcome :=
| Blocked (at_call : point) (s : state)
| Returns (status : Z) (s : state)   (* the end of [main] *)
| Aborted (t : termination)          (* [err] *)
| Crashed.

(** [while (num_jobs || directory < num_directories)] *)
Definition loop_test (o : options) (s : state) : bool :=
  negb (num_jobs s =? 0) || (directory s <? num_directories o).

(** [while (num_jobs < max_jobs && directory < num_directories)] *)
Definition fill_test (o : options) (s : state) : bool :=
  (num_jobs s <? max_jobs o) && (directory s <? num_directories o).

Definition at_fill (o : options) (s : state) : outcome :=
  if fill_test o s then Blocked Starting s else Blocked Polling s.

(** [main] has no [return]: reaching its closing brace returns 0. *)
Definition at_loop (o : options) (s : state) : outcome :=
  if loop_test o s then at_fill o s else Returns 0 s.

Inductive answer :=
| job_answer (c : job_calls)
| kevent_answer (r : kevent_ret).

Definition continue (r : result state) (k : state → outcome) : outcome :=
  match r with
  | Ok s => k s
  | Stop t => Aborted t
  | Undefined => Crashed
  end.

(** The descriptors of this program are never made non-blocking, and a
    [read] on a blocking descriptor does not fail with EAGAIN. *)
Definition would_block (c : read_calls) : bool :=
  match read_returns c with
  | read_error EAGAIN => true
  | _ => false
  end.

(** [fork] does not return the identifier of a child that has not
    ended. *)
Definition pid_in_use (c : job_calls) (s : state) : bool :=
  match fork_pid c with
  | Some pid => bool_decide (pid ∈ children s)
  | None => false
  end.

(** One system call of [main] and the code after it, up to the next.  An
    answer to another call than the pending one, or one the system cannot
    give (the identifier of a running child for a new one, an event that is
    not in the queue, a [read] that would block), is no step. *)
Definition step (o : options) (at_call : point) (s : state) (a : answer)
    : option outcome :=
  match at_call, a with
  | Starting, job_answer c =>
      if pid_in_use c s then None else
      Some match directories o !! Z.to_nat (directory s) with
           | None => Crashed
           | Some dir =>
               continue (start_job dir c s) (λ s, at_fill o (job_started s))
           end
  | Polling, kevent_answer kevent_fail =>
      Some (Aborted (Exited 1 "polling kevent"))
  | Polling, kevent_answer (kevent_proc ident data) =>
      if bool_decide (ident ∈ children s)
      then Some (at_loop o (job_exited ident data s))
      else None
  | Polling, kevent_answer (kevent_read ident data ev_eof c) =>
      piper ← readers s !! ident;
      if would_block c then None
      else Some (continue (readable piper data ev_eof c s) (at_loop o))
  | _, _ => None
  end.

Fixpoint exec (o : options) (out : outcome) (answers : list answer)
    : option outcome :=
  match answers with
  | [] => Some out
  | a :: answers' =>
      match out with
      | Blocked at_call s => out' ← step o at_call s a; exec o out' answers'
      | _ => None
      end
  end.

Definition run (o : options) (answers : list answer) : option outcome :=
  exec o (at_loop o initial) answers.

Definition is_separator (a : string) : bool := negb (strcmp "--" a).

Definition usage_text : string :=
  "usage: within [-j jobs] directory [... --] command ...".

(** [main]; [kqueue_ok] tells whether [kqueue()] succeeds. *)
Definition main (long_bits : Z) (opts : list getopt_ret)
    (argv : list string) (kqueue_ok : bool) (answers : list answer)
    : option outcome :=
  match parse_options long_bits usage_text is_separator opts argv with
  | Ok o =>
      if kqueue_ok then run o answers
      else match answers with
           | [] => Some (Aborted (Exited 1 "kqueue"))
           | _ => None
           end
  | Stop t => match answers with [] => Some (Aborted t) | _ => None end
  | Undefined => Some Crashed
  end.

End Kqueue.

(** ** The child of [start_job] *)

(** [case 0] of the [switch] on [fork()], the same in both programs: the
    new process puts the write ends of the two pipes in the place of its
    standard output and standard error, closes the four descriptors of the
    pipes, changes to the directory and executes the command. *)
Module Child.

(** The descriptor table of a process: the open file each descriptor in
    use refers to.  Open files (terminals, ends of pipes) are numbered. *)
Abbreviation table := (gmap Z Z).

Definition STDOUT_FILENO : Z := 1.
Definition STDERR_FILENO : Z := 2.

(** [dup2(oldfd, newfd)]: -1 ([None]) when the system refuses or [oldfd]
    is not open; otherwise [newfd] refers to the file of [oldfd], whatever
    it referred to before. *)
Definition dup2 (ok : bool) (oldfd newfd : Z) (t : table) : option table :=
  if negb ok then None
  else file ← t !! oldfd; Some (<[newfd := file]> t).

(** [close(fd)]; the programs do not look at what it returns. *)
Definition close (fd : Z) (t : table) : table := delete fd t.

(** What the system answers to the calls of the child. *)
Record calls := {
  dup2_stdout_ok : bool;
  dup2_stderr_ok : bool;
  chdir_ok : bool;
  execvp_ok : bool
}.

(** How the child goes on. *)
Inductive image :=
| Executes (cwd : string) (file : string) (argv : list string) (t : table)
    (* [execvp(file, argv)] took place, in directory [cwd] *)
| Exits (e : termination) (t : table)
    (* [err]: the diagnostic goes to descriptor 2 of [t] *)
| Faults.
    (* [command[0]] is the null pointer that ends [argv] *)

(** [stdout_pipe] and [stderr_pipe] hold the read end, then the write
    end. *)
Definition child (stdout_pipe stderr_pipe : Z * Z) (directory : string)
    (command : list string) (c : calls) (t : table) : image :=
  match dup2 (dup2_stdout_ok c) stdout_pipe.2 STDOUT_FILENO t with
  | None => Exits (Exited 1 "dup2 stdout") t
  | Some t =>
      match dup2 (dup2_stderr_ok c) stderr_pipe.2 STDERR_FILENO t with
      | None => Exits (Exited 1 "dup2 stderr") t
      | Some t =>
          let t := close stdout_pipe.1 t in
          let t := close stdout_pipe.2 t in
          let t := close stderr_pipe.1 t in
          let t := close stderr_pipe.2 t in
          if negb (chdir_ok c) then Exits (Exited 1 "chdir") t
          else
            match command with
            | [] => Faults
            | file :: _ =>
                if execvp_ok c then Executes directory file command t
                else Exits (Exited 1 file) t
            end
      end
  end.

(** The four descriptors of the pipes are not those of the standard
    output and error. *)
Definition apart (stdout_pipe stderr_pipe : Z * Z) : Prop :=
  ∀ fd, fd ∈ [stdout_pipe.1; stdout_pipe.2; stderr_pipe.1; stderr_pipe.2] →
        fd ≠ STDOUT_FILENO ∧ fd ≠ STDERR_FILENO.

End Child.

(** The descriptors the two [pipe] calls of the select program's
    [start_job] return in state [s]: the pipe for the standard output, then
    the one for the standard error, each with its read end first. *)
Definition select_job_pipes (s : Select.state) : (Z * Z) * (Z * Z) :=
  let '(stdout_r, stdout_w, s) := Select.pipe s in
  let '(stderr_r, stderr_w, s) := Select.pipe s in
  ((stdout_r, stdout_w), (stderr_r, stderr_w)).

Definition kqueue_job_pipes (s : Kqueue.state) : (Z * Z) * (Z * Z) :=
  let '(stdout_r, stdout_w, s) := Kqueue.pipe s in
  let '(stderr_r, stderr_w, s) := Kqueue.pipe s in
  ((stdout_r, stdout_w), (stderr_r, stderr_w)).

(** * What is stated about the programs *)

(** The process is ended with exit code 1. *)
Definition exits_1 {A} (r : result A) : Prop :=
  ∃ msg, r = Stop (Exited 1 msg).

(** ** Shapes of the command line *)

Section CommandLines.
Variable long_bits : Z.
Variable is_separator : string → bool.

(** No argument of [l] is a separator. *)
Definition no_separator (l : list string) : Prop :=
  Forall (λ a, is_separator a = false) l.

(** A [-j] whose value, as [parse_options] computes it, is below 1. *)
Definition invalid_jobs (opts : list getopt_ret) : Prop :=
  ∃ o, o ∈ opts ∧ opt_char o = "j"%char ∧
       Libc.to_int (Libc.strtol long_bits (optarg o)) < 1.

(** The number a [-j] value spells, whatever its size: its decimal
    number, and 0 when it has none. *)
Definition limit_written (a : string) : Z :=
  default 0 (Libc.numeric_prefix a).

(** A [-j] whose value spells a number below 1. *)
Definition limit_below_1 (opts : list getopt_ret) : Prop :=
  ∃ o, o ∈ opts ∧ opt_char o = "j"%char ∧ limit_written (optarg o) < 1.

(** A [-j] whose value spells a number below 1 that an [int] holds. *)
Definition int_limit_below_1 (opts : list getopt_ret) : Prop :=
  ∃ o, o ∈ opts ∧ opt_char o = "j"%char ∧
       - 2 ^ 31 ≤ limit_written (optarg o) < 1.

Definition separator_first (argv : list string) : Prop :=
  ∃ a rest, argv = a :: rest ∧ is_separator a = true.

Definition separator_last (argv : list string) : Prop :=
  ∃ before a, argv = before ++ [a] ∧ is_separator a = true.

(** The last argument is a separator and the only one. *)
Definition first_separator_last (argv : list string) : Prop :=
  ∃ before a,
    argv = before ++ [a] ∧ is_separator a = true ∧ no_separator before.
End CommandLines.

(** ** Where prefixes belong *)

(** Byte [i] of a stream starts a line: it is the first byte, or the byte
    before it is a line feed. *)
Definition at_line_start (first : bool) (data : list ascii) (i : nat) : bool :=
  match i with
  | O => first
  | S j => bool_decide (data !! j = Some LF)
  end.

(** The stream with one [prefix: ] before the first byte of each line and
    nowhere else; [first] tells whether the stream starts at the start of
    a line. *)
Definition prefixed (f : FILE) (prefix : string) (first : bool)
    (data : list ascii) : list out_call :=
  concat (imap (λ i c,
                  (if at_line_start first data i
                   then [fprintf_prefix f prefix] else [])
                  ++ [fputc c f]) data).

(** The flag [newline] after a stream: the last byte is a line feed. *)
Definition ends_line (first : bool) (data : list ascii) : bool :=
  match last data with
  | None => first
  | Some c => Ascii.eqb c LF
  end.

(** The bytes of that stream as they reach the sink: [prefix], a colon and
    a space before the first byte of each line. *)
Definition prefixed_bytes (prefix : string) (first : bool)
    (data : list ascii) : list ascii :=
  concat (imap (λ i c,
                  (if at_line_start first data i
                   then String.list_ascii_of_string (prefix +:+ ": ")
                   else [])
                  ++ [c]) data).

(** ** Runs *)

(** The command line as the loop sees it: a limit of at least one job and
    [num_directories] directories in [directories]. *)
Definition well_formed (o : options) : Prop :=
  1 ≤ max_jobs o ∧
  0 ≤ num_directories o ≤ Z.of_nat (length (directories o)).

Module SelectRun.
Import Select.

Definition state_of (out : outcome) : option state :=
  match out with
  | Blocked _ s | Returns _ s => Some s
  | _ => None
  end.

(** The part of the state that only [main] writes. *)
Definition books (s : state) : Z * Z * Z * list string * list Z :=
  (directory s, num_jobs s, status s, started s, reaped s).

(** Nothing is left to do: the queue of directories is empty, no job is
    active and no piper is live. *)
Definition all_done (o : options) (s : state) : Prop :=
  num_directories o ≤ directory s ∧ num_jobs s = 0 ∧ pipers s = [].

(** What the counters of [main] count. *)
Record counted (o : options) (s : state) : Prop := {
  directory_counts : directory s = Z.of_nat (length (started s));
  directory_bound : directory s ≤ num_directories o;
  started_in_order :
    started s = take (Z.to_nat (directory s)) (directories o);
  num_jobs_counts :
    num_jobs s = Z.of_nat (length (started s)) - Z.of_nat (length (reaped s));
  num_jobs_bound : 0 ≤ num_jobs s ≤ max_jobs o;
  status_range : status s = 0 ∨ status s = 1;
  status_counts : status s = 0 ↔ Forall (λ st, st = 0) (reaped s)
}.

(** Where [main] is when it blocks in a call. *)
Definition blocked_at (o : options) (at_call : point) (s : state) : Prop :=
  match at_call with
  | Starting => fill_test o s = true
  | Polling =>
      fill_test o s = false ∧ loop_test o s = true ∧
      ∃ sets, fd_sets (heap s) (pipers s) ∅ 0 = Ok sets
  | Reaping => num_jobs s ≠ 0
  end.

Definition reachable (o : options) (out : outcome) : Prop :=
  match out with
  | Blocked at_call s => counted o s ∧ blocked_at o at_call s
  | Returns st s => counted o s ∧ loop_test o s = false ∧ st = status s
  | Aborted t => ∃ msg, t = Exited 1 msg
  | Crashed => True
  end.

(** The list holds each allocated piper once and nothing else, and
    every piper reads from a descriptor that is open. *)
Record tidy (s : state) : Prop := {
  pipers_once : NoDup (pipers s);
  pipers_allocated : ∀ piper, piper ∈ pipers s ↔ is_Some (heap s !! piper);
  pipers_open : ∀ piper p, heap s !! piper = Some p → in_fd p ∈ fds s
}.

(** Wherever the run has a state, the list is in order.  (The run can
    leave the behaviour C defines, in [FD_SET]: see [fd_sets].) *)
Definition safe (out : outcome) : Prop :=
  match out with
  | Blocked _ s | Returns _ s => tidy s
  | Aborted _ | Crashed => True
  end.

(** No descriptor is above the number of descriptors open. *)
Definition descriptors_low (s : state) : Prop :=
  ∀ fd, fd ∈ fds s → 0 ≤ fd ≤ Z.of_nat (size (fds s)).

(** The directories are few enough for every descriptor of a run to have
    its place in an [fd_set]: two read ends for each, and 0, 1 and 2. *)
Definition fits_fd_set (o : options) : Prop :=
  2 * num_directories o + 4 ≤ FD_SETSIZE.

Definition sound (o : options) (out : outcome) : Prop :=
  reachable o out ∧ safe out.

(** The books and the list in order, and the descriptors as [pipe] hands
    them out when none is closed: two more for each job, all low. *)
Definition orderly (o : options) (s : state) : Prop :=
  counted o s ∧ tidy s ∧ descriptors_low s ∧
  size (fds s) = (3 + 2 * length (started s))%nat.

(** A bound on the system calls still to come when every job ends: the
    directories left weigh more than the jobs to collect. *)
Definition calls_left (o : options) (out : outcome) : nat :=
  match out with
  | Blocked at_call s =>
      Z.to_nat (num_directories o - directory s)
        * (2 * Z.to_nat (num_directories o) + 3)
      + match at_call with
        | Starting => 0
        | Polling => 2 * Z.to_nat (num_jobs s) + 2
        | Reaping => 2 * Z.to_nat (num_jobs s) + 1
        end
  | _ => 0
  end.

End SelectRun.

Module KqueueRun.
Import Kqueue.

Definition state_of (out : outcome) : option state :=
  match out with
  | Blocked _ s | Returns _ s => Some s
  | _ => None
  end.

(** The part of the state that only [main] and [register_job] write. *)
Definition books (s : state) : Z * Z * list string * list Z * gset Z :=
  (directory s, num_jobs s, started s, exited s, children s).

(** What the counters of [main] count. *)
Record counted (o : options) (s : state) : Prop := {
  directory_counts : directory s = Z.of_nat (length (started s));
  directory_bound : directory s ≤ num_directories o;
  started_in_order :
    started s = take (Z.to_nat (directory s)) (directories o);
  num_jobs_counts :
    num_jobs s = Z.of_nat (length (started s)) - Z.of_nat (length (exited s));
  num_jobs_bound : num_jobs s ≤ max_jobs o;
  num_jobs_pending : num_jobs s = Z.of_nat (size (children s))
}.

(** Nothing is left to do, as far as [main] looks: the queue of
    directories is empty and no job is active. *)
Definition jobs_done (o : options) (s : state) : Prop :=
  num_directories o ≤ directory s ∧ num_jobs s = 0.

(** Where [main] is when it blocks in a call. *)
Definition blocked_at (o : options) (at_call : point) (s : state) : Prop :=
  match at_call with
  | Starting => fill_test o s = true
  | Polling => fill_test o s = false ∧ loop_test o s = true
  end.

Definition reachable (o : options) (out : outcome) : Prop :=
  match out with
  | Blocked at_call s => counted o s ∧ blocked_at o at_call s
  | Returns st s => counted o s ∧ loop_test o s = false ∧ st = 0
  | Aborted t => ∃ msg, t = Exited 1 msg
  | Crashed => True
  end.

(** Every read event in the queue carries a live piper that reads from
    the descriptor of the event, which is open. *)
Record tidy (s : state) : Prop := {
  readers_allocated :
    ∀ fd piper, readers s !! fd = Some piper →
      ∃ p, heap s !! piper = Some p ∧ in_fd p = fd;
  readers_open : ∀ fd, is_Some (readers s !! fd) → fd ∈ fds s
}.

(** The run is within the behaviour C defines, with the queue in
    order. *)
Definition safe (out : outcome) : Prop :=
  match out with
  | Blocked _ s | Returns _ s => tidy s
  | Aborted _ => True
  | Crashed => False
  end.

Definition sound (o : options) (out : outcome) : Prop :=
  reachable o out ∧ safe out.

(** A bound on the system calls still to come when every job ends. *)
Definition calls_left (o : options) (out : outcome) : nat :=
  match out with
  | Blocked at_call s =>
      Z.to_nat (num_directories o - directory s)
        * (Z.to_nat (num_directories o) + 2)
      + match at_call with
        | Starting => 0
        | Polling => Z.to_nat (num_jobs s) + 1
        end
  | _ => 0
  end.

End KqueueRun.

(** ** Reads that would block *)

(** The script of a [read] that returns no byte and fails with EAGAIN. *)
Definition would_block_script : read_script :=
  {| chunks := []; ending := read_fail EAGAIN |}.

(** Every descriptor [select] reports has nothing to read after all. *)
Definition only_would_block (ready : gmap Z read_script) : Prop :=
  ∀ fd r, ready !! fd = Some r → r = would_block_script.

(** ** The value of [-j] *)

Definition jobs_option (a : string) : getopt_ret :=
  {| opt_char := "j"; optarg := a |}.

(** [-j a] gives the limit [m]: the options after it are parsed with
    [max_jobs = m]. *)
Definition accepted (long_bits : Z) (a : string) (m : Z) : Prop :=
  ∀ max_jobs opts,
    parse_flags long_bits max_jobs (jobs_option a :: opts) =
      parse_flags long_bits m opts.

(** [-j a] ends the process through [errx(1, "invalid -j: %s", optarg)]. *)
Definition rejected (long_bits : Z) (a : string) : Prop :=
  ∀ max_jobs opts,
    parse_flags long_bits max_jobs (jobs_option a :: opts) =
      Stop (Exited 1 ("invalid -j: " +:+ a)).

(** ** One directory *)

(** What [parse_options] leaves of [d cmd ...], with no separator: one
    directory, [d], and the command [cmd]. *)
Definition one_directory (m : Z) (d : string) (cmd : list string)
    : options :=
  {| max_jobs := m; num_directories := 1; directories := d :: cmd;
     command := cmd |}.

(** ** Sample runs *)

(** A [start_job] in which every call succeeds. *)
Definition select_calls_ok : Select.job_calls :=
  let piper_ok :=
    {| Select.malloc_ok := true; Select.getfl_ok := true;
       Select.setfl_ok := true |} in
  {| Select.pipe_stdout_ok := true; Select.pipe_stderr_ok := true;
     Select.fork_ok := true; Select.stdout_piper := piper_ok;
     Select.stderr_piper := piper_ok |}.

Definition select_job_ok : Select.answer := Select.job_answer select_calls_ok.

Definition kqueue_calls_ok (pid : Z) : Kqueue.job_calls :=
  let piper_ok :=
    {| Kqueue.malloc_ok := true; Kqueue.register_ok := true |} in
  {| Kqueue.pipe_stdout_ok := true; Kqueue.pipe_stderr_ok := true;
     Kqueue.fork_pid := Some pid; Kqueue.register_job_ok := true;
     Kqueue.stdout_piper := piper_ok; Kqueue.stderr_piper := piper_ok |}.

Definition kqueue_job_ok (pid : Z) : Kqueue.answer :=
  Kqueue.job_answer (kqueue_calls_ok pid).

(** The line [hi]. *)
Definition hi : chunk := ("h"%char, ["i"%char; LF]).

(** [select] reports both pipes of a job: [said] on its standard output,
    then end of file on both. *)
Definition select_job_ends (stdout_fd stderr_fd : Z) (said : list chunk)
    : Select.answer :=
  Select.select_answer
    (Select.select_ready
       {[ stdout_fd := {| chunks := said; ending := read_eof |};
          stderr_fd := {| chunks := []; ending := read_eof |} ]}).

Definition select_job_collected (child_status : Z) : Select.answer :=
  Select.waitpid_answer (Select.waitpid_child child_status).

(** A read event with EV_EOF and [bytes] to read. *)
Definition kqueue_pipe_ends (fd : Z) (bytes : list ascii) : Kqueue.answer :=
  Kqueue.kevent_answer
    (Kqueue.kevent_read fd (Z.of_nat (length bytes)) true
       {| Kqueue.data_malloc_ok := true;
          Kqueue.read_returns := Kqueue.read_bytes bytes;
          Kqueue.deregister_ok := true |}).

Definition kqueue_job_exits (pid exit_status : Z) : Kqueue.answer :=
  Kqueue.kevent_answer (Kqueue.kevent_proc pid exit_status).

(** A [read] that fails with EIO. *)
Definition EIO : errno := Eother 5.

(** [within -j 2 a b c - make]. *)
Definition three_directories : options :=
  {| max_jobs := 2; num_directories := 3;
     directories := ["a"; "b"; "c"; "-"; "make"]; command := ["make"] |}.

(** The state of that run once two jobs are started. *)
Definition two_started : Select.state :=
  match Select.run three_directories [select_job_ok; select_job_ok] with
  | Some (Select.Blocked _ s) => s
  | _ => Select.initial
  end.

(** ** An environment in which every job ends *)

(** A [read] at the end of a stream with nothing left in it. *)
Definition eof_script : read_script := {| chunks := []; ending := read_eof |}.

(** What the programs are told when every system call succeeds, every
    job has ended without writing, and every end is reported as soon as it
    is asked for. *)
Definition select_cooperates (at_call : Select.point) (s : Select.state)
    : Select.answer :=
  match at_call with
  | Select.Starting => select_job_ok
  | Select.Polling =>
      Select.select_answer
        (Select.select_ready (gset_to_gmap eof_script (Select.fds s)))
  | Select.Reaping => select_job_collected 0
  end.

Definition kqueue_cooperates (at_call : Kqueue.point) (s : Kqueue.state)
    : Kqueue.answer :=
  match at_call with
  | Kqueue.Starting => kqueue_job_ok (fresh (Kqueue.children s))
  | Kqueue.Polling =>
      kqueue_job_exits (default 0 (head (elements (Kqueue.children s)))) 0
  end.

(** ** What reaches the output *)

(** The bytes handed to [fputc], on whatever stream. *)
Definition put_bytes (calls : list out_call) : list ascii :=
  omap (λ c, match c with fputc b _ => Some b | _ => None end) calls.

(** The prefixes printed, on whatever stream. *)
Definition prefixes (calls : list out_call) : list string :=
  omap (λ c, match c with fprintf_prefix _ pre => Some pre | _ => None end)
    calls.

Definition call_file (c : out_call) : FILE :=
  match c with
  | fprintf_prefix f _ | fputc _ f => f
  end.

(** The number of line feeds in a stream. *)
Definition line_feeds (data : list ascii) : nat :=
  length (filter (λ c, c = LF) data).

(** ** Values of [-j] *)

(** The value [parse_options] computes for a [-j]. *)
Definition jobs_value (long_bits : Z) (o : getopt_ret) : Z :=
  Libc.to_int (Libc.strtol long_bits (optarg o)).

Definition valid_jobs (long_bits : Z) (o : getopt_ret) : Prop :=
  opt_char o = "j"%char ∧ 1 ≤ jobs_value long_bits o.

(** ** Whose prefixes are printed *)

(** Every live piper, and every prefix printed so far, carries the name
    of a directory whose job has been started. *)
Definition select_names_started (s : Select.state) : Prop :=
  (∀ piper p, Select.heap s !! piper = Some p →
              prefix p ∈ Select.started s) ∧
  Forall (λ pre, pre ∈ Select.started s) (prefixes (Select.output s)).

Definition kqueue_names_started (s : Kqueue.state) : Prop :=
  (∀ piper p, Kqueue.heap s !! piper = Some p →
              prefix p ∈ Kqueue.started s) ∧
  Forall (λ pre, pre ∈ Kqueue.started s) (prefixes (Kqueue.output s)).

(** ** Descriptors of the kqueue program *)

(** The descriptors open are those the process started with, the queue,
    and the read ends in the queue, which are none of the former. *)
Definition kqueue_descriptors_accounted (s : Kqueue.state) : Prop :=
  Kqueue.fds s = {[0; 1; 2; 3]} ∪ dom (Kqueue.readers s) ∧
  dom (Kqueue.readers s) ## ({[0; 1; 2; 3]} : gset Z).

(** * Facts *)

(** ** The command line *)

(** Decide the comparisons in the goal by arithmetic. *)
Ltac compare :=
  repeat match goal with
    | |- context [?a <? ?b] => destruct (Z.ltb_spec a b); try lia
    | |- context [?a <=? ?b] => destruct (Z.leb_spec a b); try lia
    | |- context [?a =? ?b] => destruct (Z.eqb_spec a b); try lia
    end.

Section ParseFacts.
Variable long_bits : Z.
Variable usage_text : string.
Variable is_separator : string → bool.

Abbreviation parse := (parse_options long_bits usage_text is_separator).
Abbreviation split_at := (split_args usage_text is_separator).
Abbreviation flags := (parse_flags long_bits).
Abbreviation no_sep := (no_separator is_separator).

Lemma split_args_none max_jobs argv i rest :
  no_sep rest →
  split_at max_jobs argv i rest =
    Ok {| max_jobs := max_jobs; num_directories := 1;
          directories := argv; command := drop 1 argv |}.
Proof.
  intros Hno. revert i.
  induction Hno as [|a rest Ha _ IH]; intros i; simpl; [done|].
  rewrite Ha. simpl. apply IH.
Qed.

Lemma split_args_first max_jobs argv i before a after :
  no_sep before → is_separator a = true →
  split_at max_jobs argv i (before ++ a :: after) =
    let j := i + Z.of_nat (length before) in
    if (j <? 1) || (Z.of_nat (length argv) <=? j + 1) then usage usage_text
    else Ok {| max_jobs := max_jobs; num_directories := j;
               directories := argv;
               command := drop (Z.to_nat (j + 1)) argv |}.
Proof.
  intros Hno Ha. revert i.
  induction Hno as [|b before Hb _ IH]; intros i; simpl.
  - rewrite Ha, Z.add_0_r. done.
  - rewrite Hb. simpl. rewrite IH. simpl.
    by replace (i + 1 + Z.of_nat (length before))
      with (i + Z.pos (Pos.of_succ_nat (length before))) by lia.
Qed.

Lemma first_separator (l : list string) :
  no_sep l ∨
  ∃ before a after,
    l = before ++ a :: after ∧ no_sep before ∧ is_separator a = true.
Proof.
  induction l as [|b l [IH|(before & a & after & -> & Hno & Ha)]].
  - left. constructor.
  - destruct (is_separator b) eqn:Hb.
    + right. exists [], b, l. repeat split; [constructor|done].
    + left. by constructor.
  - destruct (is_separator b) eqn:Hb.
    + right. exists [], b, (before ++ a :: after).
      repeat split; [constructor|done].
    + right. exists (b :: before), a, after.
      repeat split; [by constructor|done].
Qed.

Lemma parse_flags_exits m opts :
  match flags m opts with
  | Ok _ => True
  | Stop t => ∃ msg, t = Exited 1 msg
  | Undefined => False
  end.
Proof.
  revert m. induction opts as [|o opts IH]; intros m; simpl; [done|].
  destruct (Ascii.eqb _ _); [|by eexists].
  destruct (_ <? 1); [by eexists|]. apply IH.
Qed.

Lemma parse_flags_ge_1 m0 opts m :
  1 ≤ m0 → flags m0 opts = Ok m → 1 ≤ m.
Proof.
  revert m0. induction opts as [|o opts IH]; intros m0 Hm0; simpl.
  - by intros [= <-].
  - destruct (Ascii.eqb _ _); [|done].
    destruct (_ <? 1) eqn:Hlt; [done|]. apply IH. lia.
Qed.

Lemma parse_options_exits opts argv :
  match parse opts argv with
  | Ok _ => True
  | Stop t => ∃ msg, t = Exited 1 msg
  | Undefined => False
  end.
Proof.
  unfold parse_options.
  pose proof (parse_flags_exits 1 opts) as Hf.
  destruct (flags 1 opts) as [m| |]; simpl; [|done..].
  destruct (_ <? 2); [by eexists|].
  destruct (first_separator argv) as [Hno|(before & a & after & -> & Hno & Ha)].
  - by rewrite split_args_none.
  - rewrite split_args_first by done. simpl.
    destruct (_ || _); [by eexists|done].
Qed.

(** Without a separator the first argument is the one directory and the
    rest is the command. *)
Lemma parse_single_directory opts argv m d rest :
  flags 1 opts = Ok m → argv = d :: rest → rest ≠ [] →
  no_sep argv →
  parse opts argv =
    Ok {| max_jobs := m; num_directories := 1; directories := argv;
          command := rest |}.
Proof.
  intros Hm -> Hrest Hno. unfold parse_options. rewrite Hm.
  cbn [mbind result_bind].
  destruct rest as [|c rest]; [done|].
  simpl length. compare. by rewrite split_args_none.
Qed.

(** The first separator ends the directories; what follows it is the
    command, whatever it holds. *)
Lemma parse_at_first_separator opts m dirs sep cmd :
  flags 1 opts = Ok m →
  no_sep dirs → is_separator sep = true → dirs ≠ [] → cmd ≠ [] →
  parse opts (dirs ++ sep :: cmd) =
    Ok {| max_jobs := m; num_directories := Z.of_nat (length dirs);
          directories := dirs ++ sep :: cmd; command := cmd |}.
Proof.
  intros Hm Hno Hsep Hdirs Hcmd. unfold parse_options. rewrite Hm.
  cbn [mbind result_bind].
  assert (length dirs ≠ 0%nat) by (by destruct dirs).
  assert (length cmd ≠ 0%nat) by (by destruct cmd).
  rewrite split_args_first by done. cbn zeta.
  rewrite length_app. simpl length.
  compare. cbn [orb].
  replace (Z.to_nat (0 + Z.of_nat (length dirs) + 1))
    with (length (dirs ++ [sep])) by (rewrite length_app; simpl; lia).
  rewrite (cons_middle sep), app_assoc, drop_app_length.
  by rewrite Z.add_0_l.
Qed.

Lemma invalid_jobs_exits m opts :
  invalid_jobs long_bits opts → exits_1 (flags m opts).
Proof.
  intros (o & Hin & Hj & Hlt). revert m.
  induction opts as [|o' opts IH]; intros m; [by apply elem_of_nil in Hin|].
  simpl. destruct (Ascii.eqb (opt_char o') "j") eqn:Hc; [|by eexists].
  destruct (_ <? 1) eqn:Hv; [by eexists|].
  apply elem_of_cons in Hin as [->|Hin]; [lia|]. by apply IH.
Qed.

Lemma parse_usage_errors opts argv :
  invalid_jobs long_bits opts ∨ (length argv < 2)%nat ∨ separator_first is_separator argv
    ∨ first_separator_last is_separator argv →
  exits_1 (parse opts argv).
Proof.
  intros Hbad. unfold parse_options.
  pose proof (parse_flags_exits 1 opts) as Hf.
  destruct Hbad as [Hj|Hbad].
  { destruct (invalid_jobs_exits 1 opts Hj) as [msg ->]. by eexists. }
  destruct (flags 1 opts) as [m|t|]; cbn [mbind result_bind];
    [|destruct Hf as [msg ->]; by eexists|done].
  destruct (_ <? 2) eqn:Hargc; [by eexists|].
  destruct Hbad as [Hlen|[(a & rest & -> & Ha)|(before & a & -> & Ha & Hno)]].
  - lia.
  - rewrite (split_args_first _ _ 0 [] a rest) by (done || constructor).
    by eexists.
  - rewrite split_args_first by done. cbn zeta.
    rewrite length_app. simpl length.
    compare; by eexists.
Qed.

End ParseFacts.

(** ** Descriptors *)

Lemma lowest_unused_head (fds : gset Z) :
  ∃ fd,
    head (filter (λ fd, fd ∉ fds) (seqZ 0 (Z.of_nat (size fds) + 1)))
      = Some fd.
Proof.
  destruct (head _) as [fd|] eqn:Hhead; [by eexists|].
  apply head_None in Hhead. exfalso.
  assert (list_to_set (seqZ 0 (Z.of_nat (size fds) + 1)) ⊆ fds) as Hsub.
  { intros fd Hfd%elem_of_list_to_set.
    destruct (decide (fd ∈ fds)) as [|Hout]; [done|].
    assert (fd ∈ filter (λ fd, fd ∉ fds)
                   (seqZ 0 (Z.of_nat (size fds) + 1))) as Hin
      by (by apply list_elem_of_filter).
    rewrite Hhead in Hin. by apply elem_of_nil in Hin. }
  apply subseteq_size in Hsub.
  rewrite size_list_to_set in Hsub by apply NoDup_seqZ.
  rewrite length_seqZ in Hsub. lia.
Qed.

(** The descriptor [pipe] returns is not open, ... *)
Lemma lowest_unused_spec (fds : gset Z) : lowest_unused fds ∉ fds.
Proof.
  unfold lowest_unused.
  destruct (lowest_unused_head fds) as [fd Hhead]. rewrite Hhead. simpl.
  apply head_Some_elem_of, list_elem_of_filter in Hhead. tauto.
Qed.

(** ... it is not above the number of descriptors open, ... *)
Lemma lowest_unused_bound (fds : gset Z) :
  0 ≤ lowest_unused fds ≤ Z.of_nat (size fds).
Proof.
  unfold lowest_unused.
  destruct (lowest_unused_head fds) as [fd Hhead]. rewrite Hhead. simpl.
  apply head_Some_elem_of, list_elem_of_filter in Hhead as [_ Hfd].
  apply elem_of_seqZ in Hfd. lia.
Qed.

(** ... and every descriptor below it is open. *)
Lemma lowest_unused_least (fds : gset Z) fd :
  0 ≤ fd < lowest_unused fds → fd ∈ fds.
Proof.
  unfold lowest_unused.
  destruct (lowest_unused_head fds) as [fd0 Hhead]. rewrite Hhead. simpl.
  intros Hfd.
  apply head_filter_Some in Hhead as (l1 & l2 & Hseq & Hl1).
  assert (fd0 = Z.of_nat (length l1)) as ->.
  { assert ((l1 ++ fd0 :: l2) !! length l1 = Some fd0) as Hat
      by (by rewrite list_lookup_middle).
    rewrite <- Hseq in Hat. apply lookup_seqZ in Hat. lia. }
  assert (l1 !! Z.to_nat fd = Some fd) as Hat.
  { assert (seqZ 0 (Z.of_nat (size fds) + 1) !! Z.to_nat fd = Some fd)
      as Hfd'.
    { apply lookup_seqZ.
      assert (length (seqZ 0 (Z.of_nat (size fds) + 1))
              = length (l1 ++ Z.of_nat (length l1) :: l2)) as Hlen
        by (by rewrite Hseq).
      rewrite length_seqZ, length_app in Hlen. simpl in Hlen. lia. }
    rewrite Hseq, lookup_app_l in Hfd' by lia. done. }
  apply list_elem_of_lookup_2 in Hat.
  rewrite Forall_forall in Hl1. apply Hl1 in Hat.
  by apply dec_stable in Hat.
Qed.

(** With more descriptors open, and the lowest unused one among them, the
    next one is higher. *)
Lemma lowest_unused_next (X Y : gset Z) :
  X ⊆ Y → lowest_unused X ∈ Y → lowest_unused X < lowest_unused Y.
Proof.
  intros Hsub Hin.
  pose proof (lowest_unused_spec Y) as Hout.
  pose proof (lowest_unused_bound Y) as [H0 _].
  destruct (Z.lt_trichotomy (lowest_unused Y) (lowest_unused X))
    as [Hlt|[Heq|Hgt]]; [| |done].
  - destruct Hout. apply Hsub, lowest_unused_least. lia.
  - destruct Hout. by rewrite Heq.
Qed.

(** The descriptors of two [pipe] calls in a row: the four lowest ones
    that are not open, in increasing order. *)
Lemma pipes_lowest_unused (fds : gset Z) :
  let r1 := lowest_unused fds in
  let w1 := lowest_unused ({[r1]} ∪ fds) in
  let r2 := lowest_unused ({[r1; w1]} ∪ fds) in
  let w2 := lowest_unused ({[r2]} ∪ ({[r1; w1]} ∪ fds)) in
  0 ≤ r1 ∧ r1 < w1 ∧ w1 < r2 ∧ r2 < w2 ∧
  (r1 ∉ fds) ∧ (w1 ∉ fds) ∧ (r2 ∉ fds) ∧ (w2 ∉ fds) ∧
  ∀ fd, 0 ≤ fd < w2 → fd ∈ fds ∨ fd = r1 ∨ fd = w1 ∨ fd = r2.
Proof.
  intros r1 w1 r2 w2.
  pose proof (lowest_unused_bound fds) as [H0 _].
  assert (r1 < w1) as H1.
  { apply lowest_unused_next; set_solver. }
  assert (w1 < r2) as H2.
  { apply lowest_unused_next; set_solver. }
  assert (r2 < w2) as H3.
  { apply lowest_unused_next; set_solver. }
  pose proof (lowest_unused_spec fds) as Hr1.
  pose proof (lowest_unused_spec ({[r1]} ∪ fds)) as Hw1.
  pose proof (lowest_unused_spec ({[r1; w1]} ∪ fds)) as Hr2.
  pose proof (lowest_unused_spec ({[r2]} ∪ ({[r1; w1]} ∪ fds))) as Hw2.
  pose proof (lowest_unused_least ({[r2]} ∪ ({[r1; w1]} ∪ fds))) as Hleast.
  fold r1 in H0, Hr1. fold w1 in Hw1. fold r2 in Hr2. fold w2 in Hw2, Hleast.
  clearbody r1 w1 r2 w2.
  split; [done|]. split; [done|]. split; [done|]. split; [done|].
  split; [done|]. split; [set_solver|]. split; [set_solver|].
  split; [set_solver|].
  intros fd Hfd. apply Hleast in Hfd. set_solver.
Qed.

(** ** The prefixer *)

Lemma pipe_bytes_fields p data :
  in_fd (pipe_bytes p data).2 = in_fd p ∧
  out_file (pipe_bytes p data).2 = out_file p ∧
  prefix (pipe_bytes p data).2 = prefix p.
Proof.
  revert p. induction data as [|c data IH]; intros p; simpl; [done|].
  destruct (pipe_bytes _ data) as [calls p'] eqn:E.
  specialize (IH (set_newline p (Ascii.eqb c LF))). rewrite E in IH.
  simpl in *. done.
Qed.

(** Reading a stream in two pieces is reading it in one. *)
Lemma pipe_bytes_app p data1 data2 :
  pipe_bytes p (data1 ++ data2) =
    let '(calls1, p1) := pipe_bytes p data1 in
    let '(calls2, p2) := pipe_bytes p1 data2 in
    (calls1 ++ calls2, p2).
Proof.
  revert p. induction data1 as [|c data1 IH]; intros p; simpl.
  - by destruct (pipe_bytes p data2).
  - rewrite IH.
    destruct (pipe_bytes _ data1) as [calls1 p1].
    destruct (pipe_bytes p1 data2) as [calls2 p2].
    by rewrite <- app_assoc.
Qed.

Lemma pipe_bytes_calls p data :
  (pipe_bytes p data).1 = prefixed (out_file p) (prefix p) (newline p) data.
Proof.
  unfold prefixed. revert p.
  induction data as [|c data IH]; intros p; [done|].
  simpl. specialize (IH (set_newline p (Ascii.eqb c LF))).
  destruct (pipe_bytes _ data) as [calls p']. simpl in *.
  rewrite IH. rewrite <- app_assoc. simpl. do 2 f_equal.
  f_equal. apply imap_ext. intros i x Hx.
  destruct i as [|i]; simpl; [|done].
  destruct (Ascii.eqb_spec c LF) as [->|Hne].
  - by rewrite bool_decide_eq_true_2.
  - rewrite bool_decide_eq_false_2; [done|congruence].
Qed.

Lemma pipe_bytes_newline p data :
  newline (pipe_bytes p data).2 = ends_line (newline p) data.
Proof.
  revert p. induction data as [|c data IH]; intros p; [done|].
  simpl. specialize (IH (set_newline p (Ascii.eqb c LF))).
  destruct (pipe_bytes _ data) as [calls p']. simpl in *.
  rewrite IH. unfold ends_line. destruct data as [|d data]; [done|].
  rewrite last_cons_cons.
  destruct (last (d :: data)) eqn:E; [done|]. by apply last_None in E.
Qed.

Lemma written_app f calls1 calls2 :
  written f (calls1 ++ calls2) = written f calls1 ++ written f calls2.
Proof. unfold written. by rewrite map_app, concat_app. Qed.

Lemma written_concat_imap f (F : nat → ascii → list out_call) data :
  written f (concat (imap F data))
    = concat (imap (λ i c, written f (F i c)) data).
Proof.
  revert F. induction data as [|c data IH]; intros F; [done|].
  simpl. by rewrite written_app, IH.
Qed.

Lemma concat_imap_nil {A B} (l : list A) :
  concat (imap (λ _ _, @nil B) l) = [].
Proof.
  revert B. induction l as [|x l IH]; intros B; [done|].
  simpl. apply (IH B).
Qed.

Lemma FILE_eqb_eq f g : FILE_eqb f g = true ↔ f = g.
Proof. by destruct f, g. Qed.

(** What the calls of a prefixed stream put on each sink. *)
Lemma written_prefixed f g pre first data :
  written g (prefixed f pre first data)
    = if FILE_eqb g f then prefixed_bytes pre first data else [].
Proof.
  unfold prefixed, prefixed_bytes. rewrite written_concat_imap.
  destruct (FILE_eqb g f) eqn:E.
  - f_equal. apply imap_ext. intros i c _. simpl.
    rewrite written_app. unfold written. simpl. rewrite E.
    destruct (at_line_start first data i); simpl; by rewrite ?E, ?app_nil_r.
  - etrans; [|apply (concat_imap_nil (B:=ascii) data)]. f_equal.
    apply imap_ext. intros i c _. simpl.
    rewrite written_app. unfold written. simpl. rewrite E.
    destruct (at_line_start first data i); simpl; by rewrite ?E.
Qed.

Lemma pipe_bytes_spec p data :
  pipe_bytes p data =
    (prefixed (out_file p) (prefix p) (newline p) data,
     set_newline p (ends_line (newline p) data)).
Proof.
  pose proof (pipe_bytes_calls p data) as Hc.
  pose proof (pipe_bytes_newline p data) as Hn.
  pose proof (pipe_bytes_fields p data) as (Hfd & Hf & Hp).
  destruct (pipe_bytes p data) as [calls [fd f pre nl]]. simpl in *.
  subst. by destruct p.
Qed.

Lemma drain_pipe_bytes p reads :
  Select.drain p reads = pipe_bytes p (concat (map chunk_bytes reads)).
Proof.
  revert p. induction reads as [|c reads IH]; intros p; [done|].
  cbn [Select.drain map concat]. rewrite pipe_bytes_app.
  destruct (pipe_bytes p (chunk_bytes c)) as [calls1 p1]. by rewrite IH.
Qed.

Lemma prefixed_app f pre first data1 data2 :
  prefixed f pre first (data1 ++ data2) =
    prefixed f pre first data1
      ++ prefixed f pre (ends_line first data1) data2.
Proof.
  pose proof (pipe_bytes_app
    {| in_fd := 0; out_file := f; prefix := pre; newline := first |}
    data1 data2) as H.
  rewrite !pipe_bytes_spec in H. simpl in H. by injection H.
Qed.

(** One activation of the select program's [run_piper] on a live
    piper. *)
Lemma select_run_piper piper p r s :
  Select.heap s !! piper = Some p →
  let data := concat (map chunk_bytes (chunks r)) in
  let s' :=
    Select.emit (prefixed (out_file p) (prefix p) (newline p) data)
      (Select.set_list (Select.pipers s)
         (<[piper := set_newline p (ends_line (newline p) data)]>
            (Select.heap s)) s) in
  Select.run_piper piper r s =
    match ending r with
    | read_eof => Ok (Select.remove_piper piper s')
    | read_fail EAGAIN => Ok s'
    | read_fail _ => err 1 "read"
    end.
Proof.
  intros Hp. unfold Select.run_piper. rewrite Hp.
  by rewrite drain_pipe_bytes, pipe_bytes_spec.
Qed.

(** The kqueue program's [run_piper] on a live piper. *)
Lemma kqueue_run_piper piper p n c s :
  Kqueue.heap s !! piper = Some p →
  Kqueue.data_malloc_ok c = true →
  Kqueue.run_piper piper n c s =
    match Kqueue.read_returns c with
    | Kqueue.read_error _ => err 1 "read"
    | Kqueue.read_bytes bytes =>
        let data := take (Z.to_nat n) bytes in
        Ok (Kqueue.emit (prefixed (out_file p) (prefix p) (newline p) data)
              (Kqueue.set_heap
                 (<[piper := set_newline p (ends_line (newline p) data)]>
                    (Kqueue.heap s)) s))
    end.
Proof.
  intros Hp Hm. unfold Kqueue.run_piper. rewrite Hp, Hm. simpl.
  destruct (Kqueue.read_returns c); [done|]. by rewrite pipe_bytes_spec.
Qed.

Lemma select_start_piper fd f pre c s s' :
  Select.start_piper fd f pre c s = Ok s' →
  let piper := fresh (dom (Select.heap s)) in
  s' = Select.set_list (piper :: Select.pipers s)
         (<[piper := {| in_fd := fd; out_file := f; prefix := pre;
                        newline := true |}]> (Select.heap s)) s.
Proof.
  unfold Select.start_piper.
  destruct (Select.malloc_ok c), (Select.getfl_ok c), (Select.setfl_ok c);
    simpl; try done.
  by intros [= <-].
Qed.

Lemma kqueue_start_piper fd f pre c s s' :
  Kqueue.start_piper fd f pre c s = Ok s' →
  let piper := fresh (dom (Kqueue.heap s)) in
  s' = Kqueue.set_queue (<[fd := piper]> (Kqueue.readers s))
         (Kqueue.children s)
         (Kqueue.set_heap
            (<[piper := {| in_fd := fd; out_file := f; prefix := pre;
                           newline := true |}]> (Kqueue.heap s)) s).
Proof.
  unfold Kqueue.start_piper, Kqueue.register_piper.
  destruct (Kqueue.malloc_ok c); simpl; [|done].
  rewrite lookup_insert_eq.
  destruct (Kqueue.register_ok c); simpl; [|done].
  by intros [= <-].
Qed.

(** C4.  The line prefixer takes the bytes of a chunk in order: with the
    flag [newline] set it writes the prefix and [": "] before the byte, and
    after the byte the flag is set exactly when the byte is a line feed.
    Both programs create a piper with the flag set.  So the calls made for
    a stream are its bytes, in order, with one prefix before the first byte
    and before each byte that follows a line feed, and no other prefix, all
    on the sink of the piper; reading the stream in several pieces, in one
    activation or over several, gives the same calls, as only the flag is
    carried over. *)
Theorem prefix_exactly_at_line_starts (p : piper) (c : ascii)
    (data data' : list ascii) (reads : list chunk) :
  (* one byte *)
  pipe_bytes p (c :: data) =
    (let rest := pipe_bytes (set_newline p (Ascii.eqb c LF)) data in
     ((if newline p then [fprintf_prefix (out_file p) (prefix p)] else [])
        ++ fputc c (out_file p) :: rest.1, rest.2)) ∧
  (* a whole stream *)
  pipe_bytes p data =
    (prefixed (out_file p) (prefix p) (newline p) data,
     set_newline p (ends_line (newline p) data)) ∧
  written (out_file p) (pipe_bytes p data).1
    = prefixed_bytes (prefix p) (newline p) data ∧
  (∀ f, f ≠ out_file p → written f (pipe_bytes p data).1 = []) ∧
  (* in pieces *)
  pipe_bytes p (data ++ data') =
    (let first := pipe_bytes p data in
     let second := pipe_bytes first.2 data' in
     (first.1 ++ second.1, second.2)) ∧
  Select.drain p reads = pipe_bytes p (concat (map chunk_bytes reads)) ∧
  (* the flag starts true, and is kept in the piper between activations *)
  (∀ fd f pre calls s,
     match Select.start_piper fd f pre calls s with
     | Ok s' =>
         ∃ piper, Select.pipers s' = piper :: Select.pipers s ∧
           Select.heap s' !! piper =
             Some {| in_fd := fd; out_file := f; prefix := pre;
                     newline := true |}
     | _ => True
     end) ∧
  (∀ fd f pre calls s,
     match Kqueue.start_piper fd f pre calls s with
     | Ok s' =>
         ∃ piper, Kqueue.readers s' !! fd = Some piper ∧
           Kqueue.heap s' !! piper =
             Some {| in_fd := fd; out_file := f; prefix := pre;
                     newline := true |}
     | _ => True
     end) ∧
  (∀ piper r s,
     Select.heap s !! piper = Some p →
     ending r = read_fail EAGAIN →
     ∃ s', Select.run_piper piper r s = Ok s' ∧
       Select.output s' =
         Select.output s
           ++ prefixed (out_file p) (prefix p) (newline p)
                (concat (map chunk_bytes (chunks r))) ∧
       Select.heap s' !! piper =
         Some (set_newline p
                 (ends_line (newline p)
                    (concat (map chunk_bytes (chunks r)))))) ∧
  (∀ piper bytes dereg s,
     Kqueue.heap s !! piper = Some p →
     ∃ s', Kqueue.run_piper piper (Z.of_nat (length bytes))
             {| Kqueue.data_malloc_ok := true;
                Kqueue.read_returns := Kqueue.read_bytes bytes;
                Kqueue.deregister_ok := dereg |} s = Ok s' ∧
       Kqueue.output s' =
         Kqueue.output s ++ prefixed (out_file p) (prefix p) (newline p) bytes ∧
       Kqueue.heap s' !! piper =
         Some (set_newline p (ends_line (newline p) bytes))).
Proof.
  repeat split.
  - simpl. by destruct (pipe_bytes _ data).
  - apply pipe_bytes_spec.
  - rewrite pipe_bytes_spec. simpl. rewrite written_prefixed.
    by rewrite (proj2 (FILE_eqb_eq _ _) eq_refl).
  - intros f Hf. rewrite pipe_bytes_spec. simpl. rewrite written_prefixed.
    destruct (FILE_eqb f (out_file p)) eqn:E; [|done].
    by apply FILE_eqb_eq in E.
  - rewrite pipe_bytes_app. destruct (pipe_bytes p data) as [calls1 p1].
    simpl. by destruct (pipe_bytes p1 data').
  - apply drain_pipe_bytes.
  - intros fd f pre calls s.
    destruct (Select.start_piper fd f pre calls s) as [s'| |] eqn:E; [|done..].
    apply select_start_piper in E as ->. simpl.
    eexists. split; [done|]. apply lookup_insert_eq.
  - intros fd f pre calls s.
    destruct (Kqueue.start_piper fd f pre calls s) as [s'| |] eqn:E; [|done..].
    apply kqueue_start_piper in E as ->. simpl.
    eexists. split; apply lookup_insert_eq.
  - intros piper r s Hp Hr. rewrite (select_run_piper _ _ _ _ Hp), Hr.
    eexists. split; [done|]. simpl. split; [done|]. apply lookup_insert_eq.
  - intros piper bytes dereg s Hp.
    rewrite (kqueue_run_piper _ _ _ _ _ Hp) by done. simpl.
    rewrite Nat2Z.id, firstn_all.
    eexists. split; [done|]. simpl. split; [done|]. apply lookup_insert_eq.
Qed.

(** The flag is what [start_piper] set; two activations on a fresh piper,
    the first ending in the middle of a line. *)
Lemma prefix_exactly_at_line_starts_witness :
  let p := {| in_fd := 3; out_file := stdout; prefix := "d1"; newline := true |} in
  let h : ascii := "h"%char in
  let i : ascii := "i"%char in
  (pipe_bytes p [h; i; LF; h]).1
    = [fprintf_prefix stdout "d1"; fputc h stdout; fputc i stdout;
       fputc LF stdout; fprintf_prefix stdout "d1"; fputc h stdout] ∧
  (pipe_bytes (pipe_bytes p [h; i; LF; h]).2 [i; LF]).1
    = [fputc i stdout; fputc LF stdout].
Proof.
  intros p h i.
  destruct (prefix_exactly_at_line_starts p h [h; i; LF; h] [i; LF] [])
    as (_ & H & _).
  split; [by rewrite H|].
  destruct (prefix_exactly_at_line_starts
              (pipe_bytes p [h; i; LF; h]).2 i [i; LF] [] []) as (_ & H' & _).
  by rewrite H'.
Defined.

(** ** The select program: what the counters count *)

Module SelectFacts.
Import Select SelectRun.

Lemma select_start_piper_books fd f pre c s s' :
  start_piper fd f pre c s = Ok s' → books s' = books s.
Proof. intros H. by apply select_start_piper in H as ->. Qed.

Lemma select_start_piper_stops fd f pre c s t :
  start_piper fd f pre c s = Stop t → ∃ msg, t = Exited 1 msg.
Proof.
  unfold start_piper.
  destruct (malloc_ok c), (getfl_ok c), (setfl_ok c); simpl; try done;
    intros [= <-]; by eexists.
Qed.

Lemma select_start_piper_defined fd f pre c s : start_piper fd f pre c s ≠ Undefined.
Proof.
  unfold start_piper.
  by destruct (malloc_ok c), (getfl_ok c), (setfl_ok c).
Qed.

Lemma select_start_job_books dir c s s' :
  start_job dir c s = Ok s' →
  directory s' = directory s ∧ num_jobs s' = num_jobs s ∧
  status s' = status s ∧ started s' = started s ++ [dir] ∧
  reaped s' = reaped s.
Proof.
  unfold start_job.
  destruct (pipe_stdout_ok c); simpl; [|done].
  destruct (pipe_stderr_ok c); simpl; [|done].
  destruct (fork_ok c); simpl; [|done].
  destruct (start_piper _ stdout _ _ _) as [s1| |] eqn:E1; simpl; [|done..].
  intros E2. apply select_start_piper_books in E1, E2.
  unfold books in *. simpl in *. rewrite E1 in E2.
  injection E2; auto.
Qed.

Lemma select_start_job_stops dir c s t :
  start_job dir c s = Stop t → ∃ msg, t = Exited 1 msg.
Proof.
  unfold start_job.
  destruct (pipe_stdout_ok c); simpl; [|intros [= <-]; by eexists].
  destruct (pipe_stderr_ok c); simpl; [|intros [= <-]; by eexists].
  destruct (fork_ok c); simpl; [|intros [= <-]; by eexists].
  destruct (start_piper _ stdout _ _ _) as [s1| |] eqn:E1; simpl.
  - apply select_start_piper_stops.
  - intros [= <-]. by eapply select_start_piper_stops.
  - done.
Qed.

Lemma select_remove_piper_books piper s : books (remove_piper piper s) = books s.
Proof. unfold remove_piper. by case_bool_decide. Qed.

Lemma select_run_piper_books piper r s s' :
  run_piper piper r s = Ok s' → books s' = books s.
Proof.
  unfold run_piper. destruct (heap s !! piper) as [p|]; [|done].
  destruct (drain p (chunks r)) as [calls p'].
  destruct (ending r) as [|[]]; try done; intros [= <-]; [|done].
  by rewrite select_remove_piper_books.
Qed.

Lemma select_run_piper_stops piper r s t :
  run_piper piper r s = Stop t → ∃ msg, t = Exited 1 msg.
Proof.
  unfold run_piper. destruct (heap s !! piper) as [p|]; [|done].
  destruct (drain p (chunks r)) as [calls p'].
  destruct (ending r) as [|[]]; try done; intros [= <-]; by eexists.
Qed.

Lemma select_run_ready_books isset ps s s' :
  run_ready isset ps s = Ok s' → books s' = books s.
Proof.
  revert s. induction ps as [|piper ps IH]; intros s; simpl.
  - by intros [= <-].
  - destruct (heap s !! piper) as [p|]; [|done].
    destruct (isset (in_fd p)) as [r|]; simpl; [|apply IH].
    destruct (run_piper piper r s) as [s1| |] eqn:E; simpl; [|done..].
    intros H. apply IH in H. apply select_run_piper_books in E. congruence.
Qed.

Lemma select_run_ready_stops isset ps s t :
  run_ready isset ps s = Stop t → ∃ msg, t = Exited 1 msg.
Proof.
  revert s. induction ps as [|piper ps IH]; intros s; simpl; [done|].
  destruct (heap s !! piper) as [p|]; [|done].
  destruct (isset (in_fd p)) as [r|]; simpl; [|apply IH].
  destruct (run_piper piper r s) as [s1| |] eqn:E; simpl; [apply IH| |done].
  intros [= <-]. by eapply select_run_piper_stops.
Qed.

Lemma select_poll_books r s s' : poll r s = Ok s' → books s' = books s.
Proof.
  unfold poll. destruct (fd_sets _ _ _ _) as [[piper_fds nfds]| |]; simpl;
    [|done..].
  destruct r as [ready|[]]; try done.
  - apply select_run_ready_books.
  - by intros [= <-].
Qed.

Lemma select_fd_sets_stops h ps fs n t : fd_sets h ps fs n ≠ Stop t.
Proof.
  revert fs n. induction ps as [|piper ps IH]; intros fs n; simpl; [done|].
  destruct (h !! piper) as [p|]; [|done].
  destruct (_ && _); [apply IH|done].
Qed.

Lemma select_poll_stops r s t : poll r s = Stop t → ∃ msg, t = Exited 1 msg.
Proof.
  unfold poll. destruct (fd_sets _ _ _ _) as [[piper_fds nfds]| |] eqn:E;
    simpl; [| |done].
  - destruct r as [ready|[]]; try done.
    + apply select_run_ready_stops.
    + intros [= <-]; by eexists.
    + intros [= <-]; by eexists.
  - by apply select_fd_sets_stops in E.
Qed.

Lemma select_counted_books o s s' : books s' = books s → counted o s → counted o s'.
Proof.
  unfold books. intros [= Hd Hn Hst Hs Hr] [].
  split; rewrite ?Hd, ?Hn, ?Hst, ?Hs, ?Hr; done.
Qed.

Lemma select_counted_initial o : well_formed o → counted o initial.
Proof. intros [? ?]. split; simpl; try done; try lia; auto. Qed.

Lemma select_at_fill_reachable o s :
  counted o s → loop_test o s = true → reachable o (at_fill o s).
Proof.
  intros Hc Hl. unfold at_fill. destruct (fill_test o s) eqn:Hf; [done|].
  destruct (fd_sets _ _ _ _) as [sets|t|] eqn:Hsets; [|by apply
    select_fd_sets_stops in Hsets|done].
  split; [done|]. split; [done|]. split; [done|]. by exists sets.
Qed.

Lemma select_at_loop_reachable o s : counted o s → reachable o (at_loop o s).
Proof.
  intros Hc. unfold at_loop. destruct (loop_test o s) eqn:Hl; [|done].
  by apply select_at_fill_reachable.
Qed.

Lemma select_at_reap_reachable o s : counted o s → reachable o (at_reap o s).
Proof.
  intros Hc. unfold at_reap. destruct (num_jobs s =? 0) eqn:Hn; simpl.
  - by apply select_at_loop_reachable.
  - split; [done|]. simpl. lia.
Qed.

Lemma select_counted_job_started o dir c s s' :
  counted o s → fill_test o s = true →
  directories o !! Z.to_nat (directory s) = Some dir →
  start_job dir c s = Ok s' →
  counted o (job_started s') ∧ loop_test o (job_started s') = true.
Proof.
  intros [] Hf Hdir (Hd & Hn & Hst & Hs & Hr)%select_start_job_books.
  unfold fill_test in Hf. apply andb_true_iff in Hf as [Hm Hq].
  apply Z.ltb_lt in Hm, Hq.
  split.
  - split; simpl; rewrite ?Hd, ?Hn, ?Hst, ?Hs, ?Hr, ?length_app; simpl;
      try lia; try done.
    replace (Z.to_nat (directory s + 1)) with (S (Z.to_nat (directory s)))
      by lia.
    erewrite take_S_r by done. by f_equal.
  - unfold loop_test. simpl. rewrite Hn. by compare.
Qed.

Lemma select_counted_job_collected o st s :
  counted o s → num_jobs s ≠ 0 → counted o (job_collected st s).
Proof.
  intros [] Hn. split; simpl; rewrite ?length_app; simpl; try lia; try done.
  - compare; auto.
  - rewrite Forall_app, Forall_singleton, <- status_counts0.
    compare; intuition lia.
Qed.

Lemma select_step_reachable o at_call s a out :
  well_formed o → counted o s → blocked_at o at_call s →
  step o at_call s a = Some out → reachable o out.
Proof.
  intros [Hm Hn] Hc Hb.
  destruct at_call, a as [c|r|w]; simpl; try done; intros [= <-].
  - simpl in Hb.
    assert (is_Some (directories o !! Z.to_nat (directory s))) as [dir Hdir].
    { apply lookup_lt_is_Some. unfold fill_test in Hb.
      apply andb_true_iff in Hb as [_ Hq]. apply Z.ltb_lt in Hq.
      destruct Hc. lia. }
    rewrite Hdir.
    destruct (start_job dir c s) as [s'|t|] eqn:E; simpl; [| |done].
    + destruct (select_counted_job_started _ _ _ _ _ Hc Hb Hdir E).
      by apply select_at_fill_reachable.
    + by eapply select_start_job_stops.
  - destruct (poll r s) as [s'|t|] eqn:E; simpl; [| |done].
    + apply select_at_reap_reachable. eapply select_counted_books; [|done].
      by eapply select_poll_books.
    + by eapply select_poll_stops.
  - destruct w as [| |st].
    + by eexists.
    + by apply select_at_loop_reachable.
    + apply select_at_reap_reachable. by apply select_counted_job_collected.
Qed.

Lemma select_exec_reachable o out answers out' :
  well_formed o → reachable o out →
  exec o out answers = Some out' → reachable o out'.
Proof.
  intros Ho. revert out.
  induction answers as [|a answers IH]; intros out Hr; simpl.
  - by intros [= <-].
  - destruct out as [at_call s|st s|t|]; try done.
    destruct (step o at_call s a) as [out1|] eqn:E; simpl; [|done].
    apply IH. destruct Hr. by eapply select_step_reachable.
Qed.

(** Every point a run comes to is counted right. *)
Lemma select_run_reachable o answers out :
  well_formed o → run o answers = Some out → reachable o out.
Proof.
  intros Ho. apply select_exec_reachable; [done|].
  by apply select_at_loop_reachable, select_counted_initial.
Qed.

End SelectFacts.

(** ** The kqueue program: what the counters count *)

Module KqueueFacts.
Import Kqueue KqueueRun.

Lemma kqueue_start_piper_books fd f pre c s s' :
  start_piper fd f pre c s = Ok s' → books s' = books s.
Proof. intros H. by apply kqueue_start_piper in H as ->. Qed.

Lemma kqueue_register_piper_stops ok piper s t :
  register_piper ok piper s = Stop t → ∃ msg, t = Exited 1 msg.
Proof.
  unfold register_piper. destruct (heap s !! piper); [|done].
  destruct ok; [done|]. intros [= <-]. by eexists.
Qed.

Lemma kqueue_start_piper_stops fd f pre c s t :
  start_piper fd f pre c s = Stop t → ∃ msg, t = Exited 1 msg.
Proof.
  unfold start_piper. destruct (malloc_ok c); simpl.
  - apply kqueue_register_piper_stops.
  - intros [= <-]. by eexists.
Qed.

Lemma kqueue_start_job_books dir c s s' :
  start_job dir c s = Ok s' →
  directory s' = directory s ∧ num_jobs s' = num_jobs s ∧
  started s' = started s ++ [dir] ∧ exited s' = exited s ∧
  ∃ pid, fork_pid c = Some pid ∧ children s' = {[pid]} ∪ children s.
Proof.
  unfold start_job.
  destruct (pipe_stdout_ok c); simpl; [|done].
  destruct (pipe_stderr_ok c); simpl; [|done].
  destruct (fork_pid c) as [pid|]; simpl; [|done].
  unfold register_job. destruct (register_job_ok c); simpl; [|done].
  destruct (start_piper _ stdout _ _ _) as [s1| |] eqn:E1; simpl; [|done..].
  intros E2. apply kqueue_start_piper_books in E1, E2.
  unfold books in *. simpl in *. rewrite E1 in E2.
  injection E2 as -> -> -> -> ->. repeat split. by exists pid.
Qed.

Lemma kqueue_start_job_stops dir c s t :
  start_job dir c s = Stop t → ∃ msg, t = Exited 1 msg.
Proof.
  unfold start_job.
  destruct (pipe_stdout_ok c); simpl; [|intros [= <-]; by eexists].
  destruct (pipe_stderr_ok c); simpl; [|intros [= <-]; by eexists].
  destruct (fork_pid c) as [pid|]; simpl; [|intros [= <-]; by eexists].
  unfold register_job.
  destruct (register_job_ok c); simpl; [|intros [= <-]; by eexists].
  destruct (start_piper _ stdout _ _ _) as [s1| |] eqn:E1; simpl.
  - apply kqueue_start_piper_stops.
  - intros [= <-]. by eapply kqueue_start_piper_stops.
  - done.
Qed.

Lemma kqueue_run_piper_books piper n c s s' :
  run_piper piper n c s = Ok s' → books s' = books s.
Proof.
  unfold run_piper. destruct (data_malloc_ok c); simpl; [|done].
  destruct (heap s !! piper) as [p|]; [|done].
  destruct (read_returns c) as [e|data]; [done|].
  destruct (pipe_bytes p _) as [calls p']. by intros [= <-].
Qed.

Lemma kqueue_run_piper_stops piper n c s t :
  run_piper piper n c s = Stop t → ∃ msg, t = Exited 1 msg.
Proof.
  unfold run_piper.
  destruct (data_malloc_ok c); simpl; [|intros [= <-]; by eexists].
  destruct (heap s !! piper) as [p|]; [|done].
  destruct (read_returns c) as [e|data]; [intros [= <-]; by eexists|].
  by destruct (pipe_bytes p _).
Qed.

Lemma kqueue_retire_books ok piper s s' :
  retire ok piper s = Ok s' → books s' = books s.
Proof.
  unfold retire, deregister_piper.
  destruct (heap s !! piper) as [p|] eqn:Hp; simpl; [|done].
  destruct ok; simpl; [|done]. rewrite Hp. by intros [= <-].
Qed.

Lemma kqueue_retire_stops ok piper s t :
  retire ok piper s = Stop t → ∃ msg, t = Exited 1 msg.
Proof.
  unfold retire, deregister_piper.
  destruct (heap s !! piper) as [p|] eqn:Hp; simpl; [|done].
  destruct ok; simpl; [by rewrite Hp|]. intros [= <-]. by eexists.
Qed.

Lemma kqueue_readable_books piper n eof c s s' :
  readable piper n eof c s = Ok s' → books s' = books s.
Proof.
  unfold readable.
  destruct (run_piper piper n c s) as [s1| |] eqn:E; simpl; [|done..].
  apply kqueue_run_piper_books in E. destruct eof.
  - intros H%kqueue_retire_books. congruence.
  - intros [= <-]. done.
Qed.

Lemma kqueue_readable_stops piper n eof c s t :
  readable piper n eof c s = Stop t → ∃ msg, t = Exited 1 msg.
Proof.
  unfold readable.
  destruct (run_piper piper n c s) as [s1| |] eqn:E; simpl; [| |done].
  - destruct eof; [apply kqueue_retire_stops|done].
  - intros [= <-]. by eapply kqueue_run_piper_stops.
Qed.

Lemma kqueue_counted_books o s s' : books s' = books s → counted o s → counted o s'.
Proof.
  unfold books. intros [= Hd Hn Hs Hr Hc] [].
  split; rewrite ?Hd, ?Hn, ?Hs, ?Hr, ?Hc; done.
Qed.

Lemma kqueue_counted_initial o : well_formed o → counted o initial.
Proof. intros [? ?]. split; simpl; try done; lia. Qed.

Lemma kqueue_at_fill_reachable o s :
  counted o s → loop_test o s = true → reachable o (at_fill o s).
Proof.
  intros Hc Hl. unfold at_fill. by destruct (fill_test o s) eqn:Hf.
Qed.

Lemma kqueue_at_loop_reachable o s : counted o s → reachable o (at_loop o s).
Proof.
  intros Hc. unfold at_loop. destruct (loop_test o s) eqn:Hl; [|done].
  by apply kqueue_at_fill_reachable.
Qed.

Lemma kqueue_counted_job_started o dir c s s' :
  counted o s → fill_test o s = true → pid_in_use c s = false →
  directories o !! Z.to_nat (directory s) = Some dir →
  start_job dir c s = Ok s' →
  counted o (job_started s') ∧ loop_test o (job_started s') = true.
Proof.
  intros [] Hf Hpid Hdir
    (Hd & Hn & Hs & Hr & pid & Hfork & Hc)%kqueue_start_job_books.
  unfold pid_in_use in Hpid. rewrite Hfork in Hpid.
  apply bool_decide_eq_false in Hpid.
  unfold fill_test in Hf. apply andb_true_iff in Hf as [Hm Hq].
  apply Z.ltb_lt in Hm, Hq.
  split.
  - split; simpl; rewrite ?Hd, ?Hn, ?Hs, ?Hr, ?Hc, ?length_app; simpl;
      try lia; try done.
    + replace (Z.to_nat (directory s + 1)) with (S (Z.to_nat (directory s)))
        by lia.
      erewrite take_S_r by done. by f_equal.
    + rewrite size_union, size_singleton by set_solver. lia.
  - unfold loop_test. simpl. rewrite Hn. compare; done.
Qed.

Lemma kqueue_counted_job_exited o ident data s :
  counted o s → ident ∈ children s → counted o (job_exited ident data s).
Proof.
  intros [] Hin. split; simpl; rewrite ?length_app; simpl; try lia;
    try done.
  rewrite size_difference by set_solver. rewrite size_singleton.
  assert (size (children s) ≠ 0%nat); [|lia].
  intros Hz%size_empty_inv. set_solver.
Qed.

Lemma kqueue_step_reachable o at_call s a out :
  well_formed o → counted o s → blocked_at o at_call s →
  step o at_call s a = Some out → reachable o out.
Proof.
  intros [Hm Hn] Hc Hb.
  destruct at_call, a as [c|[|ident data|ident data eof c]]; simpl; try done.
  - destruct (pid_in_use c s) eqn:Hpid; [done|].
    intros [= <-]. simpl in Hb.
    assert (is_Some (directories o !! Z.to_nat (directory s))) as [dir Hdir].
    { apply lookup_lt_is_Some. unfold fill_test in Hb.
      apply andb_true_iff in Hb as [_ Hq]. apply Z.ltb_lt in Hq.
      destruct Hc. lia. }
    rewrite Hdir.
    destruct (start_job dir c s) as [s'|t|] eqn:E; simpl; [| |done].
    + destruct (kqueue_counted_job_started _ _ _ _ _ Hc Hb Hpid Hdir E).
      by apply kqueue_at_fill_reachable.
    + by eapply kqueue_start_job_stops.
  - intros [= <-]. by eexists.
  - case_bool_decide; [|done]. intros [= <-].
    by apply kqueue_at_loop_reachable, kqueue_counted_job_exited.
  - destruct (readers s !! ident) as [piper|]; simpl; [|done].
    destruct (would_block c); [done|]. intros [= <-].
    destruct (readable piper data eof c s) as [s'|t|] eqn:E; simpl; [| |done].
    + apply kqueue_at_loop_reachable. eapply kqueue_counted_books; [|done].
      by eapply kqueue_readable_books.
    + by eapply kqueue_readable_stops.
Qed.

Lemma kqueue_exec_reachable o out answers out' :
  well_formed o → reachable o out →
  exec o out answers = Some out' → reachable o out'.
Proof.
  intros Ho. revert out.
  induction answers as [|a answers IH]; intros out Hr; simpl.
  - by intros [= <-].
  - destruct out as [at_call s|st s|t|]; try done.
    destruct (step o at_call s a) as [out1|] eqn:E; simpl; [|done].
    apply IH. destruct Hr. by eapply kqueue_step_reachable.
Qed.

(** Every point a run comes to is counted right. *)
Lemma kqueue_run_reachable o answers out :
  well_formed o → run o answers = Some out → reachable o out.
Proof.
  intros Ho. apply kqueue_exec_reachable; [done|].
  by apply kqueue_at_loop_reachable, kqueue_counted_initial.
Qed.

End KqueueFacts.

(** ** The claims on the loop *)

(** The select program: [main] returns exactly when nothing is left to
    do. *)
Lemma select_returns_iff_all_done o answers out s :
  well_formed o → Select.run o answers = Some out →
  SelectRun.state_of out = Some s →
  (∃ st, out = Select.Returns st s) ↔ SelectRun.all_done o s.
Proof.
  intros Ho Hrun Hs. apply SelectFacts.select_run_reachable in Hrun; [|done].
  unfold SelectRun.all_done.
  destruct out as [at_call s'|st s'|t|]; simplify_eq/=.
  - destruct Hrun as [Hc Hb]. split; [by intros [st [=]]|].
    intros (Hd & Hn & Hp). exfalso.
    destruct at_call; simpl in Hb.
    + unfold Select.fill_test in Hb. apply andb_true_iff in Hb as [_ Hq].
      apply Z.ltb_lt in Hq. lia.
    + destruct Hb as (_ & Hl & _). unfold Select.loop_test in Hl.
      rewrite Hn, Hp in Hl. simpl in Hl. apply Z.ltb_lt in Hl. lia.
    + done.
  - destruct Hrun as (Hc & Hl & ->). split; [intros _|by eexists].
    unfold Select.loop_test in Hl.
    apply orb_false_iff in Hl as [Hl Hq].
    apply orb_false_iff in Hl as [Hn Hp].
    apply negb_false_iff, Z.eqb_eq in Hn. apply Z.ltb_ge in Hq.
    by destruct (Select.pipers s).
Qed.

(** The kqueue program: [main] returns exactly when no directory is left
    and no job is active, whatever pipers are live. *)
Lemma kqueue_returns_iff_jobs_done o answers out s :
  well_formed o → Kqueue.run o answers = Some out →
  KqueueRun.state_of out = Some s →
  (∃ st, out = Kqueue.Returns st s) ↔ KqueueRun.jobs_done o s.
Proof.
  intros Ho Hrun Hs. apply KqueueFacts.kqueue_run_reachable in Hrun; [|done].
  unfold KqueueRun.jobs_done.
  destruct out as [at_call s'|st s'|t|]; simplify_eq/=.
  - destruct Hrun as [Hc Hb]. split; [by intros [st [=]]|].
    intros (Hd & Hn). exfalso.
    destruct at_call; simpl in Hb.
    + unfold Kqueue.fill_test in Hb. apply andb_true_iff in Hb as [_ Hq].
      apply Z.ltb_lt in Hq. lia.
    + destruct Hb as [_ Hl]. unfold Kqueue.loop_test in Hl.
      rewrite Hn in Hl. simpl in Hl. apply Z.ltb_lt in Hl. lia.
  - destruct Hrun as (Hc & Hl & ->). split; [intros _|by eexists].
    unfold Kqueue.loop_test in Hl.
    apply orb_false_iff in Hl as [Hn Hq].
    apply negb_false_iff, Z.eqb_eq in Hn. by apply Z.ltb_ge in Hq.
Qed.

(** The select program: the exit code tells whether a job failed. *)
Lemma select_exit_code o answers out :
  well_formed o → Select.run o answers = Some out →
  match out with
  | Select.Returns st s =>
      (st = 0 ↔ Forall (λ child_status, child_status = 0) (Select.reaped s)) ∧
      (st = 0 ∨ st = 1) ∧
      Select.started s = job_directories o ∧
      length (Select.reaped s) = length (Select.started s)
  | Select.Aborted t => exit_code t = 1
  | _ => True
  end.
Proof.
  intros Ho Hrun.
  pose proof (select_returns_iff_all_done o answers out) as Hdone.
  apply SelectFacts.select_run_reachable in Hrun as Hr; [|done].
  destruct out as [at_call s|st s|t|]; simpl in *; [done| |by destruct Hr as [msg ->]|done].
  destruct Hr as ([] & Hl & ->).
  destruct (Hdone s Ho Hrun eq_refl) as [(Hd & Hn & Hp) _]; [by eexists|].
  repeat split; try tauto; [|lia].
  unfold job_directories. rewrite started_in_order. f_equal. lia.
Qed.

(** The kqueue program: [main] returns 0, whatever the jobs did. *)
Lemma kqueue_exit_code o answers out :
  well_formed o → Kqueue.run o answers = Some out →
  match out with
  | Kqueue.Returns st s =>
      st = 0 ∧ Kqueue.started s = job_directories o ∧
      length (Kqueue.exited s) = length (Kqueue.started s)
  | Kqueue.Aborted t => exit_code t = 1
  | _ => True
  end.
Proof.
  intros Ho Hrun.
  apply KqueueFacts.kqueue_run_reachable in Hrun as Hr; [|done].
  destruct out as [at_call s|st s|t|]; simpl in *; [done| |by destruct Hr as [msg ->]|done].
  destruct Hr as ([] & Hl & ->).
  unfold Kqueue.loop_test in Hl. apply orb_false_iff in Hl as [Hn Hq].
  apply negb_false_iff, Z.eqb_eq in Hn. apply Z.ltb_ge in Hq.
  repeat split; [|lia].
  unfold job_directories. rewrite started_in_order. f_equal. lia.
Qed.


(** ** The select program: the list of pipers *)

Module SelectMemory.
Import Select SelectRun SelectFacts.

Lemma select_unlink_absent piper l : piper ∉ l → unlink piper l = l.
Proof.
  induction l as [|q l IH]; [done|]. intros [Hq Hl]%not_elem_of_cons.
  simpl. destruct (Pos.eqb_spec q piper); [done|]. by rewrite IH.
Qed.

Lemma select_elem_of_unlink piper q l :
  NoDup l → q ∈ unlink piper l ↔ q ∈ l ∧ q ≠ piper.
Proof.
  induction 1 as [|x l Hx Hl IH]; simpl; [set_solver|].
  destruct (Pos.eqb_spec x piper) as [->|Hne]; [set_solver|].
  rewrite !elem_of_cons, IH. naive_solver.
Qed.

Lemma select_NoDup_unlink piper l : NoDup l → NoDup (unlink piper l).
Proof.
  induction 1 as [|x l Hx Hl IH]; simpl; [constructor|].
  destruct (Pos.eqb_spec x piper) as [->|Hne]; [done|].
  constructor; [|done]. rewrite select_elem_of_unlink by done. tauto.
Qed.

Lemma select_tidy_initial : tidy initial.
Proof.
  split; simpl.
  - constructor.
  - intros piper. rewrite lookup_empty. split; [by intros ?%elem_of_nil|by intros []].
  - intros piper p. by rewrite lookup_empty.
Qed.

(** [remove_piper] takes a piper out of the list and frees it; its
    descriptor stays open. *)
Lemma select_remove_piper_spec piper s :
  tidy s → piper ∈ pipers s →
  let s' := remove_piper piper s in
  tidy s' ∧ (piper ∉ pipers s') ∧ heap s' !! piper = None ∧
  fds s' = fds s ∧
  (∀ q, q ≠ piper →
        (q ∈ pipers s' ↔ q ∈ pipers s) ∧ heap s' !! q = heap s !! q).
Proof.
  intros [] Hin. unfold remove_piper. rewrite bool_decide_eq_true_2 by done.
  simpl. repeat split; simpl.
  - by apply select_NoDup_unlink.
  - rewrite select_elem_of_unlink by done. intros [Hq Hne].
    rewrite lookup_delete_ne by done. by apply pipers_allocated0.
  - destruct (decide (piper = piper0)) as [->|Hne].
    + rewrite lookup_delete_eq. by intros [].
    + rewrite lookup_delete_ne by done. intros Hq.
      rewrite select_elem_of_unlink by done. split; [|done].
      by apply pipers_allocated0.
  - intros q p [_ Hq]%lookup_delete_Some. by eapply pipers_open0.
  - rewrite select_elem_of_unlink by done. tauto.
  - apply lookup_delete_eq.
  - rewrite select_elem_of_unlink by done. tauto.
  - rewrite select_elem_of_unlink by done. tauto.
  - by rewrite lookup_delete_ne.
Qed.

Lemma select_start_piper_tidy fd f pre c s s' :
  tidy s → fd ∈ fds s → start_piper fd f pre c s = Ok s' →
  tidy s' ∧ fds s' = fds s.
Proof.
  intros [Hnd Hal Hop] Hfd ->%select_start_piper. simpl.
  assert (heap s !! fresh (dom (heap s)) = None) as Hfresh.
  { apply not_elem_of_dom, is_fresh. }
  split; [split; simpl|done].
  - constructor; [|done]. rewrite Hal, Hfresh. by intros [].
  - intros piper. rewrite elem_of_cons, Hal, lookup_insert_is_Some.
    destruct (decide (fresh (dom (heap s)) = piper)); naive_solver.
  - intros piper p [[_ <-]|[_ Hp]]%lookup_insert_Some; [done|].
    by eapply Hop.
Qed.

Lemma select_start_job_tidy dir c s s' :
  tidy s → start_job dir c s = Ok s' → tidy s'.
Proof.
  intros [Hnd Hal Hop]. unfold start_job.
  destruct (pipe_stdout_ok c); simpl; [|done].
  destruct (pipe_stderr_ok c); simpl; [|done].
  destruct (fork_ok c); simpl; [|done].
  pose proof (lowest_unused_spec (fds s)) as Hr1.
  set (r1 := lowest_unused (fds s)) in *. clearbody r1.
  pose proof (lowest_unused_spec ({[r1]} ∪ fds s)) as Hw1.
  set (w1 := lowest_unused ({[r1]} ∪ fds s)) in *. clearbody w1.
  pose proof (lowest_unused_spec ({[r1; w1]} ∪ fds s)) as Hr2.
  set (r2 := lowest_unused ({[r1; w1]} ∪ fds s)) in *. clearbody r2.
  pose proof (lowest_unused_spec ({[r2]} ∪ ({[r1; w1]} ∪ fds s))) as Hw2.
  set (w2 := lowest_unused ({[r2]} ∪ ({[r1; w1]} ∪ fds s))) in *. clearbody w2.
  match goal with
  | |- context [start_piper r1 stdout dir _ ?s0] => set (s1 := s0)
  end.
  assert (tidy s1) as Hs1.
  { split; [done..|]. intros piper p Hp. apply Hop in Hp. simpl.
    set_solver. }
  assert (r1 ∈ fds s1 ∧ r2 ∈ fds s1) as [Hin1 Hin2].
  { simpl. set_solver. }
  destruct (start_piper r1 stdout dir _ s1) as [s2| |] eqn:E1; simpl;
    [|done..].
  apply select_start_piper_tidy in E1 as [Hs2 Hfds]; [|done..].
  intros E2. apply select_start_piper_tidy in E2 as [Hs' _]; [done..|].
  by rewrite Hfds.
Qed.

(** One activation of [run_piper] on a piper of the list. *)
Lemma select_run_piper_tidy piper r s :
  tidy s → piper ∈ pipers s →
  match run_piper piper r s with
  | Ok s' =>
      tidy s' ∧ fds s' = fds s ∧
      (∀ q, q ≠ piper →
         (q ∈ pipers s' ↔ q ∈ pipers s) ∧ heap s' !! q = heap s !! q)
  | Stop t => t = Exited 1 "read"
  | Undefined => False
  end.
Proof.
  intros Hs Hin. pose proof Hs as [Hnd Hal Hop].
  destruct (proj1 (Hal piper) Hin) as [p Hp].
  rewrite (select_run_piper _ _ _ _ Hp). cbn zeta.
  match goal with
  | |- context [Ok (remove_piper piper ?s0)] => set (s1 := s0)
  end.
  assert (tidy s1) as Hs1.
  { split; simpl; [done| |].
    - intros q. rewrite Hal, lookup_insert_is_Some.
      destruct (decide (piper = q)) as [->|]; naive_solver.
    - intros q p' [[_ <-]|[_ Hq]]%lookup_insert_Some; [|by eapply Hop].
      simpl. by eapply Hop. }
  assert (∀ q, q ≠ piper → heap s1 !! q = heap s !! q) as Hframe.
  { intros q Hq. simpl. by rewrite lookup_insert_ne. }
  destruct (ending r) as [|[]]; try done.
  - destruct (select_remove_piper_spec piper s1 Hs1 Hin)
      as (Ht & _ & _ & Hfds & Hq).
    split; [done|]. split; [done|]. intros q Hne.
    destruct (Hq q Hne) as [Hq1 Hq2]. split; [done|].
    by rewrite Hq2, Hframe.
  - split; [done|]. split; [done|]. intros q Hne. split; [done|].
    by apply Hframe.
Qed.

(** The loop over the pipers after [select]. *)
Lemma select_run_ready_tidy isset ps s :
  tidy s → NoDup ps → (∀ q, q ∈ ps → q ∈ pipers s) →
  match run_ready isset ps s with
  | Ok s' =>
      tidy s' ∧ fds s' = fds s ∧
      (∀ q, q ∉ ps →
         (q ∈ pipers s' ↔ q ∈ pipers s) ∧ heap s' !! q = heap s !! q)
  | Stop t => t = Exited 1 "read"
  | Undefined => False
  end.
Proof.
  revert s. induction ps as [|piper ps IH]; intros s Hs Hnd Hsub; simpl.
  { split; [done|]. split; [done|]. done. }
  apply NoDup_cons in Hnd as [Hpiper Hnd].
  assert (piper ∈ pipers s) as Hin by (apply Hsub; left).
  destruct (proj1 (pipers_allocated s Hs piper) Hin) as [p Hp]. rewrite Hp.
  set (first := match isset (in_fd p) with
                | Some r => run_piper piper r s
                | None => Ok s
                end).
  assert (match first with
          | Ok s1 =>
              tidy s1 ∧ fds s1 = fds s ∧
              (∀ q, q ≠ piper →
                 (q ∈ pipers s1 ↔ q ∈ pipers s) ∧ heap s1 !! q = heap s !! q)
          | Stop t => t = Exited 1 "read"
          | Undefined => False
          end) as Hfirst.
  { subst first. destruct (isset (in_fd p)) as [r|]; [|done].
    by apply select_run_piper_tidy. }
  destruct first as [s1|t|]; simpl; [|done..].
  destruct Hfirst as (Hs1 & Hfds & Hframe).
  assert (∀ q, q ∈ ps → q ∈ pipers s1) as Hsub1.
  { intros q Hq. apply Hframe; [by intros ->|]. apply Hsub. by right. }
  specialize (IH s1 Hs1 Hnd Hsub1).
  destruct (run_ready isset ps s1) as [s'|t|]; [|done..].
  destruct IH as (Hs' & Hfds' & Hframe').
  split; [done|]. split; [congruence|]. intros q Hq.
  apply not_elem_of_cons in Hq as [Hne Hq].
  destruct (Hframe' q Hq) as [H1 H2]. destruct (Hframe q Hne) as [H3 H4].
  split; [by rewrite H1|by rewrite H2].
Qed.

(** [FD_SET] is done for the descriptor of every piper of the list, when
    each has its place in the set. *)
Lemma select_fd_sets_spec h ps piper_fds nfds :
  (∀ q, q ∈ ps → ∃ p, h !! q = Some p ∧ 0 ≤ in_fd p < FD_SETSIZE) →
  ∃ piper_fds' nfds',
    fd_sets h ps piper_fds nfds = Ok (piper_fds', nfds') ∧
    piper_fds ⊆ piper_fds' ∧ nfds ≤ nfds' ∧
    ∀ q p, q ∈ ps → h !! q = Some p →
      in_fd p ∈ piper_fds' ∧ in_fd p < nfds'.
Proof.
  revert piper_fds nfds.
  induction ps as [|piper ps IH]; intros piper_fds nfds Hlive; simpl.
  { exists piper_fds, nfds. split; [done|]. split; [done|]. split; [lia|].
    intros q p Hq. by apply elem_of_nil in Hq. }
  destruct (Hlive piper) as (p & Hp & Hrange); [by left|]. rewrite Hp.
  replace ((0 <=? in_fd p) && (in_fd p <? FD_SETSIZE)) with true
    by (symmetry; apply andb_true_iff; split;
        [apply Z.leb_le|apply Z.ltb_lt]; lia).
  destruct (IH ({[in_fd p]} ∪ piper_fds) (Z.max nfds (in_fd p + 1)))
    as (fs & n & -> & Hsub & Hle & Hall).
  { intros q Hq. apply Hlive. by right. }
  exists fs, n. split; [done|]. split; [set_solver|]. split; [lia|].
  intros q p' [->|Hq]%elem_of_cons Hq'; [|by eapply Hall].
  rewrite Hp in Hq'. injection Hq' as <-.
  split; [|lia]. apply Hsub, elem_of_union_l, elem_of_singleton_2. done.
Qed.

(** When the loop with [FD_SET] goes through, every piper of the list is
    live and has its descriptor in the set, below [nfds]. *)
Lemma select_fd_sets_ok h ps piper_fds nfds piper_fds' nfds' :
  fd_sets h ps piper_fds nfds = Ok (piper_fds', nfds') →
  piper_fds ⊆ piper_fds' ∧ nfds ≤ nfds' ∧
  ∀ q, q ∈ ps →
    ∃ p, h !! q = Some p ∧ 0 ≤ in_fd p < FD_SETSIZE ∧
         in_fd p ∈ piper_fds' ∧ in_fd p < nfds'.
Proof.
  revert piper_fds nfds.
  induction ps as [|piper ps IH]; intros piper_fds nfds; simpl.
  { intros [= <- <-]. split; [done|]. split; [lia|].
    intros q Hq. by apply elem_of_nil in Hq. }
  destruct (h !! piper) as [p|] eqn:Hp; [|done].
  destruct (_ && _) eqn:Hrange; [|done].
  apply andb_true_iff in Hrange as [H0%Z.leb_le Hmax%Z.ltb_lt].
  intros (Hsub & Hle & Hall)%IH.
  split; [set_solver|]. split; [lia|].
  intros q [->|Hq]%elem_of_cons; [|by apply Hall].
  exists p. split; [done|]. split; [done|]. split; [set_solver|lia].
Qed.

Lemma select_poll_tidy r s :
  tidy s → (∃ sets, fd_sets (heap s) (pipers s) ∅ 0 = Ok sets) →
  match poll r s with
  | Ok s' => tidy s' ∧ fds s' = fds s
  | Stop t => ∃ msg, t = Exited 1 msg
  | Undefined => False
  end.
Proof.
  intros Hs [[piper_fds nfds] Hsets]. unfold poll. rewrite Hsets.
  simpl. destruct r as [ready|[]]; try done; try by eexists.
  pose proof (select_run_ready_tidy (fd_isset piper_fds nfds ready)
                (pipers s) s Hs (pipers_once s Hs) (λ q H, H)) as Hrun.
  destruct (run_ready _ _ s); [tauto| |done]. by eexists.
Qed.

Lemma select_at_loop_safe o s : tidy s → safe (at_loop o s).
Proof.
  intros Hs. unfold at_loop, at_fill.
  destruct (loop_test o s), (fill_test o s); try done.
  by destruct (fd_sets _ _ _ _).
Qed.

Lemma select_at_reap_safe o s : tidy s → safe (at_reap o s).
Proof.
  intros Hs. unfold at_reap. destruct (negb _); [done|].
  by apply select_at_loop_safe.
Qed.

Lemma select_start_job_defined dir c s : start_job dir c s ≠ Undefined.
Proof.
  unfold start_job.
  destruct (pipe_stdout_ok c), (pipe_stderr_ok c), (fork_ok c);
    simpl; try done.
  destruct (start_piper _ stdout _ _ _) eqn:E1; simpl; try done.
  - apply select_start_piper_defined.
  - by apply select_start_piper_defined in E1.
Qed.

Lemma select_step_safe o at_call s a out :
  tidy s →
  (at_call = Starting → is_Some (directories o !! Z.to_nat (directory s))) →
  (at_call = Polling →
   ∃ sets, fd_sets (heap s) (pipers s) ∅ 0 = Ok sets) →
  step o at_call s a = Some out → safe out.
Proof.
  intros Hs Hdir Hsets.
  destruct at_call, a as [c|r|w]; simpl; try done; intros [= <-].
  - destruct Hdir as [dir ->]; [done|].
    pose proof (select_start_job_tidy dir c s) as Hjob.
    destruct (start_job dir c s) as [s'|t|]; simpl; [|done..].
    unfold at_fill.
    destruct (fill_test _ _); simpl; [by destruct (Hjob s')|].
    destruct (fd_sets (heap s') _ _ _); simpl; [|done..].
    by destruct (Hjob s').
  - pose proof (select_poll_tidy r s Hs (Hsets eq_refl)) as Hpoll.
    destruct (poll r s) as [s'|t|]; simpl; [|done..].
    apply select_at_reap_safe, Hpoll.
  - destruct w as [| |st]; [done|by apply select_at_loop_safe|].
    apply select_at_reap_safe. by destruct Hs.
Qed.

Lemma select_exec_invariant (P : outcome → Prop) o :
  (∀ at_call s a out,
     P (Blocked at_call s) → step o at_call s a = Some out → P out) →
  ∀ answers out out', P out → exec o out answers = Some out' → P out'.
Proof.
  intros Hstep. induction answers as [|a answers IH]; intros out out' HP; simpl.
  - by intros [= <-].
  - destruct out as [at_call s|st s|t|]; try done.
    destruct (step o at_call s a) as [out1|] eqn:E; simpl; [|done].
    apply IH. by eapply Hstep.
Qed.

Lemma select_step_sound o at_call s a out :
  well_formed o → sound o (Blocked at_call s) →
  step o at_call s a = Some out → sound o out.
Proof.
  intros Ho [[Hc Hb] Ht] Hstep. split.
  - by eapply select_step_reachable.
  - eapply select_step_safe; [done| | |done].
    + intros ->. apply lookup_lt_is_Some. simpl in Hb.
      unfold fill_test in Hb. apply andb_true_iff in Hb as [_ Hq].
      apply Z.ltb_lt in Hq. destruct Ho, Hc. lia.
    + intros ->. apply Hb.
Qed.

Lemma select_sound_initial o : well_formed o → sound o (at_loop o initial).
Proof.
  intros Ho. split.
  - by apply select_at_loop_reachable, select_counted_initial.
  - apply select_at_loop_safe, select_tidy_initial.
Qed.

(** The select program keeps its books and its list in order all along a
    run. *)
Lemma select_run_sound o answers out :
  well_formed o → run o answers = Some out → sound o out.
Proof.
  intros Ho. apply select_exec_invariant.
  - intros at_call s a out1. by apply select_step_sound.
  - by apply select_sound_initial.
Qed.

End SelectMemory.

(** ** The kqueue program: the events in the queue *)

Module KqueueMemory.
Import Kqueue KqueueRun KqueueFacts.

Lemma kqueue_tidy_initial : tidy initial.
Proof.
  split; simpl.
  - intros fd piper. by rewrite lookup_empty.
  - intros fd. rewrite lookup_empty. by intros [].
Qed.

Lemma kqueue_start_piper_tidy fd f pre c s s' :
  tidy s → fd ∈ fds s → start_piper fd f pre c s = Ok s' →
  tidy s' ∧ fds s' = fds s.
Proof.
  intros [Hal Hop] Hfd ->%kqueue_start_piper. simpl.
  assert (heap s !! fresh (dom (heap s)) = None) as Hfresh.
  { apply not_elem_of_dom, is_fresh. }
  split; [split; simpl|done].
  - intros fd' piper [[<- <-]|[Hne Hfd']]%lookup_insert_Some.
    + eexists. by rewrite lookup_insert_eq.
    + destruct (Hal _ _ Hfd') as (p & Hp & Hin). exists p. split; [|done].
      rewrite lookup_insert_ne; [done|]. intros <-. congruence.
  - intros fd' [Hfd'|[_ Hfd']]%lookup_insert_is_Some; [by subst|].
    by apply Hop.
Qed.

Lemma kqueue_start_job_tidy dir c s s' :
  tidy s → start_job dir c s = Ok s' → tidy s'.
Proof.
  intros [Hal Hop]. unfold start_job.
  destruct (pipe_stdout_ok c); simpl; [|done].
  destruct (pipe_stderr_ok c); simpl; [|done].
  destruct (fork_pid c) as [pid|]; simpl; [|done].
  unfold register_job. destruct (register_job_ok c); simpl; [|done].
  pose proof (lowest_unused_spec (fds s)) as Hr1.
  set (r1 := lowest_unused (fds s)) in *. clearbody r1.
  pose proof (lowest_unused_spec ({[r1]} ∪ fds s)) as Hw1.
  set (w1 := lowest_unused ({[r1]} ∪ fds s)) in *. clearbody w1.
  pose proof (lowest_unused_spec ({[r1; w1]} ∪ fds s)) as Hr2.
  set (r2 := lowest_unused ({[r1; w1]} ∪ fds s)) in *. clearbody r2.
  pose proof (lowest_unused_spec ({[r2]} ∪ ({[r1; w1]} ∪ fds s))) as Hw2.
  set (w2 := lowest_unused ({[r2]} ∪ ({[r1; w1]} ∪ fds s))) in *. clearbody w2.
  match goal with
  | |- context [start_piper r1 stdout dir _ ?s0] => set (s1 := s0)
  end.
  assert (tidy s1) as Hs1.
  { split; [done|]. intros fd Hfd. apply Hop in Hfd. simpl. set_solver. }
  assert (r1 ∈ fds s1 ∧ r2 ∈ fds s1) as [Hin1 Hin2].
  { simpl. set_solver. }
  destruct (start_piper r1 stdout dir _ s1) as [s2| |] eqn:E1; simpl;
    [|done..].
  apply kqueue_start_piper_tidy in E1 as [Hs2 Hfds]; [|done..].
  intros E2. apply kqueue_start_piper_tidy in E2 as [Hs' _]; [done..|].
  by rewrite Hfds.
Qed.

Lemma kqueue_start_job_defined dir c s : start_job dir c s ≠ Undefined.
Proof.
  unfold start_job.
  destruct (pipe_stdout_ok c), (pipe_stderr_ok c), (fork_pid c);
    simpl; try done.
  unfold register_job. destruct (register_job_ok c); simpl; [|done].
  assert (∀ fd f pre c s, start_piper fd f pre c s ≠ Undefined) as Hdef.
  { intros fd f pre c' s'. unfold start_piper, register_piper.
    destruct (malloc_ok c'); simpl; [|done]. rewrite lookup_insert_eq.
    by destruct (register_ok c'). }
  destruct (start_piper _ stdout _ _ _) eqn:E1; simpl; try done.
  by apply Hdef in E1.
Qed.

(** [case EVFILT_READ] for an event of the queue: without EV_EOF the
    piper stays as it is but for its flag; with EV_EOF the event is taken
    out of the queue, the descriptor is closed and the piper is freed. *)
Lemma kqueue_readable_spec fd piper data ev_eof c s :
  tidy s → readers s !! fd = Some piper →
  match readable piper data ev_eof c s with
  | Ok s' =>
      tidy s' ∧
      if ev_eof
      then readers s' = delete fd (readers s) ∧
           fds s' = fds s ∖ {[fd]} ∧ heap s' !! piper = None
      else readers s' = readers s ∧ fds s' = fds s ∧
           is_Some (heap s' !! piper)
  | Stop t => ∃ msg, t = Exited 1 msg
  | Undefined => False
  end.
Proof.
  intros Hs Hfd. pose proof Hs as [Hal Hop].
  destruct (Hal _ _ Hfd) as (p & Hp & Hin).
  unfold readable.
  pose proof (kqueue_run_piper piper p data c s Hp) as Hrun.
  destruct (data_malloc_ok c) eqn:Hm.
  2:{ unfold run_piper. rewrite Hm. simpl. by eexists. }
  rewrite Hrun by done. clear Hrun.
  destruct (read_returns c) as [e|bytes]; simpl; [by eexists|].
  match goal with |- context [Kqueue.emit ?calls ?s0] =>
    set (s1 := Kqueue.emit calls s0) end.
  assert (tidy s1) as Hs1.
  { split; simpl; [|done]. intros fd' piper' Hfd'.
    destruct (Hal _ _ Hfd') as (p' & Hp' & Hin').
    destruct (decide (piper = piper')) as [<-|Hne].
    - eexists. rewrite lookup_insert_eq. split; [done|]. simpl. congruence.
    - exists p'. by rewrite lookup_insert_ne. }
  destruct ev_eof.
  - unfold retire, deregister_piper. simpl. rewrite lookup_insert_eq.
    destruct (deregister_ok c); simpl; [|by eexists].
    rewrite lookup_insert_eq. simpl. rewrite Hin.
    split; [|by rewrite lookup_delete_eq]. split; simpl.
    + intros fd' piper' [Hne Hfd']%lookup_delete_Some.
      destruct (Hal _ _ Hfd') as (p' & Hp' & Hin').
      exists p'. split; [|done].
      rewrite lookup_delete_ne, lookup_insert_ne; [done|..];
        intros <-; congruence.
    + intros fd' [piper' [Hne Hfd']%lookup_delete_Some].
      apply elem_of_difference. split; [by apply Hop|].
      by intros ->%elem_of_singleton.
  - split; [done|]. simpl. by rewrite lookup_insert_eq.
Qed.

Lemma kqueue_at_loop_safe o s : tidy s → safe (at_loop o s).
Proof.
  intros Hs. unfold at_loop, at_fill.
  by destruct (loop_test o s), (fill_test o s).
Qed.

Lemma kqueue_step_safe o at_call s a out :
  tidy s →
  (at_call = Starting → is_Some (directories o !! Z.to_nat (directory s))) →
  step o at_call s a = Some out → safe out.
Proof.
  intros Hs Hdir.
  destruct at_call, a as [c|[|ident data|ident data eof c]]; simpl;
    try done.
  - destruct (pid_in_use c s); [done|].
    intros [= <-]. destruct Hdir as [dir ->]; [done|].
    pose proof (kqueue_start_job_tidy dir c s) as Hjob.
    pose proof (kqueue_start_job_defined dir c s) as Hdef.
    destruct (start_job dir c s) as [s'|t|]; simpl; [|done..].
    unfold at_fill. destruct (fill_test _ _); simpl; by destruct (Hjob s').
  - by intros [= <-].
  - case_bool_decide; [|done]. intros [= <-].
    apply kqueue_at_loop_safe. by destruct Hs.
  - destruct (readers s !! ident) as [piper|] eqn:Hfd; simpl; [|done].
    destruct (would_block c); [done|]. intros [= <-].
    pose proof (kqueue_readable_spec ident piper data eof c s Hs Hfd) as Hr.
    destruct (readable piper data eof c s) as [s'|t|]; simpl; [|done..].
    apply kqueue_at_loop_safe, Hr.
Qed.

Lemma kqueue_exec_invariant (P : outcome → Prop) o :
  (∀ at_call s a out,
     P (Blocked at_call s) → step o at_call s a = Some out → P out) →
  ∀ answers out out', P out → exec o out answers = Some out' → P out'.
Proof.
  intros Hstep. induction answers as [|a answers IH]; intros out out' HP; simpl.
  - by intros [= <-].
  - destruct out as [at_call s|st s|t|]; try done.
    destruct (step o at_call s a) as [out1|] eqn:E; simpl; [|done].
    apply IH. by eapply Hstep.
Qed.

Lemma kqueue_step_sound o at_call s a out :
  well_formed o → sound o (Blocked at_call s) →
  step o at_call s a = Some out → sound o out.
Proof.
  intros Ho [[Hc Hb] Ht] Hstep. split.
  - by eapply kqueue_step_reachable.
  - eapply kqueue_step_safe; [done| |done]. intros ->.
    apply lookup_lt_is_Some. simpl in Hb.
    unfold fill_test in Hb. apply andb_true_iff in Hb as [_ Hq].
    apply Z.ltb_lt in Hq. destruct Ho, Hc. lia.
Qed.

Lemma kqueue_sound_initial o : well_formed o → sound o (at_loop o initial).
Proof.
  intros Ho. split.
  - by apply kqueue_at_loop_reachable, kqueue_counted_initial.
  - apply kqueue_at_loop_safe, kqueue_tidy_initial.
Qed.

(** The kqueue program keeps its books and its queue in order, and never
    uses a freed piper or reads past the directories. *)
Lemma kqueue_run_sound o answers out :
  well_formed o → run o answers = Some out → sound o out.
Proof.
  intros Ho. apply kqueue_exec_invariant.
  - intros at_call s a out1. by apply kqueue_step_sound.
  - by apply kqueue_sound_initial.
Qed.

End KqueueMemory.

(** ** Reads that fail *)

Module ReadFacts.
Import SelectRun SelectFacts SelectMemory.

Lemma select_exec_app o out answers1 answers2 :
  Select.exec o out (answers1 ++ answers2) =
    out' ← Select.exec o out answers1; Select.exec o out' answers2.
Proof.
  revert out. induction answers1 as [|a answers1 IH]; intros out; [done|].
  simpl. destruct out as [at_call s| | |]; try done.
  destruct (Select.step o at_call s a); [apply IH|done].
Qed.

Lemma kqueue_exec_app o out answers1 answers2 :
  Kqueue.exec o out (answers1 ++ answers2) =
    out' ← Kqueue.exec o out answers1; Kqueue.exec o out' answers2.
Proof.
  revert out. induction answers1 as [|a answers1 IH]; intros out; [done|].
  simpl. destruct out as [at_call s| | |]; try done.
  destruct (Kqueue.step o at_call s a); [apply IH|done].
Qed.

(** A read that would block, with nothing read before, changes nothing. *)
Lemma select_run_piper_would_block piper p s :
  Select.heap s !! piper = Some p →
  Select.run_piper piper would_block_script s = Ok s.
Proof.
  intros Hp. rewrite (select_run_piper _ _ _ _ Hp). simpl. f_equal.
  destruct s as [d n st ps h f out sd rp]. unfold Select.emit, Select.set_list.
  simpl in *. f_equal.
  - destruct p. by apply insert_id.
  - apply app_nil_r.
Qed.

Lemma select_run_ready_would_block isset ps s :
  (∀ q, q ∈ ps → is_Some (Select.heap s !! q)) →
  (∀ fd r, isset fd = Some r → r = would_block_script) →
  Select.run_ready isset ps s = Ok s.
Proof.
  intros Hlive Hready. induction ps as [|piper ps IH]; [done|]. simpl.
  destruct (Hlive piper) as [p Hp]; [by left|]. rewrite Hp.
  destruct (isset (in_fd p)) as [r|] eqn:Hr; simpl.
  - rewrite (Hready _ _ Hr), (select_run_piper_would_block _ _ _ Hp). simpl.
    apply IH. intros q Hq. apply Hlive. by right.
  - apply IH. intros q Hq. apply Hlive. by right.
Qed.

(** A read that fails otherwise ends the loop over the pipers with
    [err(1, "read")]. *)
Lemma select_run_ready_fatal isset ps s piper p r e :
  tidy s → NoDup ps → (∀ q, q ∈ ps → q ∈ Select.pipers s) →
  piper ∈ ps → Select.heap s !! piper = Some p →
  isset (in_fd p) = Some r → ending r = read_fail e → e ≠ EAGAIN →
  Select.run_ready isset ps s = Stop (Exited 1 "read").
Proof.
  intros Hs Hnd Hsub Hin Hp Hr He Hne. revert s Hs Hsub Hp.
  induction ps as [|q ps IH]; intros s Hs Hsub Hp; [by apply elem_of_nil in Hin|].
  apply NoDup_cons in Hnd as [Hq Hnd]. simpl.
  destruct (decide (q = piper)) as [->|Hqp].
  - rewrite Hp, Hr. rewrite (select_run_piper _ _ _ _ Hp), He.
    by destruct e.
  - apply elem_of_cons in Hin as [->|Hin]; [done|].
    assert (q ∈ Select.pipers s) as Hqs by (apply Hsub; left).
    destruct (proj1 (pipers_allocated s Hs q) Hqs) as [pq Hpq]. rewrite Hpq.
    destruct (isset (in_fd pq)) as [rq|]; simpl.
    + pose proof (select_run_piper_tidy q rq s Hs Hqs) as Hrun.
      destruct (Select.run_piper q rq s) as [s1|t|]; simpl; [|by subst|done].
      destruct Hrun as (Hs1 & _ & Hframe).
      apply IH; try done.
      * intros x Hx. apply Hframe; [by intros ->|]. apply Hsub. by right.
      * destruct (Hframe piper) as [_ ->]; done.
    + apply IH; try done. intros x Hx. apply Hsub. by right.
Qed.

End ReadFacts.

(** C6.  In the select program a [read] that fails with EAGAIN is no
    error: the piper stays in the list, to be waited on again, and when
    nothing was read the state of the run is unchanged; a [read] that fails
    with another error ends the whole run through [err(1, "read")].  The
    kqueue program reads blocking descriptors, where EAGAIN does not occur,
    and ends the run on every failure of [read]. *)
Theorem would_block_goes_on_other_failures_abort (o : options)
    (Ho : well_formed o) :
  (∀ answers s ready,
     Select.run o answers = Some (Select.Blocked Select.Polling s) →
     only_would_block ready →
     Select.poll (Select.select_ready ready) s = Ok s ∧
     Select.run o (answers ++ [Select.select_answer (Select.select_ready ready)])
       = Some (Select.at_reap o s)) ∧
  (∀ answers s piper p r,
     Select.run o answers = Some (Select.Blocked Select.Polling s) →
     Select.heap s !! piper = Some p → ending r = read_fail EAGAIN →
     ∃ s', Select.run_piper piper r s = Ok s' ∧
           Select.pipers s' = Select.pipers s ∧
           is_Some (Select.heap s' !! piper)) ∧
  (∀ answers s ready piper p r e,
     Select.run o answers = Some (Select.Blocked Select.Polling s) →
     Select.heap s !! piper = Some p → ready !! in_fd p = Some r →
     ending r = read_fail e → e ≠ EAGAIN →
     Select.run o (answers ++ [Select.select_answer (Select.select_ready ready)])
       = Some (Select.Aborted (Exited 1 "read"))) ∧
  (∀ answers s ident piper data ev_eof c e,
     Kqueue.run o answers = Some (Kqueue.Blocked Kqueue.Polling s) →
     Kqueue.readers s !! ident = Some piper →
     Kqueue.data_malloc_ok c = true →
     Kqueue.read_returns c = Kqueue.read_error e → e ≠ EAGAIN →
     Kqueue.run o
       (answers ++ [Kqueue.kevent_answer (Kqueue.kevent_read ident data ev_eof c)])
       = Some (Kqueue.Aborted (Exited 1 "read"))).
Proof.
  split; [|split; [|split]].
  - intros answers s ready Hrun Hready.
    pose proof (SelectMemory.select_run_sound _ _ _ Ho Hrun)
      as [[_ (_ & _ & [[piper_fds nfds] Hsets])] Hs].
    simpl in Hs.
    assert (Select.poll (Select.select_ready ready) s = Ok s) as Hpoll.
    { unfold Select.poll. rewrite Hsets.
      simpl. apply ReadFacts.select_run_ready_would_block.
      - intros q. apply Hs.
      - intros fd r. unfold Select.fd_isset.
        destruct (_ && _); [apply Hready|done]. }
    split; [done|]. unfold Select.run in *.
    rewrite ReadFacts.select_exec_app, Hrun. simpl. by rewrite Hpoll.
  - intros answers s piper p r Hrun Hp Hr.
    rewrite (select_run_piper _ _ _ _ Hp), Hr.
    eexists. split; [done|]. split; [done|]. simpl.
    by rewrite lookup_insert_eq.
  - intros answers s ready piper p r e Hrun Hp Hready He Hne.
    pose proof (SelectMemory.select_run_sound _ _ _ Ho Hrun)
      as [[_ (_ & _ & [[piper_fds nfds] Hsets])] Hs].
    simpl in Hs. unfold Select.run in *.
    rewrite ReadFacts.select_exec_app, Hrun. simpl. do 2 f_equal.
    unfold Select.poll. rewrite Hsets.
    apply SelectMemory.select_fd_sets_ok in Hsets as (_ & _ & Hall).
    assert (piper ∈ Select.pipers s) as Hin by (apply Hs; by eexists).
    destruct (Hall _ Hin) as (p' & Hp' & _ & Hfd & Hlt).
    assert (p' = p) as -> by congruence. simpl.
    erewrite ReadFacts.select_run_ready_fatal; try done.
    + apply Hs.
    + unfold Select.fd_isset. rewrite bool_decide_eq_true_2 by done.
      by replace (in_fd p <? nfds) with true by lia.
  - intros answers s ident piper data ev_eof c e Hrun Hfd Hm Hr Hne.
    pose proof (KqueueMemory.kqueue_run_sound _ _ _ Ho Hrun) as [_ Hs].
    simpl in Hs. unfold Kqueue.run in *.
    rewrite ReadFacts.kqueue_exec_app, Hrun. simpl. rewrite Hfd. simpl.
    unfold Kqueue.would_block. rewrite Hr.
    destruct (KqueueRun.readers_allocated s Hs _ _ Hfd) as (p & Hp & _).
    unfold Kqueue.readable, Kqueue.run_piper. rewrite Hm, Hp, Hr.
    by destruct e.
Qed.

(** ** The value of [-j] *)

Lemma leading_digits_app s c t :
  Libc.digit c = None →
  Libc.leading_digits (s +:+ String c t) = Libc.leading_digits s.
Proof.
  intros Hc. induction s as [|x s IH]; simpl.
  - by rewrite Hc.
  - destruct (Libc.digit x); [by rewrite IH|done].
Qed.

Lemma skip_space_app s t :
  Libc.skip_space s ≠ "" →
  Libc.skip_space (s +:+ t) = Libc.skip_space s +:+ t.
Proof.
  induction s as [|x s IH]; simpl; [done|].
  destruct (Libc.isspace x); [apply IH|done].
Qed.

(** What follows the digits is not looked at. *)
Lemma numeric_prefix_app a v c t :
  Libc.numeric_prefix a = Some v → Libc.digit c = None →
  Libc.numeric_prefix (a +:+ String c t) = Some v.
Proof.
  unfold Libc.numeric_prefix. intros Ha Hc.
  assert (Libc.skip_space a ≠ "") as Hne.
  { intros E. by rewrite E in Ha. }
  rewrite skip_space_app by done.
  destruct (Libc.skip_space a) as [|x r]; [done|].
  assert (∀ r', Libc.leading_digits r' ≠ [] →
            Libc.leading_digits (r' +:+ String c t) = Libc.leading_digits r')
    as Hdigits by (intros; by apply leading_digits_app).
  change (String x r +:+ String c t) with (String x (r +:+ String c t)).
  destruct (Ascii.eqb_spec x "-") as [->|Hminus];
    [|destruct (Ascii.eqb_spec x "+") as [->|Hplus]].
  - simpl in *. rewrite leading_digits_app by done. done.
  - simpl in *. rewrite leading_digits_app by done. done.
  - assert (∀ (A : Type) (k1 k2 k3 : A),
              match x with
              | "-"%char => k1 | "+"%char => k2 | _ => k3
              end = k3) as Hx.
    { intros A k1 k2 k3.
      destruct x as [[] [] [] [] [] [] [] []]; try done. }
    rewrite Hx in Ha. rewrite Hx.
    change (String x (r +:+ String c t)) with (String x r +:+ String c t).
    by rewrite leading_digits_app.
Qed.

Lemma strtol_in_int long_bits a v :
  32 ≤ long_bits → Libc.numeric_prefix a = Some v →
  - 2 ^ 31 ≤ v ≤ Libc.INT_MAX →
  Libc.to_int (Libc.strtol long_bits a) = v.
Proof.
  intros Hlong Ha Hv. unfold Libc.strtol, Libc.to_int. rewrite Ha.
  unfold Libc.LONG_MAX, Libc.LONG_MIN, Libc.INT_MAX in *.
  assert (2 ^ 31 ≤ 2 ^ (long_bits - 1)) by (apply Z.pow_le_mono_r; lia).
  rewrite Z.min_r, Z.max_r by lia.
  rewrite Z.mod_small; lia.
Qed.

Lemma parse_flags_jobs long_bits max_jobs a opts :
  parse_flags long_bits max_jobs (jobs_option a :: opts) =
    let m := Libc.to_int (Libc.strtol long_bits a) in
    if m <? 1 then Stop (Exited 1 ("invalid -j: " +:+ a))
    else parse_flags long_bits m opts.
Proof. done. Qed.

(** ** The claims on the command line *)

Lemma select_main_stops long_bits opts argv msg :
  parse_options long_bits Select.usage_text Select.is_separator opts argv
    = Stop (Exited 1 msg) →
  Select.main long_bits opts argv [] = Some (Select.Aborted (Exited 1 msg)) ∧
  ∀ a answers, Select.main long_bits opts argv (a :: answers) = None.
Proof. unfold Select.main. by intros ->. Qed.

Lemma kqueue_main_stops long_bits opts argv msg kqueue_ok :
  parse_options long_bits Kqueue.usage_text Kqueue.is_separator opts argv
    = Stop (Exited 1 msg) →
  Kqueue.main long_bits opts argv kqueue_ok []
    = Some (Kqueue.Aborted (Exited 1 msg)) ∧
  ∀ a answers, Kqueue.main long_bits opts argv kqueue_ok (a :: answers) = None.
Proof. unfold Kqueue.main. by intros ->. Qed.

(** A limit below 1 that an [int] holds is one the code turns down. *)
Lemma int_limit_below_1_invalid long_bits opts :
  32 ≤ long_bits → int_limit_below_1 opts → invalid_jobs long_bits opts.
Proof.
  intros Hlong (o & Hin & Hj & Hrange). exists o.
  split; [done|]. split; [done|].
  unfold limit_written in Hrange.
  destruct (Libc.numeric_prefix (optarg o)) as [v|] eqn:Hv; simpl in Hrange.
  - rewrite (strtol_in_int long_bits _ v); [lia|done..|].
    unfold Libc.INT_MAX. lia.
  - unfold Libc.strtol. rewrite Hv. by vm_compute.
Qed.

(** C7, as stated, fails twice.  A limit below 1 is no usage error when
    the conversion to [int] makes it 1 or more: where [long] has 64 bits,
    [-j -4294967295] is -(2^32 - 1), which [(int)] turns into 1, and
    [within -j -4294967295 d1 true] runs [true] in [d1] with one job at a
    time.  And a separator in the last place is no usage error when another
    separator comes before it: [within a - b -] and [within a -- b --] run
    [b -] and [b --] in [a]. *)
Lemma low_limit_and_last_separator_are_accepted :
  (limit_below_1 [jobs_option "-4294967295"] ∧
   parse_options 64 Select.usage_text Select.is_separator
     [jobs_option "-4294967295"] ["d1"; "true"]
   = Ok {| max_jobs := 1; num_directories := 1;
           directories := ["d1"; "true"]; command := ["true"] |} ∧
   parse_options 64 Kqueue.usage_text Kqueue.is_separator
     [jobs_option "-4294967295"] ["d1"; "true"]
   = Ok {| max_jobs := 1; num_directories := 1;
           directories := ["d1"; "true"]; command := ["true"] |}) ∧
  (separator_last Select.is_separator ["a"; "-"; "b"; "-"] ∧
   parse_options 64 Select.usage_text Select.is_separator []
     ["a"; "-"; "b"; "-"]
   = Ok {| max_jobs := 1; num_directories := 1;
           directories := ["a"; "-"; "b"; "-"]; command := ["b"; "-"] |} ∧
   separator_last Kqueue.is_separator ["a"; "--"; "b"; "--"] ∧
   parse_options 64 Kqueue.usage_text Kqueue.is_separator []
     ["a"; "--"; "b"; "--"]
   = Ok {| max_jobs := 1; num_directories := 1;
           directories := ["a"; "--"; "b"; "--"];
           command := ["b"; "--"] |}) ∧
  ¬ (∀ opts argv,
       limit_below_1 opts ∨ (length argv < 2)%nat
       ∨ separator_first Select.is_separator argv
       ∨ separator_last Select.is_separator argv →
       exits_1 (parse_options 64 Select.usage_text Select.is_separator
                  opts argv)) ∧
  ¬ (∀ opts argv,
       limit_below_1 opts ∨ (length argv < 2)%nat
       ∨ separator_first Kqueue.is_separator argv
       ∨ separator_last Kqueue.is_separator argv →
       exits_1 (parse_options 64 Kqueue.usage_text Kqueue.is_separator
                  opts argv)).
Proof.
  assert (limit_below_1 [jobs_option "-4294967295"]) as Hlow.
  { exists (jobs_option "-4294967295"). split; [by left|]. split; [done|].
    change (limit_written (optarg (jobs_option "-4294967295")))
      with (-4294967295). lia. }
  split; [|split; [|split]].
  - split; [done|]. split; vm_compute; reflexivity.
  - split; [by exists ["a"; "-"; "b"], "-"|].
    split; [vm_compute; reflexivity|].
    split; [by exists ["a"; "--"; "b"], "--"|].
    vm_compute; reflexivity.
  - intros H.
    destruct (H [jobs_option "-4294967295"] ["d1"; "true"]) as [msg Hmsg];
      [by left|].
    by vm_compute in Hmsg.
  - intros H.
    destruct (H [jobs_option "-4294967295"] ["d1"; "true"]) as [msg Hmsg];
      [by left|].
    by vm_compute in Hmsg.
Qed.

(** C7, amended.  A [-j] value that the code's conversion,
    [(int)strtol(optarg, NULL, 10)], makes less than 1, as it does every
    value that spells a number from INT_MIN to 0 and every value that
    spells none; fewer than two arguments after the options; a separator
    as the first of them; or a separator as the last of them with no
    separator before it: each ends the process with exit code 1 before it
    makes any system call, so that no job is started.  This holds for both
    programs, each with its own separators. *)
Theorem usage_errors_exit_before_any_job (long_bits : Z)
    (opts : list getopt_ret) (argv : list string) :
  (invalid_jobs long_bits opts ∨ (length argv < 2)%nat
   ∨ separator_first Select.is_separator argv
   ∨ first_separator_last Select.is_separator argv →
   ∃ msg,
     Select.main long_bits opts argv []
       = Some (Select.Aborted (Exited 1 msg)) ∧
     ∀ a answers, Select.main long_bits opts argv (a :: answers) = None) ∧
  (invalid_jobs long_bits opts ∨ (length argv < 2)%nat
   ∨ separator_first Kqueue.is_separator argv
   ∨ first_separator_last Kqueue.is_separator argv →
   ∀ kqueue_ok, ∃ msg,
     Kqueue.main long_bits opts argv kqueue_ok []
       = Some (Kqueue.Aborted (Exited 1 msg)) ∧
     ∀ a answers,
       Kqueue.main long_bits opts argv kqueue_ok (a :: answers) = None) ∧
  (32 ≤ long_bits → int_limit_below_1 opts →
   invalid_jobs long_bits opts ∧
   (∃ msg,
      Select.main long_bits opts argv []
        = Some (Select.Aborted (Exited 1 msg)) ∧
      ∀ a answers, Select.main long_bits opts argv (a :: answers) = None) ∧
   ∀ kqueue_ok, ∃ msg,
     Kqueue.main long_bits opts argv kqueue_ok []
       = Some (Kqueue.Aborted (Exited 1 msg)) ∧
     ∀ a answers,
       Kqueue.main long_bits opts argv kqueue_ok (a :: answers) = None).
Proof.
  assert (invalid_jobs long_bits opts ∨ (length argv < 2)%nat
          ∨ separator_first Select.is_separator argv
          ∨ first_separator_last Select.is_separator argv →
          ∃ msg,
            Select.main long_bits opts argv []
              = Some (Select.Aborted (Exited 1 msg)) ∧
            ∀ a answers,
              Select.main long_bits opts argv (a :: answers) = None)
    as Hselect.
  { intros [msg Hmsg]%(parse_usage_errors _ Select.usage_text).
    exists msg. by apply select_main_stops. }
  assert (invalid_jobs long_bits opts ∨ (length argv < 2)%nat
          ∨ separator_first Kqueue.is_separator argv
          ∨ first_separator_last Kqueue.is_separator argv →
          ∀ kqueue_ok, ∃ msg,
            Kqueue.main long_bits opts argv kqueue_ok []
              = Some (Kqueue.Aborted (Exited 1 msg)) ∧
            ∀ a answers,
              Kqueue.main long_bits opts argv kqueue_ok (a :: answers)
              = None) as Hkqueue.
  { intros [msg Hmsg]%(parse_usage_errors _ Kqueue.usage_text) kqueue_ok.
    exists msg. by apply kqueue_main_stops. }
  split; [done|]. split; [done|].
  intros Hlong Hlow%(int_limit_below_1_invalid long_bits); [|done].
  split; [done|]. split; [apply Hselect|apply Hkqueue]; by left.
Qed.

(** [within -j 0 a b], [within -j -5 a b], [within -j x a b],
    [within a], [within - a b], [within a b --]. *)
Lemma usage_errors_exit_before_any_job_witness :
  (invalid_jobs 64 [jobs_option "0"] ∧
   ∃ msg, Select.main 64 [jobs_option "0"] ["a"; "b"] []
            = Some (Select.Aborted (Exited 1 msg))) ∧
  (32 ≤ 64 ∧ int_limit_below_1 [jobs_option "-5"] ∧
   ∃ msg, Select.main 64 [jobs_option "-5"] ["a"; "b"] []
            = Some (Select.Aborted (Exited 1 msg))) ∧
  (32 ≤ 64 ∧ int_limit_below_1 [jobs_option "x"] ∧
   ∃ msg, Kqueue.main 64 [jobs_option "x"] ["a"; "b"] true []
            = Some (Kqueue.Aborted (Exited 1 msg))) ∧
  ((length ["a"] < 2)%nat ∧
   ∃ msg, Select.main 64 [] ["a"] [] = Some (Select.Aborted (Exited 1 msg))) ∧
  (separator_first Select.is_separator ["-"; "a"; "b"] ∧
   ∃ msg, Select.main 64 [] ["-"; "a"; "b"] []
            = Some (Select.Aborted (Exited 1 msg))) ∧
  (first_separator_last Kqueue.is_separator ["a"; "b"; "--"] ∧
   ∃ msg, Kqueue.main 64 [] ["a"; "b"; "--"] true []
            = Some (Kqueue.Aborted (Exited 1 msg))).
Proof.
  assert (invalid_jobs 64 [jobs_option "0"]) as H1.
  { exists (jobs_option "0"). split; [by left|]. split; [done|].
    vm_compute. done. }
  assert (32 ≤ 64) as Hlong by lia.
  assert (int_limit_below_1 [jobs_option "-5"]) as H5.
  { exists (jobs_option "-5"). split; [by left|]. split; [done|].
    change (limit_written (optarg (jobs_option "-5")))
      with (-5). lia. }
  assert (int_limit_below_1 [jobs_option "x"]) as Hx.
  { exists (jobs_option "x"). split; [by left|]. split; [done|].
    change (limit_written (optarg (jobs_option "x")))
      with 0. lia. }
  assert (separator_first Select.is_separator ["-"; "a"; "b"]) as H3.
  { by exists "-", ["a"; "b"]. }
  assert (first_separator_last Kqueue.is_separator ["a"; "b"; "--"]) as H4.
  { exists ["a"; "b"], "--". split; [done|]. split; [done|].
    by repeat constructor. }
  split; [|split; [|split; [|split; [|split]]]].
  - split; [done|].
    destruct (usage_errors_exit_before_any_job 64 [jobs_option "0"] ["a"; "b"])
      as [Hs _].
    destruct Hs as (msg & Hmain & _); [by left|]. by exists msg.
  - split; [done|]. split; [done|].
    destruct (usage_errors_exit_before_any_job 64 [jobs_option "-5"]
                ["a"; "b"]) as (_ & _ & Hlow).
    destruct (Hlow Hlong H5) as (_ & (msg & Hmain & _) & _). by exists msg.
  - split; [done|]. split; [done|].
    destruct (usage_errors_exit_before_any_job 64 [jobs_option "x"]
                ["a"; "b"]) as (_ & _ & Hlow).
    destruct (Hlow Hlong Hx) as (_ & _ & Hk).
    destruct (Hk true) as (msg & Hmain & _). by exists msg.
  - split; [simpl; lia|].
    destruct (usage_errors_exit_before_any_job 64 [] ["a"]) as [Hs _].
    destruct Hs as (msg & Hmain & _); [right; left; simpl; lia|].
    by exists msg.
  - split; [done|].
    destruct (usage_errors_exit_before_any_job 64 [] ["-"; "a"; "b"])
      as [Hs _].
    destruct Hs as (msg & Hmain & _); [by right; right; left|]. by exists msg.
  - split; [done|].
    destruct (usage_errors_exit_before_any_job 64 [] ["a"; "b"; "--"])
      as (_ & Hk & _).
    destruct (Hk (or_intror (or_intror (or_intror H4))) true)
      as (msg & Hmain & _).
    by exists msg.
Defined.

(** C9.  The arguments are split at the first separator: what comes
    before it are the directories, and everything after it, further
    separators included, is the command, unchanged. *)
Theorem first_separator_splits (long_bits : Z) (usage_text : string)
    (is_separator : string → bool) (opts : list getopt_ret) (m : Z)
    (dirs : list string) (sep : string) (cmd : list string) :
  parse_flags long_bits 1 opts = Ok m →
  no_separator is_separator dirs → is_separator sep = true →
  dirs ≠ [] → cmd ≠ [] →
  let o := {| max_jobs := m; num_directories := Z.of_nat (length dirs);
              directories := dirs ++ sep :: cmd; command := cmd |} in
  parse_options long_bits usage_text is_separator opts (dirs ++ sep :: cmd)
    = Ok o ∧
  job_directories o = dirs ∧ command o = cmd.
Proof.
  intros Hm Hno Hsep Hdirs Hcmd o.
  split; [by apply parse_at_first_separator|]. split; [|done].
  unfold job_directories. simpl. by rewrite Nat2Z.id, take_app_length.
Qed.

(** ** The claims the programs do not meet *)

(** C1.  The kqueue program loses the outcome of its jobs:
    [within d1 false], whose one job exits with status 1, returns from
    [main] at its closing brace, with exit code 0, as does every run of
    this program that returns, see [kqueue_exit_code].  (The select program
    returns [status], see [select_exit_code].) *)
Theorem kqueue_exit_code_ignores_failed_job :
  ∃ s,
    Kqueue.main 64 [] ["d1"; "false"] true
      [kqueue_job_ok 100; kqueue_pipe_ends 4 []; kqueue_pipe_ends 6 [];
       kqueue_job_exits 100 1]
    = Some (Kqueue.Returns 0 s) ∧
    Kqueue.started s = ["d1"] ∧ Kqueue.exited s = [1].
Proof. eexists. split; [vm_compute; reflexivity|]. by split. Qed.

(** C2.  The kqueue program leaves its loop with pipers still live: in
    [within d1 echo hi] the event for the end of the job comes before those
    for the pipes, [num_jobs] falls to 0 with no directory left, and [main]
    returns with both read events in the queue, both descriptors open, and
    the line [hi] never read.  The loop of this program ends whenever no
    directory is left and no job is active, see
    [kqueue_returns_iff_jobs_done].  (The select program tests [pipers] too,
    see [select_returns_iff_all_done].) *)
Theorem kqueue_returns_with_live_pipers :
  ∃ s,
    Kqueue.main 64 [] ["d1"; "echo"; "hi"] true
      [kqueue_job_ok 100; kqueue_job_exits 100 0]
    = Some (Kqueue.Returns 0 s) ∧
    Kqueue.readers s !! 4 = Some 1%positive ∧
    Kqueue.heap s !! 1%positive
      = Some {| in_fd := 4; out_file := stdout; prefix := "d1";
                newline := true |} ∧
    4 ∈ Kqueue.fds s ∧ Kqueue.output s = [].
Proof.
  eexists. split; [vm_compute; reflexivity|].
  split; [done|]. split; [done|]. split; [|done].
  apply (bool_decide_unpack _). by vm_compute.
Qed.

(** The select program, at end of file on a piper of the list: the piper
    is taken out of the list and freed, and its descriptor stays open. *)
Lemma select_end_of_file piper p r s :
  SelectRun.tidy s → Select.heap s !! piper = Some p → ending r = read_eof →
  ∃ s', Select.run_piper piper r s = Ok s' ∧
        (piper ∉ Select.pipers s') ∧ Select.heap s' !! piper = None ∧
        Select.fds s' = Select.fds s ∧ in_fd p ∈ Select.fds s'.
Proof.
  intros Hs Hp Hr.
  assert (piper ∈ Select.pipers s) as Hin by (apply Hs; by eexists).
  pose proof (SelectMemory.select_run_piper_tidy piper r s Hs Hin) as Hrun.
  rewrite (select_run_piper _ _ _ _ Hp), Hr in *. cbn zeta in *.
  destruct Hrun as (_ & Hfds & _).
  eexists. split; [done|].
  match goal with |- context [Select.remove_piper piper ?s0] =>
    set (s1 := s0) in * end.
  assert (SelectRun.tidy s1) as Hs1.
  { destruct Hs as [Hnd Hal Hop]. split; simpl; [done| |].
    - intros q. rewrite Hal, lookup_insert_is_Some.
      destruct (decide (piper = q)) as [->|]; naive_solver.
    - intros q p' [[_ <-]|[_ Hq]]%lookup_insert_Some; [|by eapply Hop].
      simpl. by eapply Hop. }
  destruct (SelectMemory.select_remove_piper_spec piper s1 Hs1 Hin)
    as (_ & Hout & Hfree & _ & _).
  split; [done|]. split; [done|]. split; [done|].
  rewrite Hfds. by eapply SelectRun.pipers_open.
Qed.

Lemma select_start_job_descriptors dir c s s' :
  SelectRun.tidy s → Select.start_job dir c s = Ok s' →
  size (Select.fds s') = (2 + size (Select.fds s))%nat.
Proof.
  intros Hs. unfold Select.start_job.
  destruct (Select.pipe_stdout_ok c); simpl; [|done].
  destruct (Select.pipe_stderr_ok c); simpl; [|done].
  destruct (Select.fork_ok c); simpl; [|done].
  pose proof (lowest_unused_spec (Select.fds s)) as Hr1.
  set (r1 := lowest_unused (Select.fds s)) in *. clearbody r1.
  pose proof (lowest_unused_spec ({[r1]} ∪ Select.fds s)) as Hw1.
  set (w1 := lowest_unused ({[r1]} ∪ Select.fds s)) in *. clearbody w1.
  pose proof (lowest_unused_spec ({[r1; w1]} ∪ Select.fds s)) as Hr2.
  set (r2 := lowest_unused ({[r1; w1]} ∪ Select.fds s)) in *. clearbody r2.
  pose proof (lowest_unused_spec ({[r2]} ∪ ({[r1; w1]} ∪ Select.fds s))) as Hw2.
  set (w2 := lowest_unused ({[r2]} ∪ ({[r1; w1]} ∪ Select.fds s))) in *.
  clearbody w2.
  match goal with
  | |- context [Select.start_piper r1 stdout dir _ ?s0] => set (s1 := s0)
  end.
  assert (Select.fds s1 = {[r1]} ∪ ({[r2]} ∪ Select.fds s)) as Hfds1.
  { simpl. apply set_eq. intros fd. set_solver. }
  assert (SelectRun.tidy s1) as Hs1.
  { destruct Hs as [Hnd Hal Hop]. split; [done..|].
    intros piper p Hp. apply Hop in Hp. rewrite Hfds1. set_solver. }
  destruct (Select.start_piper r1 stdout dir _ s1) as [s2| |] eqn:E1; simpl;
    [|done..].
  apply SelectMemory.select_start_piper_tidy in E1 as [Hs2 Hfds2];
    [|done|rewrite Hfds1; set_solver].
  intros E2.
  apply SelectMemory.select_start_piper_tidy in E2 as [_ Hfds'];
    [|done|rewrite Hfds2, Hfds1; set_solver].
  rewrite Hfds', Hfds2, Hfds1.
  rewrite !size_union, !size_singleton by set_solver. done.
Qed.

(** The select program never closes the read end of a pipe: two more
    descriptors are open for every job it has started, whatever has been
    read and collected since. *)
Lemma select_descriptors_stay_open o answers out s :
  well_formed o → Select.run o answers = Some out →
  SelectRun.state_of out = Some s →
  size (Select.fds s) = (3 + 2 * length (Select.started s))%nat.
Proof.
  intros Ho Hrun Hs.
  set (counted_fds := λ s : Select.state,
         size (Select.fds s) = (3 + 2 * length (Select.started s))%nat).
  cut (SelectRun.sound o out ∧
       ∀ s, SelectRun.state_of out = Some s → counted_fds s).
  { intros [_ H]. by apply H. }
  clear s Hs. revert Hrun.
  assert (∀ s, counted_fds s →
            ∀ s', SelectRun.state_of (Select.at_fill o s) = Some s' →
                  counted_fds s') as Hfill.
  { intros s Hsize s'. unfold Select.at_fill.
    destruct (Select.fill_test o s); [by intros [= <-]|].
    by destruct (Select.fd_sets _ _ _ _); intros [= <-]. }
  assert (∀ s, counted_fds s →
            ∀ s', SelectRun.state_of (Select.at_loop o s) = Some s' →
                  counted_fds s') as Hloop.
  { intros s Hsize s'. unfold Select.at_loop.
    destruct (Select.loop_test o s); [by apply Hfill|]. by intros [= <-]. }
  assert (∀ s, counted_fds s →
            ∀ s', SelectRun.state_of (Select.at_reap o s) = Some s' →
                  counted_fds s') as Hreap.
  { intros s Hsize s'. unfold Select.at_reap.
    destruct (negb _); [by intros [= <-]|]. by apply Hloop. }
  unfold Select.run.
  apply (SelectMemory.select_exec_invariant
           (λ out, SelectRun.sound o out ∧
                   ∀ s, SelectRun.state_of out = Some s → counted_fds s)).
  - intros at_call s a out1 [Hsound Hsize] Hstep.
    split; [by eapply SelectMemory.select_step_sound|].
    specialize (Hsize s eq_refl).
    destruct Hsound as [[_ Hb] Ht]. simpl in Ht.
    destruct at_call, a as [c|r|w]; simplify_eq/=.
    + destruct (directories o !! _) as [dir|]; [|done].
      pose proof (select_start_job_descriptors dir c s) as Hjob.
      pose proof (SelectFacts.select_start_job_books dir c s) as Hbooks.
      destruct (Select.start_job dir c s) as [s1| |]; simpl; [|done..].
      destruct (Hbooks s1 eq_refl) as (_ & _ & _ & Hst & _).
      apply Hfill. unfold counted_fds in *. simpl.
      rewrite (Hjob s1 Ht eq_refl), Hst, length_app. simpl. lia.
    + destruct Hb as (_ & _ & Hsets).
      pose proof (SelectMemory.select_poll_tidy r s Ht Hsets) as Hpoll.
      pose proof (SelectFacts.select_poll_books r s) as Hbooks.
      destruct (Select.poll r s) as [s1| |]; simpl; [|done..].
      apply Hreap. unfold counted_fds in *. destruct Hpoll as [_ ->].
      specialize (Hbooks s1 eq_refl). unfold SelectRun.books in Hbooks.
      injection Hbooks as _ _ _ -> _. done.
    + destruct w as [| |st]; [done|by apply Hloop|]. by apply Hreap.
  - split; [by apply SelectMemory.select_sound_initial|].
    apply Hloop. unfold counted_fds. by vm_compute.
Qed.

(** C5.  In the select program the descriptor of a piper is not closed
    at end of file: after [within d1 echo hi] has read both pipes to their
    end and collected its job, the list is empty and both pipers are freed,
    but the descriptors 3 and 5 they read from are still open.  This is so
    for every job of every run, see [select_descriptors_stay_open].  (The
    kqueue program closes them, see [kqueue_readable_spec].) *)
Theorem select_end_of_file_leaves_descriptor_open :
  ∃ s0 s,
    Select.main 64 [] ["d1"; "echo"; "hi"] [select_job_ok]
    = Some (Select.Blocked Select.Polling s0) ∧
    in_fd <$> Select.heap s0 = {[1%positive := 3; 2%positive := 5]} ∧
    Select.main 64 [] ["d1"; "echo"; "hi"]
      [select_job_ok; select_job_ends 3 5 [hi]; select_job_collected 0]
    = Some (Select.Returns 0 s) ∧
    Select.pipers s = [] ∧ Select.heap s = ∅ ∧
    3 ∈ Select.fds s ∧ 5 ∈ Select.fds s.
Proof.
  eexists _, _. split; [vm_compute; reflexivity|].
  split; [by vm_compute|].
  split; [vm_compute; reflexivity|].
  split; [done|]. split; [done|].
  split; apply (bool_decide_unpack _); by vm_compute.
Qed.

(** ** The select program: descriptors and the [fd_set] *)

(** A property of the state that [start_job], the work after [select]
    and the collecting of a child keep holds all along a run. *)
Lemma select_state_invariant (I : Select.state → Prop) o :
  well_formed o →
  I Select.initial →
  (∀ dir c s s',
     SelectRun.sound o (Select.Blocked Select.Starting s) → I s →
     directories o !! Z.to_nat (Select.directory s) = Some dir →
     Select.start_job dir c s = Ok s' → I (Select.job_started s')) →
  (∀ r s s',
     SelectRun.sound o (Select.Blocked Select.Polling s) → I s →
     Select.poll r s = Ok s' → I s') →
  (∀ child_status s, I s → I (Select.job_collected child_status s)) →
  ∀ answers out s,
    Select.run o answers = Some out → SelectRun.state_of out = Some s → I s.
Proof.
  intros Ho Hinit Hjob Hpoll Hcollect answers out s Hrun Hs.
  cut (SelectRun.sound o out ∧
       ∀ s, SelectRun.state_of out = Some s → I s).
  { intros [_ H]. by apply H. }
  clear s Hs. revert Hrun.
  assert (∀ s, I s →
            ∀ s', SelectRun.state_of (Select.at_fill o s) = Some s' → I s')
    as Hfill.
  { intros s Hi s'. unfold Select.at_fill.
    destruct (Select.fill_test o s); [by intros [= <-]|].
    by destruct (Select.fd_sets _ _ _ _); intros [= <-]. }
  assert (∀ s, I s →
            ∀ s', SelectRun.state_of (Select.at_loop o s) = Some s' → I s')
    as Hloop.
  { intros s Hi s'. unfold Select.at_loop.
    destruct (Select.loop_test o s); [by apply Hfill|]. by intros [= <-]. }
  assert (∀ s, I s →
            ∀ s', SelectRun.state_of (Select.at_reap o s) = Some s' → I s')
    as Hreap.
  { intros s Hi s'. unfold Select.at_reap.
    destruct (negb _); [by intros [= <-]|]. by apply Hloop. }
  unfold Select.run.
  apply (SelectMemory.select_exec_invariant
           (λ out, SelectRun.sound o out ∧
                   ∀ s, SelectRun.state_of out = Some s → I s)).
  - intros at_call s a out1 [Hsound Hi] Hstep.
    split; [by eapply SelectMemory.select_step_sound|].
    specialize (Hi s eq_refl).
    destruct at_call, a as [c|r|w]; simplify_eq/=.
    + destruct (directories o !! _) as [dir|] eqn:Hdir; [|done].
      specialize (Hjob dir c s).
      destruct (Select.start_job dir c s) as [s1| |]; simpl; [|done..].
      apply Hfill. by apply Hjob.
    + specialize (Hpoll r s).
      destruct (Select.poll r s) as [s1| |]; simpl; [|done..].
      apply Hreap. by apply Hpoll.
    + destruct w as [| |st]; [done|by apply Hloop|].
      by apply Hreap, Hcollect.
  - split; [by apply SelectMemory.select_sound_initial|]. by apply Hloop.
Qed.

(** What [start_job] leaves in the parent when it returns. *)
Lemma select_start_job_shape dir c s s' :
  Select.start_job dir c s = Ok s' →
  ∃ stdout_r stdout_w stderr_r stderr_w p_out p_err,
    select_job_pipes s = ((stdout_r, stdout_w), (stderr_r, stderr_w)) ∧
    Select.pipers s' = p_err :: p_out :: Select.pipers s ∧
    p_out ≠ p_err ∧
    Select.heap s !! p_out = None ∧ Select.heap s !! p_err = None ∧
    Select.heap s' =
      <[p_err := {| in_fd := stderr_r; out_file := stderr; prefix := dir;
                    newline := true |}]>
        (<[p_out := {| in_fd := stdout_r; out_file := stdout;
                       prefix := dir; newline := true |}]>
           (Select.heap s)) ∧
    Select.fds s' = {[stdout_r; stderr_r]} ∪ Select.fds s ∧
    stdout_r ≠ stderr_r ∧
    (∀ fd, fd ∈ [stdout_r; stdout_w; stderr_r; stderr_w] →
           fd ∉ Select.fds s) ∧
    (stdout_w ∉ Select.fds s') ∧ (stderr_w ∉ Select.fds s') ∧
    Select.output s' = Select.output s ∧
    Select.started s' = Select.started s ++ [dir].
Proof.
  unfold Select.start_job, select_job_pipes.
  destruct (Select.pipe_stdout_ok c); simpl; [|done].
  destruct (Select.pipe_stderr_ok c); simpl; [|done].
  destruct (Select.fork_ok c); simpl; [|done].
  pose proof (lowest_unused_spec (Select.fds s)) as Hr1.
  set (r1 := lowest_unused (Select.fds s)) in *. clearbody r1.
  pose proof (lowest_unused_spec ({[r1]} ∪ Select.fds s)) as Hw1.
  set (w1 := lowest_unused ({[r1]} ∪ Select.fds s)) in *. clearbody w1.
  pose proof (lowest_unused_spec ({[r1; w1]} ∪ Select.fds s)) as Hr2.
  set (r2 := lowest_unused ({[r1; w1]} ∪ Select.fds s)) in *. clearbody r2.
  pose proof (lowest_unused_spec ({[r2]} ∪ ({[r1; w1]} ∪ Select.fds s))) as Hw2.
  set (w2 := lowest_unused ({[r2]} ∪ ({[r1; w1]} ∪ Select.fds s))) in *.
  clearbody w2.
  unfold Select.start_piper.
  destruct (Select.malloc_ok (Select.stdout_piper c)); simpl; [|done].
  destruct (Select.getfl_ok (Select.stdout_piper c)); simpl; [|done].
  destruct (Select.setfl_ok (Select.stdout_piper c)); simpl; [|done].
  destruct (Select.malloc_ok (Select.stderr_piper c)); simpl; [|done].
  destruct (Select.getfl_ok (Select.stderr_piper c)); simpl; [|done].
  destruct (Select.setfl_ok (Select.stderr_piper c)); simpl; [|done].
  intros [= <-]. simpl.
  pose proof (is_fresh (dom (Select.heap s))) as Hp1.
  set (p1 := fresh (dom (Select.heap s))) in *. clearbody p1.
  match goal with
  | |- context [fresh (dom ?h)] =>
      pose proof (is_fresh (dom h)) as Hp2;
      set (p2 := fresh (dom h)) in *; clearbody p2
  end.
  rewrite dom_insert in Hp2.
  exists r1, w1, r2, w2, p1, p2.
  split; [done|]. split; [done|].
  split; [set_solver|].
  split; [by apply not_elem_of_dom|].
  split; [apply not_elem_of_dom; set_solver|].
  split; [done|].
  split; [apply set_eq; intros fd; set_solver|].
  split; [set_solver|].
  split; [intros fd Hfd; set_solver|].
  split; [set_solver|]. split; [set_solver|]. done.
Qed.

Lemma size_insert_le (fd : Z) (X : gset Z) :
  (size ({[fd]} ∪ X) ≤ 1 + size X)%nat.
Proof.
  rewrite size_union_alt, size_singleton.
  assert (X ∖ {[fd]} ⊆ X) as Hsub by set_solver.
  apply subseteq_size in Hsub. lia.
Qed.

(** Every descriptor open is at most the number of descriptors open. *)
Lemma select_descriptors_low o answers out s :
  well_formed o → Select.run o answers = Some out →
  SelectRun.state_of out = Some s → SelectRun.descriptors_low s.
Proof.
  intros Ho. apply (select_state_invariant SelectRun.descriptors_low o Ho).
  - assert (size (Select.fds Select.initial) = 3%nat) as Hsize
      by (by vm_compute).
    unfold SelectRun.descriptors_low. rewrite Hsize. simpl. intros fd.
    rewrite !elem_of_union, !elem_of_singleton. lia.
  - intros dir c s0 s1 [_ Hs0] Hlow _ Hjob. simpl in Hs0.
    pose proof (select_start_job_descriptors dir c s0 s1 Hs0 Hjob) as Hsize.
    apply select_start_job_shape in Hjob
      as (r1 & w1 & r2 & w2 & p1 & p2 & Hpipes & _ & _ & _ & _ & _ & Hfds &
          _).
    unfold select_job_pipes in Hpipes. simpl in Hpipes.
    injection Hpipes as <- <- <- <-.
    unfold SelectRun.descriptors_low in *. simpl. rewrite Hsize, Hfds.
    pose proof (lowest_unused_bound (Select.fds s0)) as Hr1.
    set (r1 := lowest_unused (Select.fds s0)) in *. clearbody r1.
    pose proof (lowest_unused_bound ({[r1]} ∪ Select.fds s0)) as Hw1.
    set (w1 := lowest_unused ({[r1]} ∪ Select.fds s0)) in *. clearbody w1.
    pose proof (lowest_unused_bound ({[r1; w1]} ∪ Select.fds s0)) as Hr2.
    set (r2 := lowest_unused ({[r1; w1]} ∪ Select.fds s0)) in *.
    clearbody r2.
    assert (size ({[r1; w1]} ∪ Select.fds s0) ≤ 2 + size (Select.fds s0))%nat
      as Hle.
    { rewrite <- (assoc_L (∪)).
      etrans; [apply size_insert_le|].
      pose proof (size_insert_le w1 (Select.fds s0)). lia. }
    pose proof (size_insert_le r1 (Select.fds s0)).
    intros fd [[->%elem_of_singleton| ->%elem_of_singleton]%elem_of_union
              |Hfd]%elem_of_union; [lia..|].
    apply Hlow in Hfd. lia.
  - intros r s0 s1 [[_ (_ & _ & Hsets)] Hs0] Hlow Hpoll. simpl in Hs0.
    pose proof (SelectMemory.select_poll_tidy r s0 Hs0 Hsets) as Hp.
    rewrite Hpoll in Hp. destruct Hp as [_ Hfds].
    unfold SelectRun.descriptors_low in *. by rewrite Hfds.
  - by intros child_status s0.
Qed.

(** ** The select program: every [FD_SET] inside the set *)

Lemma select_start_job_low dir c s s' :
  SelectRun.tidy s → SelectRun.descriptors_low s →
  Select.start_job dir c s = Ok s' → SelectRun.descriptors_low s'.
Proof.
  intros Hs0 Hlow Hjob.
  pose proof (select_start_job_descriptors dir c s s' Hs0 Hjob) as Hsize.
  apply select_start_job_shape in Hjob
    as (r1 & w1 & r2 & w2 & p1 & p2 & Hpipes & _ & _ & _ & _ & _ & Hfds & _).
  unfold select_job_pipes in Hpipes. simpl in Hpipes.
  injection Hpipes as <- <- <- <-.
  unfold SelectRun.descriptors_low in *. rewrite Hsize, Hfds.
  pose proof (lowest_unused_bound (Select.fds s)) as Hr1.
  set (r1 := lowest_unused (Select.fds s)) in *. clearbody r1.
  pose proof (lowest_unused_bound ({[r1]} ∪ Select.fds s)) as Hw1.
  set (w1 := lowest_unused ({[r1]} ∪ Select.fds s)) in *. clearbody w1.
  pose proof (lowest_unused_bound ({[r1; w1]} ∪ Select.fds s)) as Hr2.
  set (r2 := lowest_unused ({[r1; w1]} ∪ Select.fds s)) in *.
  clearbody r2.
  assert (size ({[r1; w1]} ∪ Select.fds s) ≤ 2 + size (Select.fds s))%nat
    as Hle.
  { rewrite <- (assoc_L (∪)).
    etrans; [apply size_insert_le|].
    pose proof (size_insert_le w1 (Select.fds s)). lia. }
  pose proof (size_insert_le r1 (Select.fds s)).
  intros fd [[->%elem_of_singleton| ->%elem_of_singleton]%elem_of_union
            |Hfd]%elem_of_union; [lia..|].
  apply Hlow in Hfd. lia.
Qed.

(** A state in order, as the runs have it (see [select_run_orderly]),
    with descriptors that all have their place in an [fd_set]. *)
Lemma select_fd_sets_fit o s :
  SelectRun.fits_fd_set o → SelectRun.orderly o s →
  ∃ sets, Select.fd_sets (Select.heap s) (Select.pipers s) ∅ 0 = Ok sets.
Proof.
  intros Hfit (Hc & Ht & Hlow & Hsize).
  destruct (SelectMemory.select_fd_sets_spec
              (Select.heap s) (Select.pipers s) ∅ 0) as (fs & n & H & _).
  - intros q Hq. apply (SelectRun.pipers_allocated s Ht) in Hq as [p Hp].
    exists p. split; [done|].
    pose proof (SelectRun.pipers_open s Ht q p Hp) as Hfd.
    apply Hlow in Hfd. rewrite Hsize in Hfd.
    destruct Hc. unfold SelectRun.fits_fd_set in Hfit. lia.
  - by exists (fs, n).
Qed.

Lemma select_at_reap_defined o s :
  (∃ sets, Select.fd_sets (Select.heap s) (Select.pipers s) ∅ 0 = Ok sets) →
  Select.at_fill o s ≠ Select.Crashed ∧
  Select.at_loop o s ≠ Select.Crashed ∧
  Select.at_reap o s ≠ Select.Crashed.
Proof.
  intros [sets Hsets].
  unfold Select.at_reap, Select.at_loop, Select.at_fill. rewrite Hsets.
  by destruct (negb _), (Select.loop_test o s), (Select.fill_test o s).
Qed.

Lemma select_state_of_at_reap o s s' :
  (SelectRun.state_of (Select.at_fill o s) = Some s' → s' = s) ∧
  (SelectRun.state_of (Select.at_loop o s) = Some s' → s' = s) ∧
  (SelectRun.state_of (Select.at_reap o s) = Some s' → s' = s).
Proof.
  unfold Select.at_reap, Select.at_loop, Select.at_fill.
  destruct (negb _), (Select.loop_test o s), (Select.fill_test o s);
    try destruct (Select.fd_sets _ _ _ _); simpl; repeat split; congruence.
Qed.

Lemma select_orderly_initial o : well_formed o → SelectRun.orderly o Select.initial.
Proof.
  intros Ho.
  assert (size (Select.fds Select.initial) = 3%nat) as Hsize
    by (by vm_compute).
  split; [by apply SelectFacts.select_counted_initial|].
  split; [apply SelectMemory.select_tidy_initial|].
  split; [|done].
  unfold SelectRun.descriptors_low. rewrite Hsize. simpl. intros fd.
  rewrite !elem_of_union, !elem_of_singleton. lia.
Qed.

Lemma select_orderly_job_started o dir c s s' :
  SelectRun.orderly o s → Select.fill_test o s = true →
  directories o !! Z.to_nat (Select.directory s) = Some dir →
  Select.start_job dir c s = Ok s' →
  SelectRun.orderly o (Select.job_started s').
Proof.
  intros (Hc & Ht & Hlow & Hsize) Hb Hdir Hjob.
  pose proof (SelectFacts.select_counted_job_started o dir c s s'
                Hc Hb Hdir Hjob) as [Hc' _].
  pose proof (SelectMemory.select_start_job_tidy dir c s s' Ht Hjob) as Ht'.
  split; [done|].
  split; [by destruct Ht'|].
  split; [exact (select_start_job_low dir c s s' Ht Hlow Hjob)|]. simpl.
  rewrite (select_start_job_descriptors dir c s s' Ht Hjob), Hsize.
  apply SelectFacts.select_start_job_books in Hjob as (_ & _ & _ & -> & _).
  rewrite length_app. simpl. lia.
Qed.

Lemma select_orderly_poll o r s s' :
  SelectRun.orderly o s →
  (∃ sets, Select.fd_sets (Select.heap s) (Select.pipers s) ∅ 0 = Ok sets) →
  Select.poll r s = Ok s' → SelectRun.orderly o s'.
Proof.
  intros (Hc & Ht & Hlow & Hsize) Hsets Hpoll.
  pose proof (SelectMemory.select_poll_tidy r s Ht Hsets) as Hp.
  rewrite Hpoll in Hp. destruct Hp as [Ht' Hfds].
  pose proof (SelectFacts.select_poll_books r s s' Hpoll) as Hbooks.
  split; [by eapply SelectFacts.select_counted_books|].
  split; [done|].
  unfold SelectRun.descriptors_low. rewrite Hfds.
  split; [done|].
  unfold SelectRun.books in Hbooks. injection Hbooks as _ _ _ -> _. done.
Qed.

Lemma select_orderly_job_collected o child_status s :
  SelectRun.orderly o s → Select.num_jobs s ≠ 0 →
  SelectRun.orderly o (Select.job_collected child_status s).
Proof.
  intros (Hc & Ht & Hlow & Hsize) Hn.
  split; [by apply SelectFacts.select_counted_job_collected|].
  split; [by destruct Ht|]. done.
Qed.

(** One step from a state in order, with directories few enough for an
    [fd_set]: the program stays within the behaviour C defines, in a state
    in order. *)
Lemma select_step_orderly o at_call s a out :
  well_formed o → SelectRun.fits_fd_set o →
  SelectRun.reachable o (Select.Blocked at_call s) → SelectRun.orderly o s →
  Select.step o at_call s a = Some out →
  out ≠ Select.Crashed ∧
  ∀ s', SelectRun.state_of out = Some s' → SelectRun.orderly o s'.
Proof.
  intros Ho Hfit [Hc Hb] Hs Hstep.
  assert (∀ s, SelectRun.orderly o s →
            (Select.at_fill o s ≠ Select.Crashed ∧
             ∀ s', SelectRun.state_of (Select.at_fill o s) = Some s' →
                   SelectRun.orderly o s') ∧
            (Select.at_loop o s ≠ Select.Crashed ∧
             ∀ s', SelectRun.state_of (Select.at_loop o s) = Some s' →
                   SelectRun.orderly o s') ∧
            (Select.at_reap o s ≠ Select.Crashed ∧
             ∀ s', SelectRun.state_of (Select.at_reap o s) = Some s' →
                   SelectRun.orderly o s')) as Hnext.
  { intros s0 Hs0.
    pose proof (select_at_reap_defined o s0 (select_fd_sets_fit o s0 Hfit Hs0))
      as (? & ? & ?).
    split; [|split]; (split; [done|]);
      by intros s' ->%select_state_of_at_reap. }
  destruct at_call, a as [c|r|w]; simplify_eq/=.
  - destruct (directories o !! _) as [dir|] eqn:Hdir.
    2:{ exfalso. apply lookup_ge_None in Hdir.
        unfold Select.fill_test in Hb.
        apply andb_true_iff in Hb as [_ Hq]. apply Z.ltb_lt in Hq.
        destruct Ho, Hc. lia. }
    pose proof (select_orderly_job_started o dir c s) as Hjob.
    pose proof (SelectMemory.select_start_job_defined dir c s) as Hdef.
    destruct (Select.start_job dir c s) as [s1|t|]; simpl in *.
    + apply Hnext. exact (Hjob s1 Hs Hb Hdir eq_refl).
    + done.
    + by destruct Hdef.
  - destruct Hb as (_ & _ & Hsets).
    pose proof (select_orderly_poll o r s) as Hpoll.
    pose proof (SelectMemory.select_poll_tidy r s (proj1 (proj2 Hs)) Hsets)
      as Hdef.
    destruct (Select.poll r s) as [s1| |]; simpl in *; [|done..].
    apply Hnext. exact (Hpoll s1 Hs Hsets eq_refl).
  - destruct w as [| |st]; [done|by apply Hnext|].
    apply Hnext. by apply select_orderly_job_collected.
Qed.

(** With directories few enough for an [fd_set], a run stays within the
    behaviour C defines, and every state of it is in order. *)
Lemma select_run_orderly o answers out :
  well_formed o → SelectRun.fits_fd_set o →
  Select.run o answers = Some out →
  out ≠ Select.Crashed ∧
  ∀ s, SelectRun.state_of out = Some s → SelectRun.orderly o s.
Proof.
  intros Ho Hfit Hrun.
  cut (SelectRun.reachable o out ∧ out ≠ Select.Crashed ∧
       ∀ s, SelectRun.state_of out = Some s → SelectRun.orderly o s).
  { tauto. }
  revert Hrun. unfold Select.run.
  apply (SelectMemory.select_exec_invariant
           (λ out, SelectRun.reachable o out ∧ out ≠ Select.Crashed ∧
                   ∀ s, SelectRun.state_of out = Some s →
                        SelectRun.orderly o s)).
  - intros at_call s a out1 (Hr & _ & Hs) Hstep.
    split; [destruct Hr; by eapply SelectFacts.select_step_reachable|].
    exact (select_step_orderly o at_call s a out1 Ho Hfit Hr (Hs s eq_refl)
             Hstep).
  - pose proof (select_orderly_initial o Ho) as Hs.
    pose proof (select_at_reap_defined o _ (select_fd_sets_fit o _ Hfit Hs))
      as (_ & ? & _).
    split; [by apply SelectFacts.select_at_loop_reachable,
              SelectFacts.select_counted_initial|].
    split; [done|]. by intros s' ->%select_state_of_at_reap.
Qed.

(** ** Runs that come to their end *)

(** Arithmetic on [calls_left] with the directories left unchanged. *)
Ltac weigh :=
  simpl;
  repeat match goal with
         | |- context [(?a * ?b)%nat] => generalize (a * b)%nat; intros ?
         end;
  lia.

Lemma next_directory_weighs_more (a k x y : nat) :
  (x < k)%nat → (a * k + x < S a * k + y)%nat.
Proof. simpl. lia. Qed.

Module SelectLiveness.
Import SelectRun SelectFacts SelectMemory.

Lemma select_start_job_ok dir s :
  ∃ s', Select.start_job dir select_calls_ok s = Ok s'.
Proof. by eexists. Qed.

(** At end of file the piper leaves the list, and the others stay. *)
Lemma select_run_piper_eof piper r s :
  tidy s → piper ∈ Select.pipers s → ending r = read_eof →
  ∃ s', Select.run_piper piper r s = Ok s' ∧ tidy s' ∧
        (∀ q, q ∈ Select.pipers s' ↔ q ∈ Select.pipers s ∧ q ≠ piper) ∧
        (∀ q, q ≠ piper → Select.heap s' !! q = Select.heap s !! q).
Proof.
  intros Hs Hin Hr.
  destruct (proj1 (pipers_allocated s Hs piper) Hin) as [p Hp].
  pose proof (select_run_piper_tidy piper r s Hs Hin) as Hrun.
  destruct (select_end_of_file piper p r s Hs Hp Hr)
    as (s' & E & Hout & _).
  rewrite E in *. destruct Hrun as (Hs' & _ & Hframe).
  exists s'. split; [done|]. split; [done|]. split.
  - intros q. destruct (decide (q = piper)) as [->|Hne]; [tauto|].
    destruct (Hframe q Hne) as [-> _]. tauto.
  - intros q Hne. by apply Hframe.
Qed.

(** With every piper at its end, the loop after [select] empties what it
    goes through. *)
Lemma select_run_ready_eof isset ps s :
  tidy s → NoDup ps → (∀ q, q ∈ ps → q ∈ Select.pipers s) →
  (∀ q p, q ∈ ps → Select.heap s !! q = Some p →
          isset (in_fd p) = Some eof_script) →
  ∃ s', Select.run_ready isset ps s = Ok s' ∧ tidy s' ∧
        (∀ q, q ∈ Select.pipers s' ↔ q ∈ Select.pipers s ∧ q ∉ ps).
Proof.
  revert s. induction ps as [|piper ps IH]; intros s Hs Hnd Hsub Hset.
  { exists s. split; [done|]. split; [done|]. set_solver. }
  apply NoDup_cons in Hnd as [Hpiper Hnd]. simpl.
  assert (piper ∈ Select.pipers s) as Hin by (apply Hsub; left).
  destruct (proj1 (pipers_allocated s Hs piper) Hin) as [p Hp]. rewrite Hp.
  rewrite (Hset piper p) by (done || left).
  destruct (select_run_piper_eof piper eof_script s Hs Hin eq_refl)
    as (s1 & -> & Hs1 & Hlist & Hheap). simpl.
  destruct (IH s1 Hs1 Hnd) as (s' & -> & Hs' & Hlist').
  - intros q Hq. apply Hlist. split; [apply Hsub; by right|by intros ->].
  - intros q pq Hq Hpq. rewrite Hheap in Hpq by (by intros ->).
    apply (Hset q); [by right|done].
  - exists s'. split; [done|]. split; [done|]. intros q.
    rewrite Hlist', Hlist, not_elem_of_cons. tauto.
Qed.

Lemma select_poll_eof s :
  tidy s →
  (∃ sets, Select.fd_sets (Select.heap s) (Select.pipers s) ∅ 0 = Ok sets) →
  ∃ s', Select.poll
          (Select.select_ready (gset_to_gmap eof_script (Select.fds s))) s
        = Ok s' ∧ Select.pipers s' = [].
Proof.
  intros Hs [[piper_fds nfds] Hsets]. unfold Select.poll. rewrite Hsets.
  apply select_fd_sets_ok in Hsets as (_ & _ & Hall).
  simpl.
  destruct (select_run_ready_eof
              (Select.fd_isset piper_fds nfds
                 (gset_to_gmap eof_script (Select.fds s)))
              (Select.pipers s) s Hs (pipers_once s Hs) (λ q H, H))
    as (s' & -> & _ & Hlist).
  - intros q p Hq Hp.
    destruct (Hall q Hq) as (p' & Hp' & _ & Hfd & Hlt).
    rewrite Hp in Hp'. injection Hp' as <-.
    unfold Select.fd_isset. rewrite bool_decide_eq_true_2 by done.
    replace (in_fd p <? nfds) with true by lia. simpl.
    apply lookup_gset_to_gmap_Some. split; [|done].
    by eapply pipers_open.
  - exists s'. split; [done|].
    destruct (Select.pipers s') as [|q l]; [done|].
    destruct (proj1 (Hlist q)); [by left|]. done.
Qed.

Lemma select_step_start o s dir :
  directories o !! Z.to_nat (Select.directory s) = Some dir →
  ∃ s1, Select.start_job dir select_calls_ok s = Ok s1 ∧
        Select.step o Select.Starting s
          (select_cooperates Select.Starting s)
        = Some (Select.at_fill o (Select.job_started s1)).
Proof.
  intros Hdir. destruct (select_start_job_ok dir s) as [s1 Hs1].
  exists s1. split; [done|].
  unfold select_cooperates, select_job_ok, Select.step.
  by rewrite Hdir, Hs1.
Qed.

Lemma select_step_poll_eof o s :
  tidy s →
  (∃ sets, Select.fd_sets (Select.heap s) (Select.pipers s) ∅ 0 = Ok sets) →
  ∃ s1,
    books s1 = books s ∧ Select.pipers s1 = [] ∧
    Select.step o Select.Polling s (select_cooperates Select.Polling s)
    = Some (Select.at_reap o s1).
Proof.
  intros Hs Hsets.
  destruct (select_poll_eof s Hs Hsets) as (s1 & Hpoll & Hlist).
  exists s1. split; [by eapply select_poll_books|]. split; [done|].
  unfold select_cooperates, Select.step. by rewrite Hpoll.
Qed.

(** One call answered by the cooperating environment: the program goes
    on, and less is left to do. *)
Lemma select_cooperative_step o at_call s :
  well_formed o → fits_fd_set o →
  sound o (Select.Blocked at_call s) → orderly o s →
  ∃ out,
    Select.step o at_call s (select_cooperates at_call s) = Some out ∧
    is_Some (state_of out) ∧
    (calls_left o out < calls_left o (Select.Blocked at_call s))%nat.
Proof.
  intros Ho Hfit Hsound Hs.
  assert (∀ out, Select.step o at_call s (select_cooperates at_call s)
                   = Some out → sound o out) as Hnext.
  { intros out. by apply select_step_sound. }
  assert (∀ s', orderly o s' → is_Some (state_of (Select.at_fill o s')))
    as Hfill.
  { intros s' [sets Hsets]%(select_fd_sets_fit o); [|done].
    unfold Select.at_fill. rewrite Hsets.
    by destruct (Select.fill_test o s'). }
  destruct Hsound as [[Hc Hb] Ht]. simpl in Ht.
  assert (∀ s', counted o s' →
            0 ≤ Select.num_jobs s' ≤ num_directories o ∧
            0 ≤ Select.directory s' ≤ num_directories o) as Hrange.
  { intros s' []. lia. }
  destruct (Hrange s Hc) as [? ?].
  destruct at_call.
  - simpl in Hb.
    assert (is_Some (directories o !! Z.to_nat (Select.directory s)))
      as [dir Hdir].
    { apply lookup_lt_is_Some. unfold Select.fill_test in Hb.
      apply andb_true_iff in Hb as [_ Hq]. apply Z.ltb_lt in Hq.
      destruct Ho, Hc. lia. }
    destruct (select_step_start o s dir Hdir) as (s1 & Hs1 & Hstep).
    eexists. split; [exact Hstep|].
    destruct (Hnext _ Hstep) as [Hr _].
    pose proof (select_orderly_job_started o dir select_calls_ok s s1
                  Hs Hb Hdir Hs1) as Hs1'.
    split; [by apply Hfill|].
    destruct (select_fd_sets_fit o _ Hfit Hs1') as [sets Hsets].
    apply select_start_job_books in Hs1 as (Hd & Hn & _).
    unfold Select.fill_test in Hb. apply andb_true_iff in Hb as [_ Hq].
    apply Z.ltb_lt in Hq.
    unfold Select.at_fill in *. rewrite Hsets in *.
    destruct (Select.fill_test o (Select.job_started s1)).
    + simpl. rewrite Hd.
      replace (Z.to_nat (num_directories o - Select.directory s))
        with (S (Z.to_nat (num_directories o - (Select.directory s + 1))))
        by lia.
      apply next_directory_weighs_more. lia.
    + destruct Hr as [Hc1 _].
      destruct (Hrange _ Hc1) as [? ?]. simpl in *. rewrite Hd in *.
      replace (Z.to_nat (num_directories o - Select.directory s))
        with (S (Z.to_nat (num_directories o - (Select.directory s + 1))))
        by lia.
      apply next_directory_weighs_more. lia.
  - destruct (select_step_poll_eof o s Ht (proj2 (proj2 Hb)))
      as (s1 & Hbooks & Hlist & Hstep).
    eexists. split; [exact Hstep|].
    unfold books in Hbooks. injection Hbooks as Hd Hn _ _ _.
    unfold Select.at_reap, Select.at_loop, Select.at_fill, Select.loop_test.
    rewrite Hlist, Hn, Hd.
    destruct (Z.eqb_spec (Select.num_jobs s) 0) as [Hz|Hz]; simpl.
    + destruct (Z.ltb_spec (Select.directory s) (num_directories o));
        simpl; [|split; [done|weigh]].
      replace (Select.fill_test o s1) with true.
      * split; [done|]. simpl. rewrite ?Hd. weigh.
      * unfold Select.fill_test. rewrite Hn, Hd, Hz. destruct Ho.
        symmetry. apply andb_true_iff. split; apply Z.ltb_lt; lia.
    + split; [done|]. simpl. rewrite ?Hn, ?Hd. weigh.
  - simpl in Hb. eexists. split; [reflexivity|].
    destruct (select_fd_sets_fit o _ Hfit
                (select_orderly_job_collected o 0 s Hs Hb)) as [sets Hsets].
    unfold Select.at_reap, Select.at_loop, Select.at_fill.
    rewrite Hsets. simpl.
    destruct (Z.eqb_spec (Select.num_jobs s - 1) 0) as [Hz|Hz]; simpl.
    + destruct (Select.loop_test o _); simpl; [|split; [done|weigh]].
      destruct (Select.fill_test o _); simpl; (split; [done|]);
        rewrite ?Hz; weigh.
    + split; [done|]. weigh.
Qed.

(** From any point of a run of the select program, the jobs may all end:
    then [main] returns. *)
Lemma select_finishes o n out :
  well_formed o → fits_fd_set o → sound o out →
  (∃ s, state_of out = Some s ∧ orderly o s) →
  (calls_left o out < n)%nat →
  ∃ more st s, Select.exec o out more = Some (Select.Returns st s).
Proof.
  intros Ho Hfit. revert out.
  induction n as [|n IH]; intros out Hsound (s & Hs & Hord) Hn; [lia|].
  destruct out as [at_call s'|st s'|t|]; simplify_eq/=.
  - destruct (select_cooperative_step o at_call s Ho Hfit Hsound Hord)
      as (out & Hstep & [s1 Hs1] & Hless).
    destruct (IH out) as (more & st & s' & Hmore).
    + by eapply select_step_sound.
    + exists s1. split; [done|].
      by eapply (select_step_orderly o at_call s), Hs1; [..|exact Hstep];
        try apply Hsound.
    + simpl in Hless. lia.
    + exists (select_cooperates at_call s :: more), st, s'.
      simpl. by rewrite Hstep.
  - by exists [], st, s.
Qed.

(** A run of the select program can always be brought to its end, and
    then every directory has had its job started. *)
Lemma select_run_can_finish o answers out :
  well_formed o → fits_fd_set o → Select.run o answers = Some out →
  is_Some (state_of out) →
  ∃ more st s,
    Select.run o (answers ++ more) = Some (Select.Returns st s) ∧
    Select.started s = job_directories o.
Proof.
  intros Ho Hfit Hrun [s0 Hs0].
  destruct (select_finishes o (S (calls_left o out)) out Ho Hfit)
    as (more & st & s & Hmore);
    [exact (select_run_sound o answers out Ho Hrun)
    |exists s0; split; [done|];
     by apply (select_run_orderly o answers out Ho Hfit Hrun)
    |lia|].
  exists more, st, s.
  assert (Select.run o (answers ++ more) = Some (Select.Returns st s))
    as Hall.
  { unfold Select.run in *.
    by rewrite ReadFacts.select_exec_app, Hrun. }
  split; [done|].
  by destruct (select_exit_code o _ _ Ho Hall) as (_ & _ & ? & _).
Qed.

End SelectLiveness.

Module KqueueLiveness.
Import KqueueRun KqueueFacts KqueueMemory.

Lemma kqueue_start_piper_ok fd f pre s :
  ∃ s', Kqueue.start_piper fd f pre
          {| Kqueue.malloc_ok := true; Kqueue.register_ok := true |} s
        = Ok s'.
Proof.
  unfold Kqueue.start_piper, Kqueue.register_piper. simpl.
  rewrite lookup_insert_eq. by eexists.
Qed.

Lemma kqueue_start_job_ok dir pid s :
  ∃ s', Kqueue.start_job dir (kqueue_calls_ok pid) s = Ok s'.
Proof.
  unfold Kqueue.start_job, kqueue_calls_ok. cbn -[Kqueue.start_piper].
  match goal with
  | |- context [Kqueue.start_piper ?fd ?f ?pre ?c ?s] =>
      destruct (kqueue_start_piper_ok fd f pre s) as [s1 ->]
  end.
  cbn -[Kqueue.start_piper]. apply kqueue_start_piper_ok.
Qed.

Lemma kqueue_step_start o s dir :
  directories o !! Z.to_nat (Kqueue.directory s) = Some dir →
  ∃ s1, Kqueue.start_job dir
          (kqueue_calls_ok (fresh (Kqueue.children s))) s = Ok s1 ∧
        Kqueue.step o Kqueue.Starting s
          (kqueue_cooperates Kqueue.Starting s)
        = Some (Kqueue.at_fill o (Kqueue.job_started s1)).
Proof.
  intros Hdir.
  destruct (kqueue_start_job_ok dir (fresh (Kqueue.children s)) s)
    as [s1 Hs1].
  exists s1. split; [done|].
  unfold kqueue_cooperates, kqueue_job_ok, Kqueue.step, Kqueue.pid_in_use.
  cbn [Kqueue.fork_pid kqueue_calls_ok].
  rewrite bool_decide_eq_false_2 by apply is_fresh.
  by rewrite Hdir, Hs1.
Qed.

(** While [main] waits in [kevent], a child is running. *)
Lemma kqueue_polling_child o s :
  well_formed o → counted o s → blocked_at o Kqueue.Polling s →
  ∃ pid, head (elements (Kqueue.children s)) = Some pid ∧
         pid ∈ Kqueue.children s ∧ 1 ≤ Kqueue.num_jobs s.
Proof.
  intros [Hm _] Hc [Hf Hl].
  assert (1 ≤ Kqueue.num_jobs s) as Hn.
  { pose proof (num_jobs_pending o s Hc).
    unfold Kqueue.fill_test in Hf. unfold Kqueue.loop_test in Hl.
    destruct (Z.eqb_spec (Kqueue.num_jobs s) 0) as [Hz|Hz]; [|lia].
    simpl in Hl. rewrite Hl, Hz in Hf. revert Hf. compare; done. }
  destruct (elements (Kqueue.children s)) as [|pid l] eqn:E.
  - apply elements_empty_inv in E. apply size_empty_iff in E.
    pose proof (num_jobs_pending o s Hc). lia.
  - exists pid. split; [done|]. split; [|done].
    apply elem_of_elements. rewrite E. by left.
Qed.

(** One call answered by the cooperating environment: the program goes
    on, and less is left to do. *)
Lemma kqueue_cooperative_step o at_call s :
  well_formed o → sound o (Kqueue.Blocked at_call s) →
  ∃ out,
    Kqueue.step o at_call s (kqueue_cooperates at_call s) = Some out ∧
    is_Some (state_of out) ∧
    (calls_left o out < calls_left o (Kqueue.Blocked at_call s))%nat.
Proof.
  intros Ho Hsound.
  assert (∀ out, Kqueue.step o at_call s (kqueue_cooperates at_call s)
                   = Some out → sound o out) as Hnext.
  { intros out. by apply kqueue_step_sound. }
  destruct Hsound as [[Hc Hb] Ht]. simpl in Ht.
  assert (∀ s', counted o s' →
            0 ≤ Kqueue.num_jobs s' ≤ num_directories o ∧
            0 ≤ Kqueue.directory s' ≤ num_directories o) as Hrange.
  { intros s' []. lia. }
  destruct (Hrange s Hc) as [? ?].
  destruct at_call.
  - simpl in Hb.
    assert (is_Some (directories o !! Z.to_nat (Kqueue.directory s)))
      as [dir Hdir].
    { apply lookup_lt_is_Some. unfold Kqueue.fill_test in Hb.
      apply andb_true_iff in Hb as [_ Hq]. apply Z.ltb_lt in Hq.
      destruct Ho, Hc. lia. }
    destruct (kqueue_step_start o s dir Hdir) as (s1 & Hs1 & Hstep).
    eexists. split; [exact Hstep|].
    destruct (Hnext _ Hstep) as [Hr _].
    apply kqueue_start_job_books in Hs1 as (Hd & Hn & _).
    unfold Kqueue.fill_test in Hb. apply andb_true_iff in Hb as [_ Hq].
    apply Z.ltb_lt in Hq.
    unfold Kqueue.at_fill in *.
    destruct (Kqueue.fill_test o (Kqueue.job_started s1)).
    + split; [done|]. simpl. rewrite Hd.
      replace (Z.to_nat (num_directories o - Kqueue.directory s))
        with (S (Z.to_nat (num_directories o - (Kqueue.directory s + 1))))
        by lia.
      apply next_directory_weighs_more. lia.
    + split; [done|]. destruct Hr as [Hc1 _].
      destruct (Hrange _ Hc1) as [? ?]. simpl in *. rewrite Hd in *.
      replace (Z.to_nat (num_directories o - Kqueue.directory s))
        with (S (Z.to_nat (num_directories o - (Kqueue.directory s + 1))))
        by lia.
      apply next_directory_weighs_more. lia.
  - destruct (kqueue_polling_child o s Ho Hc Hb) as (pid & Hhead & Hin & Hn).
    unfold kqueue_cooperates, kqueue_job_exits, Kqueue.step.
    rewrite Hhead. simpl. rewrite bool_decide_eq_true_2 by done.
    eexists. split; [reflexivity|].
    unfold Kqueue.at_loop, Kqueue.at_fill.
    destruct (Kqueue.loop_test o _); [|split; [done|weigh]].
    destruct (Kqueue.fill_test o _); (split; [done|]); weigh.
Qed.

(** From any point of a run of the kqueue program, the jobs may all end:
    then [main] returns. *)
Lemma kqueue_finishes o n out :
  well_formed o → sound o out → is_Some (state_of out) →
  (calls_left o out < n)%nat →
  ∃ more s, Kqueue.exec o out more = Some (Kqueue.Returns 0 s).
Proof.
  intros Ho. revert out.
  induction n as [|n IH]; intros out Hsound [s Hs] Hn; [lia|].
  destruct out as [at_call s'|st s'|t|]; simplify_eq/=.
  - destruct (kqueue_cooperative_step o at_call s Ho Hsound)
      as (out & Hstep & Hstate & Hless).
    destruct (IH out) as (more & s' & Hmore); [|done| |].
    + by eapply kqueue_step_sound.
    + simpl in Hless. lia.
    + exists (kqueue_cooperates at_call s :: more), s'.
      simpl. by rewrite Hstep.
  - destruct Hsound as [(_ & _ & ->) _]. by exists [], s.
Qed.

(** A run of the kqueue program can always be brought to its end, and
    then every directory has had its job started. *)
Lemma kqueue_run_can_finish o answers out :
  well_formed o → Kqueue.run o answers = Some out →
  is_Some (state_of out) →
  ∃ more s,
    Kqueue.run o (answers ++ more) = Some (Kqueue.Returns 0 s) ∧
    Kqueue.started s = job_directories o.
Proof.
  intros Ho Hrun Hstate.
  destruct (kqueue_finishes o (S (calls_left o out)) out Ho)
    as (more & s & Hmore); [exact (kqueue_run_sound o answers out Ho Hrun)|done|lia|].
  exists more, s.
  assert (Kqueue.run o (answers ++ more) = Some (Kqueue.Returns 0 s))
    as Hall.
  { unfold Kqueue.run in *.
    by rewrite ReadFacts.kqueue_exec_app, Hrun. }
  split; [done|].
  by destruct (kqueue_exit_code o _ _ Ho Hall) as (_ & ? & _).
Qed.

End KqueueLiveness.

(** ** One directory and no separator *)

(** [directory] never goes down. *)
Lemma select_step_directory o at_call s a out s' :
  Select.step o at_call s a = Some out → SelectRun.state_of out = Some s' →
  Select.directory s ≤ Select.directory s'.
Proof.
  destruct at_call, a as [c|r|w]; simpl; try done; intros [= <-].
  - destruct (directories o !! _) as [dir|]; [|done].
    destruct (Select.start_job dir c s) as [s1| |] eqn:E; simpl; [|done..].
    intros ->%select_state_of_at_reap.
    apply SelectFacts.select_start_job_books in E as (Hd & _). simpl. lia.
  - destruct (Select.poll r s) as [s1| |] eqn:E; simpl; [|done..].
    intros ->%select_state_of_at_reap.
    apply SelectFacts.select_poll_books in E.
    unfold SelectRun.books in E. injection E as -> _ _ _ _. done.
  - destruct w as [| |st]; [done|..];
      intros ->%select_state_of_at_reap; simpl; lia.
Qed.

Lemma select_exec_directory o k out answers out' :
  (∀ s, SelectRun.state_of out = Some s → k ≤ Select.directory s) →
  Select.exec o out answers = Some out' →
  ∀ s, SelectRun.state_of out' = Some s → k ≤ Select.directory s.
Proof.
  apply (SelectMemory.select_exec_invariant
           (λ out, ∀ s, SelectRun.state_of out = Some s →
                        k ≤ Select.directory s)).
  intros at_call s a out1 Hk Hstep s' Hs'.
  specialize (Hk s eq_refl).
  pose proof (select_step_directory o at_call s a out1 s' Hstep Hs'). lia.
Qed.

Lemma kqueue_state_of_at_loop o s s' :
  (KqueueRun.state_of (Kqueue.at_fill o s) = Some s' → s' = s) ∧
  (KqueueRun.state_of (Kqueue.at_loop o s) = Some s' → s' = s).
Proof.
  unfold Kqueue.at_loop, Kqueue.at_fill.
  destruct (Kqueue.loop_test o s), (Kqueue.fill_test o s); simpl;
    split; congruence.
Qed.

Lemma kqueue_step_directory o at_call s a out s' :
  Kqueue.step o at_call s a = Some out → KqueueRun.state_of out = Some s' →
  Kqueue.directory s ≤ Kqueue.directory s'.
Proof.
  destruct at_call, a as [c|[|ident data|ident data ev_eof c]]; simpl;
    try done.
  - destruct (Kqueue.pid_in_use c s); [done|]. intros [= <-].
    destruct (directories o !! _) as [dir|]; [|done].
    destruct (Kqueue.start_job dir c s) as [s1| |] eqn:E; simpl; [|done..].
    intros ->%kqueue_state_of_at_loop.
    apply KqueueFacts.kqueue_start_job_books in E as (Hd & _). simpl. lia.
  - by intros [= <-].
  - case_bool_decide; [|done]. intros [= <-].
    intros ->%kqueue_state_of_at_loop. simpl. lia.
  - destruct (Kqueue.readers s !! ident) as [piper|]; simpl; [|done].
    destruct (Kqueue.would_block c); [done|]. intros [= <-].
    destruct (Kqueue.readable piper data ev_eof c s) as [s1| |] eqn:E;
      simpl; [|done..].
    intros ->%kqueue_state_of_at_loop.
    apply KqueueFacts.kqueue_readable_books in E.
    unfold KqueueRun.books in E. injection E as -> _ _ _ _. done.
Qed.

Lemma kqueue_exec_directory o k out answers out' :
  (∀ s, KqueueRun.state_of out = Some s → k ≤ Kqueue.directory s) →
  Kqueue.exec o out answers = Some out' →
  ∀ s, KqueueRun.state_of out' = Some s → k ≤ Kqueue.directory s.
Proof.
  apply (KqueueMemory.kqueue_exec_invariant
           (λ out, ∀ s, KqueueRun.state_of out = Some s →
                        k ≤ Kqueue.directory s)).
  intros at_call s a out1 Hk Hstep s' Hs'.
  specialize (Hk s eq_refl).
  pose proof (kqueue_step_directory o at_call s a out1 s' Hstep Hs'). lia.
Qed.

Section OneDirectory.
Variables (m : Z) (d : string) (cmd : list string).
Hypothesis Hm : 1 ≤ m.

Lemma one_directory_well_formed : well_formed (one_directory m d cmd).
Proof. split; simpl; lia. Qed.

(** [main] of the select program goes straight to [start_job]. *)
Lemma select_one_directory_first :
  Select.run (one_directory m d cmd) [] = Some (Select.Blocked Select.Starting Select.initial).
Proof.
  unfold Select.run, Select.at_loop, Select.at_fill, Select.loop_test,
    Select.fill_test. simpl.
  by destruct (Z.ltb_spec 0 m); [|lia].
Qed.

(** After the one [start_job], [main] waits in [select]. *)
Lemma select_one_directory_started c s1 :
  Select.start_job d c Select.initial = Ok s1 →
  Select.run (one_directory m d cmd) [Select.job_answer c]
    = Some (Select.Blocked Select.Polling (Select.job_started s1)) ∧
  Select.started s1 = [d].
Proof.
  intros Hjob.
  pose proof (SelectFacts.select_start_job_books _ _ _ _ Hjob)
    as (Hd & Hn & _ & Hst & _).
  split; [|done].
  assert (Select.fill_test (one_directory m d cmd) Select.initial = true) as Hfill.
  { unfold Select.fill_test. simpl. by destruct (Z.ltb_spec 0 m); [|lia]. }
  assert (SelectRun.orderly (one_directory m d cmd) (Select.job_started s1)) as Hs1.
  { eapply (select_orderly_job_started (one_directory m d cmd) d c Select.initial); try done.
    apply select_orderly_initial, one_directory_well_formed. }
  destruct (select_fd_sets_fit (one_directory m d cmd) _ ltac:(by vm_compute) Hs1)
    as [sets Hsets].
  unfold Select.run.
  replace (Select.at_loop (one_directory m d cmd) Select.initial)
    with (Select.Blocked Select.Starting Select.initial)
    by (symmetry; injection select_one_directory_first; done).
  simpl. rewrite Hjob. simpl.
  unfold Select.at_fill. rewrite Hsets.
  unfold Select.fill_test. simpl. rewrite Hd. simpl.
  by rewrite andb_false_r.
Qed.

Lemma select_one_directory_stops c t :
  Select.start_job d c Select.initial = Stop t →
  Select.run (one_directory m d cmd) [Select.job_answer c] = Some (Select.Aborted t).
Proof.
  intros Hjob. unfold Select.run.
  replace (Select.at_loop (one_directory m d cmd) Select.initial)
    with (Select.Blocked Select.Starting Select.initial)
    by (symmetry; injection select_one_directory_first; done).
  simpl. by rewrite Hjob.
Qed.

(** From the first call on, the one job is started, and no other. *)
Lemma select_one_directory_only c answers out s :
  Select.run (one_directory m d cmd) (Select.job_answer c :: answers) = Some out →
  SelectRun.state_of out = Some s → Select.started s = [d].
Proof.
  intros Hrun Hs.
  pose proof (SelectFacts.select_run_reachable (one_directory m d cmd) _ _
                one_directory_well_formed Hrun) as Hr.
  assert (SelectRun.counted (one_directory m d cmd) s) as Hc.
  { destruct out; simplify_eq/=; by destruct Hr. }
  assert (1 ≤ Select.directory s) as Hone.
  { revert Hrun. unfold Select.run.
    replace (Select.at_loop (one_directory m d cmd) Select.initial)
      with (Select.Blocked Select.Starting Select.initial)
      by (symmetry; injection select_one_directory_first; done).
    simpl.
    destruct (Select.start_job d c Select.initial) as [s1| |] eqn:Hjob;
      simpl.
    - intros Hexec.
      apply (select_exec_directory (one_directory m d cmd) 1 _ _ _) with (s := s) in Hexec;
        [done| |done].
      intros s2 ->%select_state_of_at_reap.
      apply SelectFacts.select_start_job_books in Hjob as (Hd & _).
      simpl in *. lia.
    - destruct answers; simpl; [|done]. intros [= <-]. done.
    - destruct answers; simpl; [|done]. intros [= <-]. done. }
  destruct Hc. simpl in *.
  rewrite started_in_order.
  replace (Z.to_nat (Select.directory s)) with 1%nat by lia. done.
Qed.

Lemma select_one_directory_returns :
  ∃ answers st s,
    Select.run (one_directory m d cmd) answers = Some (Select.Returns st s) ∧
    Select.started s = [d].
Proof.
  destruct (SelectLiveness.select_run_can_finish (one_directory m d cmd) [] _
              one_directory_well_formed ltac:(by vm_compute)
              select_one_directory_first)
    as (more & st & s & Hrun & Hst); [by eexists|].
  by exists more, st, s.
Qed.

(** [main] of the kqueue program goes straight to [start_job]. *)
Lemma kqueue_one_directory_first :
  Kqueue.run (one_directory m d cmd) [] = Some (Kqueue.Blocked Kqueue.Starting Kqueue.initial).
Proof.
  unfold Kqueue.run, Kqueue.at_loop, Kqueue.at_fill, Kqueue.loop_test,
    Kqueue.fill_test. simpl.
  by destruct (Z.ltb_spec 0 m); [|lia].
Qed.

Lemma kqueue_one_directory_started c s1 :
  Kqueue.start_job d c Kqueue.initial = Ok s1 →
  Kqueue.run (one_directory m d cmd) [Kqueue.job_answer c]
    = Some (Kqueue.Blocked Kqueue.Polling (Kqueue.job_started s1)) ∧
  Kqueue.started s1 = [d].
Proof.
  intros Hjob.
  pose proof (KqueueFacts.kqueue_start_job_books _ _ _ _ Hjob)
    as (Hd & Hn & Hst & _).
  split; [|done].
  unfold Kqueue.run.
  replace (Kqueue.at_loop (one_directory m d cmd) Kqueue.initial)
    with (Kqueue.Blocked Kqueue.Starting Kqueue.initial)
    by (symmetry; injection kqueue_one_directory_first; done).
  simpl.
  replace (Kqueue.pid_in_use c Kqueue.initial) with false
    by (unfold Kqueue.pid_in_use; by destruct (Kqueue.fork_pid c)).
  rewrite Hjob. simpl.
  unfold Kqueue.at_fill, Kqueue.fill_test. simpl. rewrite Hd. simpl.
  by rewrite andb_false_r.
Qed.

Lemma kqueue_one_directory_stops c t :
  Kqueue.start_job d c Kqueue.initial = Stop t →
  Kqueue.run (one_directory m d cmd) [Kqueue.job_answer c] = Some (Kqueue.Aborted t).
Proof.
  intros Hjob. unfold Kqueue.run.
  replace (Kqueue.at_loop (one_directory m d cmd) Kqueue.initial)
    with (Kqueue.Blocked Kqueue.Starting Kqueue.initial)
    by (symmetry; injection kqueue_one_directory_first; done).
  simpl.
  replace (Kqueue.pid_in_use c Kqueue.initial) with false
    by (unfold Kqueue.pid_in_use; by destruct (Kqueue.fork_pid c)).
  by rewrite Hjob.
Qed.

Lemma kqueue_one_directory_only c answers out s :
  Kqueue.run (one_directory m d cmd) (Kqueue.job_answer c :: answers) = Some out →
  KqueueRun.state_of out = Some s → Kqueue.started s = [d].
Proof.
  intros Hrun Hs.
  pose proof (KqueueFacts.kqueue_run_reachable (one_directory m d cmd) _ _
                one_directory_well_formed Hrun) as Hr.
  assert (KqueueRun.counted (one_directory m d cmd) s) as Hc.
  { destruct out; simplify_eq/=; by destruct Hr. }
  assert (1 ≤ Kqueue.directory s) as Hone.
  { revert Hrun. unfold Kqueue.run.
    replace (Kqueue.at_loop (one_directory m d cmd) Kqueue.initial)
      with (Kqueue.Blocked Kqueue.Starting Kqueue.initial)
      by (symmetry; injection kqueue_one_directory_first; done).
    simpl.
    replace (Kqueue.pid_in_use c Kqueue.initial) with false
      by (unfold Kqueue.pid_in_use; by destruct (Kqueue.fork_pid c)).
    simpl.
    destruct (Kqueue.start_job d c Kqueue.initial) as [s1| |] eqn:Hjob;
      simpl.
    - intros Hexec.
      apply (kqueue_exec_directory (one_directory m d cmd) 1 _ _ _) with (s := s) in Hexec;
        [done| |done].
      intros s2 ->%kqueue_state_of_at_loop.
      apply KqueueFacts.kqueue_start_job_books in Hjob as (Hd & _).
      simpl in *. lia.
    - destruct answers; simpl; [|done]. intros [= <-]. done.
    - destruct answers; simpl; [|done]. intros [= <-]. done. }
  destruct Hc. simpl in *.
  rewrite started_in_order.
  replace (Z.to_nat (Kqueue.directory s)) with 1%nat by lia. done.
Qed.

Lemma kqueue_one_directory_returns :
  ∃ answers s,
    Kqueue.run (one_directory m d cmd) answers = Some (Kqueue.Returns 0 s) ∧
    Kqueue.started s = [d].
Proof.
  destruct (KqueueLiveness.kqueue_run_can_finish (one_directory m d cmd) [] _
              one_directory_well_formed kqueue_one_directory_first)
    as (more & s & Hrun & Hst); [by eexists|].
  by exists more, s.
Qed.

End OneDirectory.

(** C8.  With no separator among at least two arguments, the first is
    the one directory and the others are the command: [parse_options]
    sets one directory.  Exactly one job is run, in either program: the
    first system call of [main] is the [start_job] for that directory; when
    it succeeds the job is started and [main] waits for its events, and
    when it fails the process ends through [err]; from then on, at every
    point of every run, the jobs started are that one job; a run that
    returns has started it; and there are runs that return. *)
Theorem single_directory_needs_no_separator (long_bits : Z)
    (usage_text : string) (is_separator : string → bool)
    (opts : list getopt_ret) (m : Z) (d : string) (cmd : list string) :
  parse_flags long_bits 1 opts = Ok m → cmd ≠ [] →
  no_separator is_separator (d :: cmd) →
  let o := {| max_jobs := m; num_directories := 1; directories := d :: cmd;
              command := cmd |} in
  parse_options long_bits usage_text is_separator opts (d :: cmd) = Ok o ∧
  job_directories o = [d] ∧
  (∀ answers st s,
     Select.run o answers = Some (Select.Returns st s) →
     Select.started s = [d]) ∧
  (∀ answers st s,
     Kqueue.run o answers = Some (Kqueue.Returns st s) →
     Kqueue.started s = [d]) ∧
  (Select.run o [] = Some (Select.Blocked Select.Starting Select.initial) ∧
   (∀ c s1,
      Select.start_job d c Select.initial = Ok s1 →
      Select.run o [Select.job_answer c]
        = Some (Select.Blocked Select.Polling (Select.job_started s1)) ∧
      Select.started s1 = [d]) ∧
   (∀ c t,
      Select.start_job d c Select.initial = Stop t →
      Select.run o [Select.job_answer c] = Some (Select.Aborted t)) ∧
   (∀ c answers out s,
      Select.run o (Select.job_answer c :: answers) = Some out →
      SelectRun.state_of out = Some s → Select.started s = [d]) ∧
   (∃ answers st s,
      Select.run o answers = Some (Select.Returns st s) ∧
      Select.started s = [d])) ∧
  (Kqueue.run o [] = Some (Kqueue.Blocked Kqueue.Starting Kqueue.initial) ∧
   (∀ c s1,
      Kqueue.start_job d c Kqueue.initial = Ok s1 →
      Kqueue.run o [Kqueue.job_answer c]
        = Some (Kqueue.Blocked Kqueue.Polling (Kqueue.job_started s1)) ∧
      Kqueue.started s1 = [d]) ∧
   (∀ c t,
      Kqueue.start_job d c Kqueue.initial = Stop t →
      Kqueue.run o [Kqueue.job_answer c] = Some (Kqueue.Aborted t)) ∧
   (∀ c answers out s,
      Kqueue.run o (Kqueue.job_answer c :: answers) = Some out →
      KqueueRun.state_of out = Some s → Kqueue.started s = [d]) ∧
   (∃ answers s,
      Kqueue.run o answers = Some (Kqueue.Returns 0 s) ∧
      Kqueue.started s = [d])).
Proof.
  intros Hflags Hcmd Hno o.
  assert (1 ≤ m) as Hm by (by eapply (parse_flags_ge_1 _ 1)).
  assert (well_formed o) as Ho by (split; simpl; lia).
  split; [by eapply parse_single_directory|]. split; [done|].
  split; [|split; [|split]].
  - intros answers st s Hrun.
    by destruct (select_exit_code o _ _ Ho Hrun) as (_ & _ & -> & _).
  - intros answers st s Hrun.
    by destruct (kqueue_exit_code o _ _ Ho Hrun) as (_ & -> & _).
  - split; [by apply select_one_directory_first|].
    split; [by apply select_one_directory_started|].
    split; [by apply select_one_directory_stops|].
    split; [by apply select_one_directory_only|].
    by apply select_one_directory_returns.
  - split; [by apply kqueue_one_directory_first|].
    split; [by apply kqueue_one_directory_started|].
    split; [by apply kqueue_one_directory_stops|].
    split; [by apply kqueue_one_directory_only|].
    by apply kqueue_one_directory_returns.
Qed.

(** [within d1 echo hi]: the one job is started in [d1], with its read
    ends on the descriptors 3 and 5, and [main] waits in [select]. *)
Lemma single_directory_needs_no_separator_witness :
  parse_flags 64 1 [] = Ok 1 ∧ ["echo"; "hi"] ≠ [] ∧
  no_separator Select.is_separator ["d1"; "echo"; "hi"] ∧
  ∃ o,
    parse_options 64 Select.usage_text Select.is_separator []
      ["d1"; "echo"; "hi"] = Ok o ∧
    job_directories o = ["d1"] ∧ command o = ["echo"; "hi"] ∧
    Select.run o [] = Some (Select.Blocked Select.Starting Select.initial) ∧
    ∃ s,
      Select.run o [select_job_ok] = Some (Select.Blocked Select.Polling s) ∧
      Select.started s = ["d1"] ∧ Select.num_jobs s = 1 ∧
      ∀ answers out s',
        Select.run o (select_job_ok :: answers) = Some out →
        SelectRun.state_of out = Some s' → Select.started s' = ["d1"].
Proof.
  assert (no_separator Select.is_separator ["d1"; "echo"; "hi"]) as Hno.
  { by repeat constructor. }
  split; [done|]. split; [done|]. split; [done|].
  destruct (single_directory_needs_no_separator 64 Select.usage_text
              Select.is_separator [] 1 "d1" ["echo"; "hi"] eq_refl
              ltac:(done) Hno)
    as (Hparse & Hdirs & _ & _ & (Hfirst & Hjob & _ & Honly & _) & _).
  eexists. split; [exact Hparse|]. split; [done|]. split; [done|].
  split; [exact Hfirst|].
  destruct (SelectLiveness.select_start_job_ok "d1" Select.initial)
    as [s1 Hs1].
  destruct (Hjob select_calls_ok s1 Hs1) as [Hrun Hst].
  exists (Select.job_started s1).
  split; [exact Hrun|]. split; [exact Hst|].
  split.
  - apply SelectFacts.select_start_job_books in Hs1 as (_ & Hn & _).
    simpl. rewrite Hn. done.
  - intros answers out s'. apply Honly.
Defined.

(** ** Jobs in flight, and jobs that are never started *)

(** C3.  The select program can wait for nothing with a directory left.
    [within d1 d2 - true] runs one job at a time.  Both pipes of the job in
    [d1] are at their end, and [waitpid] with WNOHANG finds no child that
    has ended yet.  [main] then builds an empty set and calls
    [select(0, {}, NULL, NULL, NULL)] with [d2] not started.  No
    descriptor is in the set, so whatever becomes readable is not looked
    at: the call comes back only when a signal interrupts it.  When it
    does, the child is collected and [d2] is started; when SIGCHLD has come
    in before the call, no signal is left to come.  The kqueue program at
    the same point waits with the exit of the child registered in its
    queue, where the event is kept until it is fetched. *)
Theorem select_waits_for_nothing_with_a_directory_left :
  let argv := ["d1"; "d2"; "-"; "true"] in
  let answers :=
    [select_job_ok; select_job_ends 3 5 [];
     Select.waitpid_answer Select.waitpid_none] in
  ∃ s,
    Select.main 64 [] argv answers = Some (Select.Blocked Select.Polling s) ∧
    Select.started s = ["d1"] ∧ Select.num_jobs s = 1 ∧
    Select.reaped s = [] ∧ Select.pipers s = [] ∧
    Select.fd_sets (Select.heap s) (Select.pipers s) ∅ 0 = Ok (∅, 0) ∧
    (∀ ready fd, Select.fd_isset ∅ 0 ready fd = None) ∧
    (∀ ready,
       Select.main 64 [] argv
         (answers ++ [Select.select_answer (Select.select_ready ready)])
       = Some (Select.Blocked Select.Reaping s)) ∧
    (∃ s',
       Select.main 64 [] argv
         (answers ++ [Select.select_answer (Select.select_fail EINTR);
                      select_job_collected 0; select_job_ok])
       = Some (Select.Blocked Select.Polling s') ∧
       Select.started s' = ["d1"; "d2"]) ∧
    ∃ k,
      Kqueue.main 64 [] ["d1"; "d2"; "--"; "true"] true
        [kqueue_job_ok 100; kqueue_pipe_ends 4 []; kqueue_pipe_ends 6 []]
      = Some (Kqueue.Blocked Kqueue.Polling k) ∧
      Kqueue.started k = ["d1"] ∧ Kqueue.children k = {[100]}.
Proof.
  cbn zeta. eexists. split; [vm_compute; reflexivity|].
  split; [done|]. split; [done|]. split; [done|]. split; [done|].
  split; [done|]. split.
  { intros ready fd. unfold Select.fd_isset.
    by rewrite bool_decide_eq_false_2 by set_solver. }
  split.
  { intros ready. vm_compute. reflexivity. }
  split.
  { eexists. split; [vm_compute; reflexivity|]. done. }
  eexists. split; [vm_compute; reflexivity|]. split; [done|].
  apply (bool_decide_unpack _). by vm_compute.
Qed.

(** X27.  For a limit [max_jobs] of at least 1 and any number of
    directories, at every point of a run, in either program, the jobs in
    flight ([num_jobs], the jobs started and not yet collected) are at most
    [max_jobs]; the jobs started are the first directories, in order; the
    program waits for events only with [min (num_directories, max_jobs +
    collected)] jobs started; and when [main] returns, every directory has
    had its job started. *)
Theorem jobs_in_flight_are_bounded (o : options) (Ho : well_formed o) :
  (∀ answers out s,
     Select.run o answers = Some out → SelectRun.state_of out = Some s →
     let started := Z.of_nat (length (Select.started s)) in
     let collected := Z.of_nat (length (Select.reaped s)) in
     Select.num_jobs s = started - collected ∧
     Select.num_jobs s ≤ max_jobs o ∧
     Select.started s = take (length (Select.started s)) (directories o) ∧
     (out = Select.Blocked Select.Polling s →
      started = Z.min (num_directories o) (max_jobs o + collected)) ∧
     (∀ st, out = Select.Returns st s →
      Select.started s = job_directories o)) ∧
  (∀ answers out s,
     Kqueue.run o answers = Some out → KqueueRun.state_of out = Some s →
     let started := Z.of_nat (length (Kqueue.started s)) in
     let collected := Z.of_nat (length (Kqueue.exited s)) in
     Kqueue.num_jobs s = started - collected ∧
     Kqueue.num_jobs s ≤ max_jobs o ∧
     Kqueue.started s = take (length (Kqueue.started s)) (directories o) ∧
     (out = Kqueue.Blocked Kqueue.Polling s →
      started = Z.min (num_directories o) (max_jobs o + collected)) ∧
     (∀ st, out = Kqueue.Returns st s →
      Kqueue.started s = job_directories o)).
Proof.
  split; intros answers out s Hrun Hs started collected.
  - pose proof (select_exit_code o answers out Ho Hrun) as Hexit.
    apply SelectFacts.select_run_reachable in Hrun; [|done].
    assert (SelectRun.counted o s) as [].
    { destruct out; simplify_eq/=; by destruct Hrun. }
    subst started collected. repeat split; try lia.
    + rewrite started_in_order at 1. f_equal. lia.
    + intros ->. destruct Hrun as [_ [Hf _]].
      unfold Select.fill_test in Hf. apply andb_false_iff in Hf.
      destruct Hf as [Hf|Hf]; apply Z.ltb_ge in Hf; lia.
    + intros st ->. apply Hexit.
  - pose proof (kqueue_exit_code o answers out Ho Hrun) as Hexit.
    apply KqueueFacts.kqueue_run_reachable in Hrun; [|done].
    assert (KqueueRun.counted o s) as [].
    { destruct out; simplify_eq/=; by destruct Hrun. }
    subst started collected. repeat split; try lia.
    + rewrite started_in_order at 1. f_equal. lia.
    + intros ->. destruct Hrun as [_ [Hf _]].
      unfold Kqueue.fill_test in Hf. apply andb_false_iff in Hf.
      destruct Hf as [Hf|Hf]; apply Z.ltb_ge in Hf; lia.
    + intros st ->. apply Hexit.
Qed.

(** [within -j 2 a b c - make], blocked in [select] with two jobs
    started. *)
Lemma jobs_in_flight_are_bounded_witness :
  well_formed three_directories ∧
  ∃ s,
    Select.run three_directories [select_job_ok; select_job_ok]
      = Some (Select.Blocked Select.Polling s) ∧
    Select.num_jobs s ≤ 2 ∧ Select.started s = ["a"; "b"] ∧
    Z.of_nat (length (Select.started s)) = Z.min 3 (2 + 0).
Proof.
  assert (well_formed three_directories) as Ho.
  { split; simpl; lia. }
  split; [done|]. eexists. split; [vm_compute; reflexivity|].
  destruct (jobs_in_flight_are_bounded three_directories Ho) as [Hs _].
  edestruct (Hs [select_job_ok; select_job_ok]) as (_ & Hle & _ & Hmin & _);
    [vm_compute; reflexivity|reflexivity|].
  split; [exact Hle|]. split; [done|]. by apply Hmin.
Defined.

(** ** The remaining witnesses and the value of [-j] *)

(** C10, as stated, fails where [long] has 64 bits: the numeric prefix of
    ["4294967296"] is 2^32, which the conversion to [int] turns into 0, and
    [-j 4294967296] is turned down. *)
Lemma large_jobs_value_is_rejected :
  ¬ (∀ a v, Libc.numeric_prefix a = Some v → 1 ≤ v → ∃ m, accepted 64 a m).
Proof.
  intros H. destruct (H "4294967296" 4294967296) as [m Hm]; [done..|].
  specialize (Hm 1 []). by vm_compute in Hm.
Qed.

(** C10, amended.  The value of [-j] is the decimal number at the head of
    the argument, after white space and a sign, and what follows the digits
    is not looked at.  A number from 1 to INT_MAX is accepted as the limit
    (["3x"] gives 3).  In general the number is clamped to the range of
    [long] and converted to [int], and the argument is accepted exactly when
    the result is at least 1.  An argument without a number gives 0 and is
    turned down with exit code 1. *)
Theorem jobs_value_is_a_numeric_prefix (long_bits : Z) (a : string)
    (Hlong : 32 ≤ long_bits) :
  (∀ v, Libc.numeric_prefix a = Some v → 1 ≤ v ≤ Libc.INT_MAX →
        accepted long_bits a v) ∧
  (let m := Libc.to_int (Libc.strtol long_bits a) in
   (1 ≤ m → accepted long_bits a m) ∧ (m < 1 → rejected long_bits a)) ∧
  (Libc.numeric_prefix a = None → rejected long_bits a) ∧
  (∀ v c t, Libc.numeric_prefix a = Some v → Libc.digit c = None →
            Libc.numeric_prefix (a +:+ String c t) = Some v) ∧
  Libc.numeric_prefix "3x" = Some 3 ∧ accepted long_bits "3x" 3.
Proof.
  assert (∀ b v, Libc.numeric_prefix b = Some v → 1 ≤ v ≤ Libc.INT_MAX →
                 accepted long_bits b v) as Hsmall.
  { intros b v Hv Hrange max_jobs opts. rewrite parse_flags_jobs.
    rewrite (strtol_in_int _ _ v) by (unfold Libc.INT_MAX in *; done || lia).
    cbn zeta. by compare. }
  split; [apply Hsmall|]. split; [|split; [|split; [|split]]].
  - cbn zeta. split; intros Hm max_jobs opts; rewrite parse_flags_jobs;
      cbn zeta; by compare.
  - intros Hnone max_jobs opts. rewrite parse_flags_jobs.
    unfold Libc.strtol. by rewrite Hnone.
  - intros v c t. apply numeric_prefix_app.
  - done.
  - apply Hsmall; [done|]. unfold Libc.INT_MAX. lia.
Qed.

(** [-j 3x] where [long] has 64 bits. *)
Lemma jobs_value_is_a_numeric_prefix_witness :
  32 ≤ 64 ∧
  parse_flags 64 1 [jobs_option "3x"] = Ok 3 ∧
  parse_flags 64 1 [jobs_option "x3"]
    = Stop (Exited 1 "invalid -j: x3").
Proof.
  assert (32 ≤ 64) as Hlong by lia.
  split; [done|].
  destruct (jobs_value_is_a_numeric_prefix 64 "3x" Hlong)
    as (_ & _ & _ & _ & _ & H3).
  destruct (jobs_value_is_a_numeric_prefix 64 "x3" Hlong)
    as (_ & _ & Hx & _).
  split; [apply (H3 1 [])|]. by apply (Hx eq_refl 1 []).
Defined.

(** [within a b -- make -- x]. *)
Lemma first_separator_splits_witness :
  parse_flags 64 1 [] = Ok 1 ∧
  no_separator Kqueue.is_separator ["a"; "b"] ∧
  Kqueue.is_separator "--" = true ∧
  ["a"; "b"] ≠ [] ∧ ["make"; "--"; "x"] ≠ [] ∧
  ∃ o,
    parse_options 64 Kqueue.usage_text Kqueue.is_separator []
      ["a"; "b"; "--"; "make"; "--"; "x"] = Ok o ∧
    job_directories o = ["a"; "b"] ∧ command o = ["make"; "--"; "x"].
Proof.
  assert (no_separator Kqueue.is_separator ["a"; "b"]) as Hno.
  { by repeat constructor. }
  split; [done|]. split; [done|]. split; [done|].
  split; [done|]. split; [done|].
  destruct (first_separator_splits 64 Kqueue.usage_text Kqueue.is_separator
              [] 1 ["a"; "b"] "--" ["make"; "--"; "x"] eq_refl Hno eq_refl
              ltac:(done) ltac:(done)) as (Hparse & Hdirs & Hcmd).
  eexists. split; [exact Hparse|]. by split.
Defined.

(** [within -j 2 a b c - make], blocked in [select]: a read that would
    block, and a read that fails with EIO. *)
Lemma would_block_goes_on_other_failures_abort_witness :
  well_formed three_directories ∧
  only_would_block {[3 := would_block_script]} ∧
  Select.run three_directories [select_job_ok; select_job_ok]
    = Some (Select.Blocked Select.Polling two_started) ∧
  Select.heap two_started !! 1%positive
    = Some {| in_fd := 3; out_file := stdout; prefix := "a";
              newline := true |} ∧
  Select.run three_directories
    ([select_job_ok; select_job_ok]
       ++ [Select.select_answer
             (Select.select_ready {[3 := would_block_script]})])
    = Some (Select.at_reap three_directories two_started) ∧
  Select.run three_directories
    ([select_job_ok; select_job_ok]
       ++ [Select.select_answer
             (Select.select_ready
                {[3 := {| chunks := []; ending := read_fail EIO |}]})])
    = Some (Select.Aborted (Exited 1 "read")).
Proof.
  assert (well_formed three_directories) as Ho.
  { split; simpl; lia. }
  assert (only_would_block {[3 := would_block_script]}) as Hready.
  { by intros fd r [_ <-]%lookup_singleton_Some. }
  assert (Select.run three_directories [select_job_ok; select_job_ok]
            = Some (Select.Blocked Select.Polling two_started)) as Hrun.
  { vm_compute. reflexivity. }
  assert (Select.heap two_started !! 1%positive
            = Some {| in_fd := 3; out_file := stdout; prefix := "a";
                      newline := true |}) as Hp.
  { vm_compute. reflexivity. }
  split; [done|]. split; [done|]. split; [done|]. split; [done|].
  destruct (would_block_goes_on_other_failures_abort three_directories Ho)
    as (Hgo & _ & Hstop & _).
  split.
  - exact (proj2 (Hgo _ _ _ Hrun Hready)).
  - exact (Hstop _ _ {[3 := {| chunks := []; ending := read_fail EIO |}]}
             1%positive _ {| chunks := []; ending := read_fail EIO |} EIO
             Hrun Hp eq_refl eq_refl ltac:(done)).
Defined.

(** * Further properties of the programs *)

(** ** The command line *)

Lemma parse_flags_from long_bits m0 opts m :
  parse_flags long_bits m0 opts = Ok m ↔
  Forall (valid_jobs long_bits) opts ∧
  m = default m0 (jobs_value long_bits <$> last opts).
Proof.
  revert m0. induction opts as [|o opts IH]; intros m0; simpl.
  { split; [intros [= <-]; by split|intros [_ ->]; done]. }
  rewrite Forall_cons. unfold valid_jobs at 1.
  change (Libc.to_int (Libc.strtol long_bits (optarg o)))
    with (jobs_value long_bits o).
  destruct (Ascii.eqb_spec (opt_char o) "j") as [Hj|Hj];
    [|split; [done|tauto]].
  destruct (Z.ltb_spec (jobs_value long_bits o) 1) as [Hlt|Hge].
  { split; [done|]. intros [[[_ ?] _] _]. lia. }
  rewrite IH, last_cons. destruct (last opts); simpl; tauto.
Qed.

(** X1.  The [while] loop over [getopt] goes through exactly when every
    option is a [-j] with a value, as converted, of at least 1; the limit
    is then the value of the last [-j], and 1 when there is none. *)
Theorem last_jobs_option_wins (long_bits : Z) (opts : list getopt_ret)
    (m : Z) :
  parse_flags long_bits 1 opts = Ok m ↔
  Forall (valid_jobs long_bits) opts ∧
  m = default 1 (jobs_value long_bits <$> last opts).
Proof. apply parse_flags_from. Qed.

Lemma to_int_range x : - 2 ^ 31 ≤ Libc.to_int x ≤ Libc.INT_MAX.
Proof.
  unfold Libc.to_int, Libc.INT_MAX.
  pose proof (Z.mod_pos_bound (x + 2 ^ 31) (2 ^ 32)). lia.
Qed.

Lemma parse_flags_range long_bits m0 opts m :
  1 ≤ m0 ≤ Libc.INT_MAX → parse_flags long_bits m0 opts = Ok m →
  1 ≤ m ≤ Libc.INT_MAX.
Proof.
  intros Hm0 [Hall ->]%parse_flags_from.
  destruct (last opts) as [o|] eqn:Hlast; simpl; [|done].
  apply last_Some_elem_of in Hlast.
  rewrite Forall_forall in Hall. destruct (Hall o Hlast) as [_ Hge].
  split; [done|]. apply to_int_range.
Qed.

Lemma no_separator_take is_separator n l :
  no_separator is_separator l → no_separator is_separator (take n l).
Proof. apply Forall_take. Qed.

(** What [parse_options] leaves when it returns. *)
Lemma parse_options_ok long_bits usage_text is_separator opts argv o :
  parse_options long_bits usage_text is_separator opts argv = Ok o →
  parse_flags long_bits 1 opts = Ok (max_jobs o) ∧
  directories o = argv ∧
  1 ≤ num_directories o < Z.of_nat (length argv) ∧
  no_separator is_separator (job_directories o) ∧
  command o ≠ [] ∧
  (num_directories o = 1 ∧ no_separator is_separator argv ∧
   argv = job_directories o ++ command o
   ∨ ∃ sep, is_separator sep = true ∧
            argv = job_directories o ++ sep :: command o).
Proof.
  unfold parse_options.
  destruct (parse_flags long_bits 1 opts) as [m| |] eqn:Hm;
    cbn [mbind result_bind]; [|done..].
  destruct (Z.ltb_spec (Z.of_nat (length argv)) 2) as [Hlt|Hge]; [done|].
  destruct (first_separator is_separator argv)
    as [Hno|(before & a & after & -> & Hno & Ha)].
  - rewrite split_args_none by done. intros [= <-].
    unfold job_directories. simpl.
    split; [done|]. split; [done|]. split; [lia|].
    split; [by apply no_separator_take|].
    split; [|left; split; [done|]; split; [done|]; by rewrite take_drop].
    intros Hd. apply (f_equal length) in Hd. rewrite length_drop in Hd.
    simpl in Hd. lia.
  - rewrite split_args_first by done. cbn zeta.
    rewrite length_app in *. simpl length in *.
    destruct (_ || _) eqn:Hbad; [done|]. intros [= <-].
    apply orb_false_iff in Hbad as [Hi Hlast].
    apply Z.ltb_ge in Hi. apply Z.leb_gt in Hlast.
    unfold job_directories. simpl.
    replace (Z.to_nat (0 + Z.of_nat (length before))) with (length before)
      by lia.
    replace (Z.to_nat (0 + Z.of_nat (length before) + 1))
      with (length (before ++ [a])) by (rewrite length_app; simpl; lia).
    rewrite take_app_length.
    rewrite (cons_middle a before after), app_assoc, drop_app_length.
    split; [done|]. split; [by rewrite <- app_assoc|]. split; [lia|].
    split; [done|]. split; [|right; exists a; by rewrite <- app_assoc].
    intros ->. simpl in *. lia.
Qed.

Lemma parse_options_well_formed long_bits usage_text is_separator opts argv
    o :
  parse_options long_bits usage_text is_separator opts argv = Ok o →
  well_formed o.
Proof.
  intros (Hm & Hd & Hn & _)%parse_options_ok.
  apply parse_flags_range in Hm; [|unfold Libc.INT_MAX; lia].
  split; [lia|]. rewrite Hd. lia.
Qed.

(** X2.  When [parse_options] returns, in either program, the limit is
    between 1 and INT_MAX, there is at least one directory and the command
    is not empty; [directories] is the argument vector, which is the
    directories followed by the command when it holds no separator (then
    there is one directory), and otherwise the directories, none of them a
    separator, a separator, and the command. *)
Theorem parsed_command_line (long_bits : Z) (usage_text : string)
    (is_separator : string → bool) (opts : list getopt_ret)
    (argv : list string) (o : options)
    (Hparse :
       parse_options long_bits usage_text is_separator opts argv = Ok o) :
  well_formed o ∧
  1 ≤ max_jobs o ≤ Libc.INT_MAX ∧
  directories o = argv ∧
  1 ≤ num_directories o < Z.of_nat (length argv) ∧
  no_separator is_separator (job_directories o) ∧
  command o ≠ [] ∧
  (num_directories o = 1 ∧ no_separator is_separator argv ∧
   argv = job_directories o ++ command o
   ∨ ∃ sep, is_separator sep = true ∧
            argv = job_directories o ++ sep :: command o).
Proof.
  split; [by eapply parse_options_well_formed|].
  destruct (parse_options_ok _ _ _ _ _ _ Hparse) as (Hm & Hrest).
  split; [|done].
  apply parse_flags_range in Hm; [done|unfold Libc.INT_MAX; lia].
Qed.

(** [within -j 2 a b c - make] in the select program. *)
Lemma parsed_command_line_witness :
  parse_options 64 Select.usage_text Select.is_separator [jobs_option "2"]
    ["a"; "b"; "c"; "-"; "make"] = Ok three_directories ∧
  well_formed three_directories ∧ command three_directories ≠ [].
Proof.
  assert (parse_options 64 Select.usage_text Select.is_separator
            [jobs_option "2"] ["a"; "b"; "c"; "-"; "make"]
          = Ok three_directories) as Hparse by (vm_compute; reflexivity).
  split; [exact Hparse|].
  destruct (parsed_command_line _ _ _ _ _ _ Hparse)
    as (Hwf & _ & _ & _ & _ & Hcmd & _).
  split; [exact Hwf|exact Hcmd].
Defined.

(** The two separator tests agree on an argument other than [-]. *)
Lemma is_separator_agree a :
  a ≠ "-" → Select.is_separator a = Kqueue.is_separator a.
Proof.
  intros Ha. unfold Select.is_separator, Kqueue.is_separator, strcmp.
  destruct (String.eqb_spec "-" a) as [<-|_]; [done|]. simpl.
  by destruct (String.eqb "--" a).
Qed.

Lemma split_args_agree m argv i rest :
  "-" ∉ rest →
  match split_args Select.usage_text Select.is_separator m argv i rest,
        split_args Kqueue.usage_text Kqueue.is_separator m argv i rest with
  | Ok o1, Ok o2 => o1 = o2
  | Stop t1, Stop t2 => exit_code t1 = 1 ∧ exit_code t2 = 1
  | _, _ => False
  end.
Proof.
  revert i. induction rest as [|a rest IH]; intros i Hno; simpl; [done|].
  apply not_elem_of_cons in Hno as [Ha Hno].
  rewrite is_separator_agree by done.
  destruct (Kqueue.is_separator a); simpl; [|by apply IH].
  by destruct (_ || _).
Qed.

(** X3.  On a command line with no argument [-], the two programs read
    the same: both set the same options, or both end with exit code 1. *)
Theorem parsers_agree_without_dash (long_bits : Z)
    (opts : list getopt_ret) (argv : list string) (Hno : "-" ∉ argv) :
  match parse_options long_bits Select.usage_text Select.is_separator
          opts argv,
        parse_options long_bits Kqueue.usage_text Kqueue.is_separator
          opts argv with
  | Ok o1, Ok o2 => o1 = o2
  | Stop t1, Stop t2 => exit_code t1 = 1 ∧ exit_code t2 = 1
  | _, _ => False
  end.
Proof.
  unfold parse_options.
  pose proof (parse_flags_exits long_bits 1 opts) as Hf.
  destruct (parse_flags long_bits 1 opts) as [m|t|];
    cbn [mbind result_bind]; [| |done].
  - destruct (_ <? 2); [done|]. by apply split_args_agree.
  - by destruct Hf as [msg ->].
Qed.

(** [within a b -- make]: both programs run [make] in [a] and [b]. *)
Lemma parsers_agree_without_dash_witness :
  ("-" ∉ ["a"; "b"; "--"; "make"]) ∧
  match parse_options 64 Select.usage_text Select.is_separator []
          ["a"; "b"; "--"; "make"],
        parse_options 64 Kqueue.usage_text Kqueue.is_separator []
          ["a"; "b"; "--"; "make"] with
  | Ok o1, Ok o2 => o1 = o2 ∧ job_directories o1 = ["a"; "b"]
  | _, _ => False
  end.
Proof.
  assert ("-" ∉ ["a"; "b"; "--"; "make"]) as Hno.
  { apply (bool_decide_unpack _). vm_compute. reflexivity. }
  split; [exact Hno|].
  pose proof (parsers_agree_without_dash 64 [] _ Hno) as H.
  vm_compute in H. vm_compute. split; [exact H|reflexivity].
Defined.

(** ** The prefixer *)

Lemma put_bytes_app calls1 calls2 :
  put_bytes (calls1 ++ calls2) = put_bytes calls1 ++ put_bytes calls2.
Proof. apply omap_app. Qed.

Lemma prefixes_app calls1 calls2 :
  prefixes (calls1 ++ calls2) = prefixes calls1 ++ prefixes calls2.
Proof. apply omap_app. Qed.

Lemma pipe_bytes_through p data :
  put_bytes (pipe_bytes p data).1 = data ∧
  Forall (λ c, call_file c = out_file p) (pipe_bytes p data).1 ∧
  Forall (λ pre, pre = prefix p) (prefixes (pipe_bytes p data).1).
Proof.
  revert p. induction data as [|c data IH]; intros p; simpl.
  { repeat split; constructor. }
  destruct (IH (set_newline p (Ascii.eqb c LF))) as (Hput & Hfile & Hpre).
  destruct (pipe_bytes _ data) as [calls p']. simpl in *.
  rewrite put_bytes_app, prefixes_app, Forall_app. simpl.
  destruct (newline p); simpl; rewrite Hput;
    repeat split; repeat constructor; done.
Qed.

(** X4.  The loop of [run_piper] hands the bytes it is given to [fputc]
    one by one, in order, none left out and none twice; every call it makes
    is on the stream of the piper, the other stream gets nothing; every
    prefix it prints is the prefix of the piper; and it changes nothing of
    the piper but the flag. *)
Theorem piper_passes_bytes_through (p : piper) (data : list ascii) :
  put_bytes (pipe_bytes p data).1 = data ∧
  Forall (λ c, call_file c = out_file p) (pipe_bytes p data).1 ∧
  (∀ f, f ≠ out_file p → written f (pipe_bytes p data).1 = []) ∧
  Forall (λ pre, pre = prefix p) (prefixes (pipe_bytes p data).1) ∧
  in_fd (pipe_bytes p data).2 = in_fd p ∧
  out_file (pipe_bytes p data).2 = out_file p ∧
  prefix (pipe_bytes p data).2 = prefix p.
Proof.
  destruct (pipe_bytes_through p data) as (Hput & Hfile & Hpre).
  split; [done|]. split; [done|]. split; [|split; [done|]].
  - intros f Hf. rewrite pipe_bytes_spec. simpl. rewrite written_prefixed.
    destruct (FILE_eqb f (out_file p)) eqn:E; [|done].
    by apply FILE_eqb_eq in E.
  - apply pipe_bytes_fields.
Qed.

Lemma line_feeds_app data1 data2 :
  line_feeds (data1 ++ data2) = (line_feeds data1 + line_feeds data2)%nat.
Proof. unfold line_feeds. by rewrite filter_app, length_app. Qed.

Lemma line_feeds_cons c data :
  line_feeds (c :: data)
    = ((if Ascii.eqb c LF then 1 else 0) + line_feeds data)%nat.
Proof.
  unfold line_feeds. rewrite filter_cons.
  destruct (Ascii.eqb_spec c LF) as [->|Hne].
  - by rewrite decide_True.
  - by rewrite decide_False.
Qed.

Lemma line_feeds_prefix pre :
  line_feeds (String.list_ascii_of_string (pre +:+ ": "))
    = line_feeds (String.list_ascii_of_string pre).
Proof.
  induction pre as [|c pre IH]; [done|].
  simpl. by rewrite !line_feeds_cons, IH.
Qed.

Lemma written_pipe_bytes_line_feeds p data :
  line_feeds (String.list_ascii_of_string (prefix p)) = 0%nat →
  line_feeds (written (out_file p) (pipe_bytes p data).1) = line_feeds data.
Proof.
  intros Hpre. revert p Hpre.
  induction data as [|c data IH]; intros p Hpre; [done|].
  simpl. specialize (IH (set_newline p (Ascii.eqb c LF)) Hpre).
  destruct (pipe_bytes _ data) as [calls p']. simpl in *.
  rewrite written_app, line_feeds_app, line_feeds_cons.
  change (fputc c (out_file p) :: calls)
    with ([fputc c (out_file p)] ++ calls).
  rewrite written_app, line_feeds_app, IH.
  assert (FILE_eqb (out_file p) (out_file p) = true) as Hf
    by (by apply FILE_eqb_eq).
  unfold written at 2. simpl. rewrite Hf. simpl.
  rewrite line_feeds_cons. simpl.
  destruct (newline p); unfold written; simpl; rewrite ?Hf; simpl;
    rewrite ?app_nil_r, ?line_feeds_prefix, ?Hpre; simpl;
    change (line_feeds []) with 0%nat; lia.
Qed.

(** X5.  When the name of the directory holds no line feed, what a piper
    puts on its stream has as many line feeds as what it read: prefixing
    keeps the number of lines. *)
Theorem prefixing_keeps_line_count (p : piper) (data : list ascii)
    (Hprefix : line_feeds (String.list_ascii_of_string (prefix p)) = 0%nat) :
  line_feeds (written (out_file p) (pipe_bytes p data).1) = line_feeds data.
Proof. by apply written_pipe_bytes_line_feeds. Qed.

(** Two lines read by the piper of directory [a]. *)
Lemma prefixing_keeps_line_count_witness :
  line_feeds
    (written stdout
       (pipe_bytes {| in_fd := 3; out_file := stdout; prefix := "a";
                      newline := true |}
          ["x"%char; LF; "y"%char; LF]).1) = 2%nat.
Proof.
  exact (prefixing_keeps_line_count
           {| in_fd := 3; out_file := stdout; prefix := "a";
              newline := true |}
           ["x"%char; LF; "y"%char; LF] eq_refl).
Defined.

(** ** The select program *)

(** X6.  [start_job] of the select program, in the parent: the piper of
    the standard error is put at the head of the list and the piper of the
    standard output after it, before the pipers of earlier jobs, both with
    the directory as prefix and at the start of a line; the parent keeps
    the read ends of the two pipes open and neither write end, so that the
    end of a pipe is reached when the job has closed it. *)
Theorem select_start_job_lists_stderr_first (dir : string)
    (c : Select.job_calls) (s s' : Select.state)
    (Hjob : Select.start_job dir c s = Ok s') :
  ∃ stdout_r stdout_w stderr_r stderr_w p_out p_err,
    select_job_pipes s = ((stdout_r, stdout_w), (stderr_r, stderr_w)) ∧
    Select.pipers s' = p_err :: p_out :: Select.pipers s ∧
    p_out ≠ p_err ∧
    Select.heap s !! p_out = None ∧ Select.heap s !! p_err = None ∧
    Select.heap s' =
      <[p_err := {| in_fd := stderr_r; out_file := stderr; prefix := dir;
                    newline := true |}]>
        (<[p_out := {| in_fd := stdout_r; out_file := stdout;
                       prefix := dir; newline := true |}]>
           (Select.heap s)) ∧
    Select.fds s' = {[stdout_r; stderr_r]} ∪ Select.fds s ∧
    stdout_r ≠ stderr_r ∧
    (∀ fd, fd ∈ [stdout_r; stdout_w; stderr_r; stderr_w] →
           fd ∉ Select.fds s) ∧
    (stdout_w ∉ Select.fds s') ∧ (stderr_w ∉ Select.fds s').
Proof.
  destruct (select_start_job_shape dir c s s' Hjob)
    as (r1 & w1 & r2 & w2 & p1 & p2 & H1 & H2 & H3 & H4 & H5 & H6 & H7 &
        H8 & H9 & H10 & H11 & _).
  by exists r1, w1, r2, w2, p1, p2.
Qed.

(** The first job of a run. *)
Lemma select_start_job_lists_stderr_first_witness :
  ∃ s', Select.start_job "a" select_calls_ok Select.initial = Ok s' ∧
        Select.pipers s' = [2%positive; 1%positive] ∧
        out_file <$> Select.heap s' !! 2%positive = Some stderr.
Proof.
  eexists. split; [vm_compute; reflexivity|].
  destruct (select_start_job_lists_stderr_first "a" select_calls_ok
              Select.initial _ eq_refl) as (? & ? & ? & ? & ? & ? & _).
  split; reflexivity.
Defined.

Lemma filter_absent (piper : positive) (l : list positive) :
  piper ∉ l → filter (λ q, q ≠ piper) l = l.
Proof.
  induction l as [|q l IH]; [done|].
  intros [Hq Hl]%not_elem_of_cons.
  rewrite filter_cons_True by done. by rewrite IH.
Qed.

Lemma select_unlink_filter piper l :
  NoDup l → Select.unlink piper l = filter (λ q, q ≠ piper) l.
Proof.
  induction 1 as [|q l Hq Hl IH]; [done|].
  simpl. rewrite filter_cons.
  destruct (Pos.eqb_spec q piper) as [->|Hne].
  - rewrite decide_False by (by intros []). by rewrite filter_absent.
  - rewrite decide_True by done. by rewrite IH.
Qed.

(** X7.  [remove_piper], on a list that holds no piper twice: the list
    is what it was without the piper, the others in their order; the piper
    is freed if it was in the list, and nothing happens if it was not
    there; no descriptor is closed and nothing is written. *)
Theorem remove_piper_takes_one_out (piper : positive) (s : Select.state)
    (Hlist : NoDup (Select.pipers s)) :
  Select.pipers (Select.remove_piper piper s)
    = filter (λ q, q ≠ piper) (Select.pipers s) ∧
  (piper ∈ Select.pipers s →
   Select.heap (Select.remove_piper piper s)
     = delete piper (Select.heap s)) ∧
  (piper ∉ Select.pipers s → Select.remove_piper piper s = s) ∧
  Select.fds (Select.remove_piper piper s) = Select.fds s ∧
  Select.output (Select.remove_piper piper s) = Select.output s.
Proof.
  unfold Select.remove_piper. case_bool_decide as Hin; simpl.
  - rewrite select_unlink_filter by done. by repeat split.
  - rewrite filter_absent by done. by repeat split.
Qed.

(** The second of three pipers is taken out. *)
Lemma remove_piper_takes_one_out_witness :
  NoDup (Select.pipers (Select.set_list [3; 2; 1]%positive ∅
                          Select.initial)) ∧
  Select.pipers
    (Select.remove_piper 2
       (Select.set_list [3; 2; 1]%positive ∅ Select.initial))
  = [3; 1]%positive.
Proof.
  assert (NoDup (Select.pipers (Select.set_list [3; 2; 1]%positive ∅
                                  Select.initial))) as Hlist.
  { apply (bool_decide_unpack _). vm_compute. reflexivity. }
  split; [exact Hlist|].
  destruct (remove_piper_takes_one_out 2 _ Hlist) as [Hps _].
  rewrite Hps. reflexivity.
Defined.

Lemma select_fd_sets_exact h ps piper_fds nfds :
  (∀ q, q ∈ ps →
        ∃ p, h !! q = Some p ∧ 0 ≤ in_fd p < Select.FD_SETSIZE) →
  ∃ piper_fds' nfds',
    Select.fd_sets h ps piper_fds nfds = Ok (piper_fds', nfds') ∧
    (∀ fd, fd ∈ piper_fds' ↔
           fd ∈ piper_fds ∨
           ∃ q p, q ∈ ps ∧ h !! q = Some p ∧ in_fd p = fd) ∧
    nfds ≤ nfds' ∧
    (∀ q p, q ∈ ps → h !! q = Some p → in_fd p < nfds') ∧
    (nfds' = nfds ∨ ∃ q p, q ∈ ps ∧ h !! q = Some p ∧ nfds' = in_fd p + 1).
Proof.
  revert piper_fds nfds.
  induction ps as [|piper ps IH]; intros piper_fds nfds Hlive; simpl.
  { exists piper_fds, nfds. split; [done|]. split; [|split; [lia|]].
    - intros fd. split; [by left|]. intros [H|(q & p & Hq & _)]; [done|].
      by apply elem_of_nil in Hq.
    - split; [|by left]. intros q p Hq. by apply elem_of_nil in Hq. }
  destruct (Hlive piper) as (p & Hp & Hrange); [by left|]. rewrite Hp.
  replace ((0 <=? in_fd p) && (in_fd p <? Select.FD_SETSIZE)) with true
    by (symmetry; apply andb_true_iff; split;
        [apply Z.leb_le|apply Z.ltb_lt]; lia).
  destruct (IH ({[in_fd p]} ∪ piper_fds) (Z.max nfds (in_fd p + 1)))
    as (fs & n & -> & Hset & Hle & Hlt & Hmax).
  { intros q Hq. apply Hlive. by right. }
  exists fs, n. split; [done|]. split; [|split; [lia|split]].
  - intros fd. rewrite Hset, elem_of_union, elem_of_singleton. split.
    + intros [[->|H]|(q & p' & Hq & Hp' & Hfd)]; [|by left|].
      * right. exists piper, p. split; [by left|done].
      * right. exists q, p'. split; [by right|done].
    + intros [H|(q & p' & [->|Hq]%elem_of_cons & Hp' & Hfd)].
      * left. by right.
      * left. left. congruence.
      * right. by exists q, p'.
  - intros q p' [->|Hq]%elem_of_cons Hp'; [|by eapply Hlt].
    assert (p' = p) as -> by congruence. lia.
  - destruct Hmax as [->|(q & p' & Hq & Hp' & ->)].
    + destruct (Z.max_spec nfds (in_fd p + 1)) as [[_ ->]|[_ ->]].
      * right. exists piper, p. split; [by left|done].
      * by left.
    + right. exists q, p'. split; [by right|done].
Qed.

(** [FD_SET] for a descriptor that has no place in the set. *)
Lemma select_fd_sets_outside h ps piper_fds nfds q p :
  (∀ q, q ∈ ps → is_Some (h !! q)) →
  q ∈ ps → h !! q = Some p → ¬ (0 ≤ in_fd p < Select.FD_SETSIZE) →
  Select.fd_sets h ps piper_fds nfds = Undefined.
Proof.
  revert piper_fds nfds.
  induction ps as [|piper ps IH]; intros piper_fds nfds Hlive Hq Hp Hout.
  { by apply elem_of_nil in Hq. }
  simpl. destruct (Hlive piper) as [p' Hp']; [by left|]. rewrite Hp'.
  destruct ((0 <=? in_fd p') && (in_fd p' <? Select.FD_SETSIZE))
    eqn:Hrange; [|done].
  apply andb_true_iff in Hrange as [H0%Z.leb_le Hmax%Z.ltb_lt].
  apply elem_of_cons in Hq as [->|Hq].
  - rewrite Hp in Hp'. injection Hp' as <-. lia.
  - apply IH; try done. intros q' Hq'. apply Hlive. by right.
Qed.

(** X8.  Before [select], on a state whose list is in order.  When every
    piper of the list reads from a descriptor from 0 to FD_SETSIZE - 1, the
    loop with [FD_SET] goes through without touching a freed piper; the set
    it builds holds exactly the descriptors the pipers of the list read
    from, all of them open; [nfds] is above each of them, it is 0 or one
    more than one of them, and it is at most FD_SETSIZE.  When a piper of
    the list reads from a descriptor outside that range, [FD_SET] writes
    outside the set, which C leaves undefined. *)
Theorem select_waits_on_live_pipers (s : Select.state)
    (Hs : SelectRun.tidy s) :
  ((∀ q p, q ∈ Select.pipers s → Select.heap s !! q = Some p →
           0 ≤ in_fd p < Select.FD_SETSIZE) →
   ∃ piper_fds nfds,
     Select.fd_sets (Select.heap s) (Select.pipers s) ∅ 0
       = Ok (piper_fds, nfds) ∧
     (∀ fd, fd ∈ piper_fds ↔
            ∃ q p, q ∈ Select.pipers s ∧ Select.heap s !! q = Some p ∧
                   in_fd p = fd) ∧
     piper_fds ⊆ Select.fds s ∧
     (∀ fd, fd ∈ piper_fds → 0 ≤ fd < nfds) ∧
     (nfds = 0 ∨ nfds - 1 ∈ piper_fds) ∧
     nfds ≤ Select.FD_SETSIZE) ∧
  ((∃ q p, q ∈ Select.pipers s ∧ Select.heap s !! q = Some p ∧
           ¬ (0 ≤ in_fd p < Select.FD_SETSIZE)) →
   Select.fd_sets (Select.heap s) (Select.pipers s) ∅ 0 = Undefined).
Proof.
  split.
  - intros Hrange.
    destruct (select_fd_sets_exact (Select.heap s) (Select.pipers s) ∅ 0)
      as (fs & n & Hrun & Hset & Hle & Hlt & Hmax).
    { intros q Hq.
      destruct (proj1 (SelectRun.pipers_allocated s Hs q) Hq) as [p Hp].
      exists p. split; [done|]. by eapply Hrange. }
    assert (∀ fd, fd ∈ fs ↔
              ∃ q p, q ∈ Select.pipers s ∧ Select.heap s !! q = Some p ∧
                     in_fd p = fd) as Hset'.
    { intros fd. rewrite Hset. split; [|by right].
      intros [H|H]; [|done]. by apply elem_of_empty in H. }
    exists fs, n. split; [done|]. split; [done|].
    split; [|split; [|split]].
    + intros fd (q & p & Hq & Hp & <-)%Hset'.
      by eapply SelectRun.pipers_open.
    + intros fd (q & p & Hq & Hp & <-)%Hset'.
      specialize (Hrange q p Hq Hp). specialize (Hlt q p Hq Hp). lia.
    + destruct Hmax as [->|(q & p & Hq & Hp & ->)]; [by left|].
      right. apply Hset'. exists q, p.
      split; [done|]. split; [done|]. lia.
    + destruct Hmax as [->|(q & p & Hq & Hp & ->)]; [done|].
      specialize (Hrange q p Hq Hp). lia.
  - intros (q & p & Hq & Hp & Hout).
    eapply select_fd_sets_outside; [|done..].
    intros q'. apply Hs.
Qed.

(** The state after the first job is started: descriptors 3 and 5. *)
Lemma select_waits_on_live_pipers_witness :
  ∃ s, Select.run three_directories [select_job_ok]
       = Some (Select.Blocked Select.Starting s) ∧
       (∀ q p, q ∈ Select.pipers s → Select.heap s !! q = Some p →
               0 ≤ in_fd p < Select.FD_SETSIZE) ∧
       Select.fd_sets (Select.heap s) (Select.pipers s) ∅ 0
       = Ok ({[3; 5]}, 6).
Proof.
  eexists. split; [vm_compute; reflexivity|].
  match goal with
  | |- _ ∧ Select.fd_sets (Select.heap ?s) _ _ _ = _ =>
      assert (SelectRun.tidy s) as Hs;
      [|assert (∀ q p, q ∈ Select.pipers s → Select.heap s !! q = Some p →
                       0 ≤ in_fd p < Select.FD_SETSIZE) as Hrange]
  end.
  { assert (well_formed three_directories) as Ho by (split; simpl; lia).
    apply (SelectMemory.select_run_sound three_directories
             [select_job_ok] _ Ho eq_refl). }
  { intros q p Hq Hp. simpl in Hq.
    apply elem_of_cons in Hq as [->|Hq];
      [|apply elem_of_cons in Hq as [->|Hq];
        [|by apply elem_of_nil in Hq]];
      vm_compute in Hp; injection Hp as <-; by vm_compute. }
  split; [exact Hrange|].
  destruct (select_waits_on_live_pipers _ Hs) as [Hin _].
  destruct (Hin Hrange) as (fs & n & Hrun & _).
  vm_compute in Hrun. injection Hrun as <- <-.
  vm_compute. f_equal.
Defined.

(** X9.  A [select] that is interrupted by a signal (EINTR, as SIGCHLD
    does through [sig_chld]) runs no piper and changes nothing: [main] goes
    on to collect children.  A [select] that fails in another way ends the
    process through [err(1, "select")]. *)
Theorem select_interrupted_goes_on (o : options)
    (answers : list Select.answer) (s : Select.state)
    (Ho : well_formed o)
    (Hrun : Select.run o answers
            = Some (Select.Blocked Select.Polling s)) :
  Select.run o (answers ++ [Select.select_answer (Select.select_fail EINTR)])
    = Some (Select.at_reap o s) ∧
  ∀ e, e ≠ EINTR →
    Select.run o (answers ++ [Select.select_answer (Select.select_fail e)])
      = Some (Select.Aborted (Exited 1 "select")).
Proof.
  pose proof (SelectMemory.select_run_sound o answers _ Ho Hrun)
    as [[_ (_ & _ & [[fs n] Hsets])] _].
  unfold Select.run in *.
  split; [|intros e He];
    rewrite ReadFacts.select_exec_app, Hrun; simpl;
    unfold Select.poll; rewrite Hsets; simpl; [done|].
  by destruct e.
Qed.

(** [within -j 2 a b c - make], interrupted while two jobs run. *)
Lemma select_interrupted_goes_on_witness :
  well_formed three_directories ∧
  Select.run three_directories
    [select_job_ok; select_job_ok;
     Select.select_answer (Select.select_fail EINTR)]
  = Some (Select.Blocked Select.Reaping two_started).
Proof.
  assert (well_formed three_directories) as Ho by (split; simpl; lia).
  split; [exact Ho|].
  assert (Select.run three_directories [select_job_ok; select_job_ok]
          = Some (Select.Blocked Select.Polling two_started)) as Hrun.
  { vm_compute. reflexivity. }
  destruct (select_interrupted_goes_on three_directories
              [select_job_ok; select_job_ok] two_started Ho Hrun)
    as [Hgo _].
  etrans; [exact Hgo|]. vm_compute. reflexivity.
Defined.



(** X28.  With 511 directories and as many jobs at a time, the select
    program leaves what C defines: no read end is ever closed, so that the
    read ends of the 511 jobs are 3, 4, 5, ..., 1023 and 1025, and the loop
    before the first [select] calls [FD_SET] with 1025, beyond the
    FD_SETSIZE descriptors its [fd_set] has room for. *)
Theorem select_fd_set_overflows_with_511_jobs :
  Select.main 64 [jobs_option "511"] (replicate 511 "d" ++ ["-"; "true"])
    (replicate 511 select_job_ok)
  = Some Select.Crashed.
Proof. vm_compute. reflexivity. Qed.

(** The outcomes of [Select.main], from those of the loop. *)
Lemma select_main_run long_bits opts argv answers st s :
  Select.main long_bits opts argv answers = Some (Select.Returns st s) →
  ∃ o, well_formed o ∧
       parse_options long_bits Select.usage_text Select.is_separator
         opts argv = Ok o ∧
       Select.run o answers = Some (Select.Returns st s).
Proof.
  unfold Select.main.
  destruct (parse_options _ _ _ opts argv) as [o|t|] eqn:Hparse;
    [|by destruct answers|done].
  intros Hrun. exists o. split; [|done].
  by eapply parse_options_well_formed.
Qed.

(** X11.  When [main] of the select program returns, the list of pipers
    is empty and every piper that was allocated has been freed, every
    directory has had its job started, and every job started has been
    collected by [waitpid]. *)
Theorem select_return_leaves_nothing_behind (long_bits : Z)
    (opts : list getopt_ret) (argv : list string)
    (answers : list Select.answer) (st : Z) (s : Select.state)
    (Hmain : Select.main long_bits opts argv answers
             = Some (Select.Returns st s)) :
  Select.pipers s = [] ∧ Select.heap s = ∅ ∧ Select.num_jobs s = 0 ∧
  length (Select.reaped s) = length (Select.started s) ∧
  ∃ o, parse_options long_bits Select.usage_text Select.is_separator
         opts argv = Ok o ∧
       Select.started s = job_directories o.
Proof.
  destruct (select_main_run _ _ _ _ _ _ Hmain) as (o & Ho & Hparse & Hrun).
  destruct (select_returns_iff_all_done o answers _ s Ho Hrun eq_refl)
    as [Hdone _].
  destruct Hdone as (_ & Hn & Hp); [by eexists|].
  pose proof (SelectMemory.select_run_sound o answers _ Ho Hrun) as [_ Hs].
  simpl in Hs.
  pose proof (select_exit_code o answers _ Ho Hrun) as (_ & _ & Hst & Hlen).
  split; [done|]. split; [|split; [done|split; [done|by exists o]]].
  apply map_empty. intros piper.
  destruct (Select.heap s !! piper) as [p|] eqn:Hpiper; [|done].
  assert (piper ∈ Select.pipers s) as Hin.
  { apply (SelectRun.pipers_allocated s Hs). by eexists. }
  rewrite Hp in Hin. by apply elem_of_nil in Hin.
Qed.

(** [within d1 echo hi]. *)
Lemma select_return_leaves_nothing_behind_witness :
  ∃ s,
    Select.main 64 [] ["d1"; "echo"; "hi"]
      [select_job_ok; select_job_ends 3 5 [hi]; select_job_collected 0]
    = Some (Select.Returns 0 s) ∧
    Select.heap s = ∅ ∧ Select.started s = ["d1"].
Proof.
  eexists. split; [vm_compute; reflexivity|].
  match goal with
  | |- Select.heap ?s = _ ∧ _ =>
      assert (Select.main 64 [] ["d1"; "echo"; "hi"]
                [select_job_ok; select_job_ends 3 5 [hi];
                 select_job_collected 0]
              = Some (Select.Returns 0 s)) as Hmain
        by (vm_compute; reflexivity)
  end.
  destruct (select_return_leaves_nothing_behind _ _ _ _ _ _ Hmain)
    as (_ & Hheap & _).
  split; [exact Hheap|reflexivity].
Defined.

(** X12.  The exit code of the select program: when [main] returns, it
    returns 0 if every status [waitpid] stored is 0 and 1 if one is not,
    whatever that status is; when the process ends through [usage],
    [exit], [err] or [errx], its exit code is 1.  (Nothing is said of a
    run that leaves the behaviour C defines, in [FD_SET].) *)
Theorem select_exit_code_tells_failed_jobs (long_bits : Z)
    (opts : list getopt_ret) (argv : list string)
    (answers : list Select.answer) (out : Select.outcome)
    (Hmain : Select.main long_bits opts argv answers = Some out) :
  match out with
  | Select.Returns st s =>
      (st = 0 ↔ Forall (λ child_status, child_status = 0) (Select.reaped s))
      ∧ (st = 1 ↔ Exists (λ child_status, child_status ≠ 0)
                     (Select.reaped s))
  | Select.Aborted t => exit_code t = 1
  | Select.Blocked _ _ | Select.Crashed => True
  end.
Proof.
  revert Hmain. unfold Select.main.
  pose proof (parse_options_exits long_bits Select.usage_text
                Select.is_separator opts argv) as Hexit.
  destruct (parse_options _ _ _ opts argv) as [o|t|] eqn:Hparse; [| |done].
  - intros Hrun. apply parse_options_well_formed in Hparse.
    pose proof (select_exit_code o answers out Hparse Hrun) as Hcode.
    destruct out as [at_call s|st s|t|]; [done| |done..].
    destruct Hcode as (Hzero & Hrange & _). split; [done|].
    split.
    + intros ->.
      destruct (decide (Forall (λ x, x = 0) (Select.reaped s)))
        as [Hall|Hnot]; [apply Hzero in Hall; lia|].
      apply not_Forall_Exists in Hnot; [|intros x; apply _].
      eapply Exists_impl; [exact Hnot|]. done.
    + intros (x & Hx & Hne)%Exists_exists.
      destruct Hrange as [-> | ->]; [|done].
      destruct Hzero as [Hall _]. specialize (Hall eq_refl).
      rewrite Forall_forall in Hall. by apply Hall in Hx.
  - destruct Hexit as [msg ->]. destruct answers; [|done].
    by intros [= <-].
Qed.

(** [within d1 false]: the job ends with status 1. *)
Lemma select_exit_code_tells_failed_jobs_witness :
  ∃ s,
    Select.main 64 [] ["d1"; "false"]
      [select_job_ok; select_job_ends 3 5 []; select_job_collected 1]
    = Some (Select.Returns 1 s) ∧
    Exists (λ child_status, child_status ≠ 0) (Select.reaped s).
Proof.
  eexists. split; [vm_compute; reflexivity|].
  match goal with
  | |- Exists _ (Select.reaped ?s) =>
      assert (Select.main 64 [] ["d1"; "false"]
                [select_job_ok; select_job_ends 3 5 [];
                 select_job_collected 1]
              = Some (Select.Returns 1 s)) as Hmain
        by (vm_compute; reflexivity)
  end.
  pose proof (select_exit_code_tells_failed_jobs _ _ _ _ _ Hmain)
    as [_ Hone].
  by apply Hone.
Defined.

(** X13.  The loop of the select program's [main] ends exactly when
    nothing is left to do: at each point of a run, [main] has returned if
    and only if no directory is left to start, no job is active and the
    list of pipers is empty. *)
Theorem select_loop_ends_when_all_is_done (o : options)
    (answers : list Select.answer) (out : Select.outcome)
    (s : Select.state) (Ho : well_formed o)
    (Hrun : Select.run o answers = Some out)
    (Hs : SelectRun.state_of out = Some s) :
  (∃ st, out = Select.Returns st s) ↔
  num_directories o ≤ Select.directory s ∧ Select.num_jobs s = 0 ∧
  Select.pipers s = [].
Proof. exact (select_returns_iff_all_done o answers out s Ho Hrun Hs). Qed.

(** [within -j 2 a b c - make] with two jobs started: a directory is
    left, and [main] has not returned. *)
Lemma select_loop_ends_when_all_is_done_witness :
  well_formed three_directories ∧
  Select.run three_directories [select_job_ok; select_job_ok]
    = Some (Select.Blocked Select.Polling two_started) ∧
  ¬ (num_directories three_directories ≤ Select.directory two_started ∧
     Select.num_jobs two_started = 0 ∧ Select.pipers two_started = []).
Proof.
  assert (well_formed three_directories) as Ho by (split; simpl; lia).
  assert (Select.run three_directories [select_job_ok; select_job_ok]
          = Some (Select.Blocked Select.Polling two_started)) as Hrun.
  { vm_compute. reflexivity. }
  split; [exact Ho|]. split; [exact Hrun|].
  intros Hdone.
  apply (select_loop_ends_when_all_is_done three_directories _ _
           two_started Ho Hrun eq_refl) in Hdone as [st Hst].
  discriminate Hst.
Defined.

Lemma select_run_piper_names piper r s s' :
  select_names_started s → Select.run_piper piper r s = Ok s' →
  select_names_started s'.
Proof.
  intros [Hheap Hout] Hrun.
  pose proof (SelectFacts.select_run_piper_books _ _ _ _ Hrun) as Hbooks.
  unfold SelectRun.books in Hbooks. injection Hbooks as _ _ _ Hst _.
  revert Hrun. unfold Select.run_piper.
  destruct (Select.heap s !! piper) as [p|] eqn:Hp; [|done].
  rewrite drain_pipe_bytes.
  pose proof (pipe_bytes_through p (concat (map chunk_bytes (chunks r))))
    as (_ & _ & Hpre).
  pose proof (pipe_bytes_fields p (concat (map chunk_bytes (chunks r))))
    as (_ & _ & Hfield).
  destruct (pipe_bytes p _) as [calls p']. simpl in Hpre, Hfield.
  set (s1 := Select.emit calls _).
  assert (select_names_started s1) as [Hheap1 Hout1].
  { split; simpl.
    - intros q pq [[_ <-]|[_ Hq]]%lookup_insert_Some; [|by eapply Hheap].
      rewrite Hfield. by eapply Hheap.
    - rewrite prefixes_app, Forall_app. split; [done|].
      eapply Forall_impl; [exact Hpre|]. intros pre ->. by eapply Hheap. }
  destruct (ending r) as [|[]]; try done; intros [= <-]; [|by split].
  unfold Select.remove_piper. case_bool_decide; [|by split].
  split; simpl; [|done].
  intros q pq [_ Hq]%lookup_delete_Some. by eapply Hheap1.
Qed.

Lemma select_run_ready_names isset ps s s' :
  select_names_started s → Select.run_ready isset ps s = Ok s' →
  select_names_started s'.
Proof.
  revert s. induction ps as [|piper ps IH]; intros s Hs; simpl.
  { by intros [= <-]. }
  destruct (Select.heap s !! piper) as [p|]; [|done].
  destruct (isset (in_fd p)) as [r|]; simpl; [|by apply IH].
  destruct (Select.run_piper piper r s) as [s1| |] eqn:E; simpl; [|done..].
  apply IH. by eapply select_run_piper_names.
Qed.

Lemma select_poll_names r s s' :
  select_names_started s → Select.poll r s = Ok s' →
  select_names_started s'.
Proof.
  intros Hs. unfold Select.poll.
  destruct (Select.fd_sets _ _ _ _) as [[fs n]| |]; simpl; [|done..].
  destruct r as [ready|[]]; try done.
  - by apply select_run_ready_names.
  - by intros [= <-].
Qed.

Lemma select_start_job_names dir c s s' :
  select_names_started s → Select.start_job dir c s = Ok s' →
  select_names_started s'.
Proof.
  intros [Hheap Hout]
    (r1 & w1 & r2 & w2 & p1 & p2 & _ & _ & _ & _ & _ & Hh & _ & _ & _ & _ &
     _ & Ho & Hst)%select_start_job_shape.
  split; rewrite Hst.
  - intros q pq. rewrite Hh.
    intros [[_ <-]|[_ [[_ <-]|[_ Hq]]%lookup_insert_Some]]%lookup_insert_Some;
      simpl; rewrite elem_of_app.
    + right. by left.
    + right. by left.
    + left. by eapply Hheap.
  - rewrite Ho. eapply Forall_impl; [exact Hout|].
    intros pre Hpre. rewrite elem_of_app. by left.
Qed.

(** X14.  The select program prints no other prefix than the names of
    directories whose jobs it has started, which are the first of the
    directories of the command line, in their order; and a live piper
    carries such a name. *)
Theorem select_prefixes_name_started_jobs (o : options)
    (answers : list Select.answer) (out : Select.outcome)
    (s : Select.state) (Ho : well_formed o)
    (Hrun : Select.run o answers = Some out)
    (Hs : SelectRun.state_of out = Some s) :
  Forall (λ pre, pre ∈ Select.started s) (prefixes (Select.output s)) ∧
  (∀ piper p, Select.heap s !! piper = Some p →
              prefix p ∈ Select.started s) ∧
  Select.started s = take (length (Select.started s)) (job_directories o).
Proof.
  assert (select_names_started s) as [Hheap Hout].
  { apply (select_state_invariant select_names_started o Ho)
      with (answers := answers) (out := out); [| | | |done..].
    - split; [|constructor]. intros piper p. simpl. by rewrite lookup_empty.
    - intros dir c s0 s1 _ Hi _ Hjob.
      by apply (select_start_job_names dir c s0 s1 Hi) in Hjob.
    - intros r s0 s1 _ Hi Hpoll. by eapply select_poll_names.
    - by intros child_status s0 Hi. }
  split; [done|]. split; [done|].
  apply SelectFacts.select_run_reachable in Hrun; [|done].
  assert (SelectRun.counted o s) as [].
  { destruct out; simplify_eq/=; by destruct Hrun. }
  unfold job_directories. rewrite take_take.
  rewrite started_in_order at 1. f_equal. lia.
Qed.

(** [within d1 echo hi]: the one prefix printed is [d1]. *)
Lemma select_prefixes_name_started_jobs_witness :
  well_formed
    {| max_jobs := 1; num_directories := 1;
       directories := ["d1"; "echo"; "hi"]; command := ["echo"; "hi"] |} ∧
  ∃ s,
    Select.run
      {| max_jobs := 1; num_directories := 1;
         directories := ["d1"; "echo"; "hi"]; command := ["echo"; "hi"] |}
      [select_job_ok; select_job_ends 3 5 [hi]]
    = Some (Select.Blocked Select.Reaping s) ∧
    prefixes (Select.output s) = ["d1"] ∧
    Forall (λ pre, pre ∈ Select.started s) (prefixes (Select.output s)).
Proof.
  assert (well_formed
            {| max_jobs := 1; num_directories := 1;
               directories := ["d1"; "echo"; "hi"];
               command := ["echo"; "hi"] |}) as Ho by (split; simpl; lia).
  split; [exact Ho|].
  eexists. split; [vm_compute; reflexivity|]. split; [reflexivity|].
  match goal with
  | |- Forall _ (prefixes (Select.output ?s)) =>
      assert (Select.run
                {| max_jobs := 1; num_directories := 1;
                   directories := ["d1"; "echo"; "hi"];
                   command := ["echo"; "hi"] |}
                [select_job_ok; select_job_ends 3 5 [hi]]
              = Some (Select.Blocked Select.Reaping s)) as Hrun
        by (vm_compute; reflexivity)
  end.
  exact (proj1 (select_prefixes_name_started_jobs _ _ _ _ Ho Hrun eq_refl)).
Defined.

(** X15.  In the select program the descriptors 0, 1 and 2 stay open
    all along a run, and the four descriptors the two [pipe] calls of the
    next [start_job] return are the four lowest descriptors that are not
    open in the parent, in increasing order: the read end and the write end
    for the standard output, then those for the standard error.  So they
    are four different descriptors, none of them open before, and apart
    from the standard output and error that the child puts the write ends
    in the place of.  (A descriptor closed earlier, as the write ends of
    the job before are, is handed out again.) *)
Theorem select_job_pipes_are_apart (o : options)
    (answers : list Select.answer) (out : Select.outcome)
    (s : Select.state) (Ho : well_formed o)
    (Hrun : Select.run o answers = Some out)
    (Hs : SelectRun.state_of out = Some s) :
  {[0; 1; 2]} ⊆ Select.fds s ∧
  Child.apart (select_job_pipes s).1 (select_job_pipes s).2 ∧
  NoDup [(select_job_pipes s).1.1; (select_job_pipes s).1.2;
         (select_job_pipes s).2.1; (select_job_pipes s).2.2] ∧
  (∀ fd, fd ∈ [(select_job_pipes s).1.1; (select_job_pipes s).1.2;
               (select_job_pipes s).2.1; (select_job_pipes s).2.2] →
         fd ∉ Select.fds s) ∧
  (select_job_pipes s).1.1 < (select_job_pipes s).1.2 ∧
  (select_job_pipes s).1.2 < (select_job_pipes s).2.1 ∧
  (select_job_pipes s).2.1 < (select_job_pipes s).2.2 ∧
  ∀ fd, 0 ≤ fd < (select_job_pipes s).2.2 →
        fd ∈ Select.fds s ∨
        fd ∈ [(select_job_pipes s).1.1; (select_job_pipes s).1.2;
              (select_job_pipes s).2.1].
Proof.
  assert ({[0; 1; 2]} ⊆ Select.fds s) as Hstd.
  { apply (select_state_invariant (λ s, {[0; 1; 2]} ⊆ Select.fds s) o Ho)
      with (answers := answers) (out := out); [done| | |done..].
    - intros dir c s0 s1 _ Hi _
        (r1 & w1 & r2 & w2 & p1 & p2 & _ & _ & _ & _ & _ & _ & Hfds & _)
          %select_start_job_shape.
      simpl. rewrite Hfds. set_solver.
    - intros r s0 s1 [[_ (_ & _ & Hsets)] Ht] Hi Hpoll. simpl in Ht.
      pose proof (SelectMemory.select_poll_tidy r s0 Ht Hsets) as Hp.
      rewrite Hpoll in Hp. destruct Hp as [_ ->]. done. }
  split; [done|].
  unfold select_job_pipes, Child.apart, Child.STDOUT_FILENO,
    Child.STDERR_FILENO. simpl.
  pose proof (pipes_lowest_unused (Select.fds s)) as Hpipes.
  cbn zeta in Hpipes.
  set (r1 := lowest_unused (Select.fds s)) in *. clearbody r1.
  set (w1 := lowest_unused ({[r1]} ∪ Select.fds s)) in *. clearbody w1.
  set (r2 := lowest_unused ({[r1; w1]} ∪ Select.fds s)) in *. clearbody r2.
  set (w2 := lowest_unused ({[r2]} ∪ ({[r1; w1]} ∪ Select.fds s))) in *.
  clearbody w2.
  destruct Hpipes as (? & ? & ? & ? & ? & ? & ? & ? & Hleast).
  assert (∀ fd, fd ∈ [r1; w1; r2; w2] → fd ∉ Select.fds s) as Hnew.
  { intros fd. rewrite !elem_of_cons, elem_of_nil.
    intros [->|[->|[->|[->|[]]]]]; done. }
  split; [|split; [|split; [done|]]].
  - intros fd Hfd. apply Hnew in Hfd. split; intros ->; set_solver.
  - rewrite !NoDup_cons, !not_elem_of_cons.
    repeat split; try lia; try apply not_elem_of_nil. constructor.
  - split; [done|]. split; [done|]. split; [done|].
    intros fd Hfd. rewrite !elem_of_cons, elem_of_nil.
    destruct (Hleast fd Hfd) as [?|[?|[?|?]]]; tauto.
Qed.

(** The pipes of the second job of [within -j 2 a b c - make], with the
    first job running: 3 and 5 are its read ends, and its write ends 4 and
    6 are closed in the parent. *)
Lemma select_job_pipes_are_apart_witness :
  well_formed three_directories ∧
  ∃ s,
    Select.run three_directories [select_job_ok]
      = Some (Select.Blocked Select.Starting s) ∧
    select_job_pipes s = ((4, 6), (7, 8)) ∧
    Child.apart (select_job_pipes s).1 (select_job_pipes s).2.
Proof.
  assert (well_formed three_directories) as Ho by (split; simpl; lia).
  split; [exact Ho|].
  eexists. split; [vm_compute; reflexivity|].
  split; [vm_compute; reflexivity|].
  match goal with
  | |- Child.apart (select_job_pipes ?s).1 _ =>
      assert (Select.run three_directories [select_job_ok]
              = Some (Select.Blocked Select.Starting s)) as Hrun
        by (vm_compute; reflexivity)
  end.
  exact (proj1 (proj2 (select_job_pipes_are_apart three_directories _ _
                         _ Ho Hrun eq_refl))).
Defined.

(** ** The kqueue program *)

(** A property of the state that [start_job], the end of a child and a
    read event keep holds all along a run. *)
Lemma kqueue_state_invariant (I : Kqueue.state → Prop) o :
  well_formed o →
  I Kqueue.initial →
  (∀ dir c s s',
     KqueueRun.sound o (Kqueue.Blocked Kqueue.Starting s) → I s →
     Kqueue.start_job dir c s = Ok s' → I (Kqueue.job_started s')) →
  (∀ ident data s, I s → I (Kqueue.job_exited ident data s)) →
  (∀ fd piper data ev_eof c s s',
     KqueueRun.sound o (Kqueue.Blocked Kqueue.Polling s) → I s →
     Kqueue.readers s !! fd = Some piper →
     Kqueue.readable piper data ev_eof c s = Ok s' → I s') →
  ∀ answers out s,
    Kqueue.run o answers = Some out → KqueueRun.state_of out = Some s → I s.
Proof.
  intros Ho Hinit Hjob Hexit Hread answers out s Hrun Hs.
  cut (KqueueRun.sound o out ∧
       ∀ s, KqueueRun.state_of out = Some s → I s).
  { intros [_ H]. by apply H. }
  clear s Hs. revert Hrun.
  assert (∀ s, I s →
            ∀ s', KqueueRun.state_of (Kqueue.at_fill o s) = Some s' → I s')
    as Hfill.
  { intros s Hi s'. unfold Kqueue.at_fill.
    by destruct (Kqueue.fill_test o s); intros [= <-]. }
  assert (∀ s, I s →
            ∀ s', KqueueRun.state_of (Kqueue.at_loop o s) = Some s' → I s')
    as Hloop.
  { intros s Hi s'. unfold Kqueue.at_loop.
    destruct (Kqueue.loop_test o s); [by apply Hfill|]. by intros [= <-]. }
  unfold Kqueue.run.
  apply (KqueueMemory.kqueue_exec_invariant
           (λ out, KqueueRun.sound o out ∧
                   ∀ s, KqueueRun.state_of out = Some s → I s)).
  - intros at_call s a out1 [Hsound Hi] Hstep.
    split; [by eapply KqueueMemory.kqueue_step_sound|].
    specialize (Hi s eq_refl). revert Hstep.
    destruct at_call, a as [c|[|ident data|ident data eof c]]; simpl;
      try done.
    + destruct (Kqueue.pid_in_use c s); [done|]. intros [= <-].
      destruct (directories o !! _) as [dir|]; [|done].
      specialize (Hjob dir c s).
      destruct (Kqueue.start_job dir c s) as [s1| |]; simpl; [|done..].
      apply Hfill. by apply Hjob.
    + by intros [= <-].
    + case_bool_decide; [|done]. intros [= <-]. by apply Hloop, Hexit.
    + destruct (Kqueue.readers s !! ident) as [piper|] eqn:Hfd; simpl;
        [|done].
      destruct (Kqueue.would_block c); [done|]. intros [= <-].
      specialize (Hread ident piper data eof c s).
      destruct (Kqueue.readable piper data eof c s) as [s1| |]; simpl;
        [|done..].
      apply Hloop. by apply Hread.
  - split; [by apply KqueueMemory.kqueue_sound_initial|]. by apply Hloop.
Qed.

(** What [start_job] leaves in the parent when it returns. *)
Lemma kqueue_start_job_shape dir c s s' :
  Kqueue.start_job dir c s = Ok s' →
  ∃ stdout_r stdout_w stderr_r stderr_w p_out p_err pid,
    kqueue_job_pipes s = ((stdout_r, stdout_w), (stderr_r, stderr_w)) ∧
    Kqueue.fork_pid c = Some pid ∧
    Kqueue.children s' = {[pid]} ∪ Kqueue.children s ∧
    Kqueue.readers s' =
      <[stderr_r := p_err]> (<[stdout_r := p_out]> (Kqueue.readers s)) ∧
    p_out ≠ p_err ∧
    Kqueue.heap s !! p_out = None ∧ Kqueue.heap s !! p_err = None ∧
    Kqueue.heap s' =
      <[p_err := {| in_fd := stderr_r; out_file := stderr; prefix := dir;
                    newline := true |}]>
        (<[p_out := {| in_fd := stdout_r; out_file := stdout;
                       prefix := dir; newline := true |}]>
           (Kqueue.heap s)) ∧
    Kqueue.fds s' = {[stdout_r; stderr_r]} ∪ Kqueue.fds s ∧
    stdout_r ≠ stderr_r ∧
    (∀ fd, fd ∈ [stdout_r; stdout_w; stderr_r; stderr_w] →
           fd ∉ Kqueue.fds s) ∧
    (stdout_w ∉ Kqueue.fds s') ∧ (stderr_w ∉ Kqueue.fds s') ∧
    Kqueue.output s' = Kqueue.output s ∧
    Kqueue.started s' = Kqueue.started s ++ [dir].
Proof.
  unfold Kqueue.start_job, kqueue_job_pipes.
  destruct (Kqueue.pipe_stdout_ok c); simpl; [|done].
  destruct (Kqueue.pipe_stderr_ok c); simpl; [|done].
  destruct (Kqueue.fork_pid c) as [pid|]; simpl; [|done].
  unfold Kqueue.register_job.
  destruct (Kqueue.register_job_ok c); simpl; [|done].
  pose proof (lowest_unused_spec (Kqueue.fds s)) as Hr1.
  set (r1 := lowest_unused (Kqueue.fds s)) in *. clearbody r1.
  pose proof (lowest_unused_spec ({[r1]} ∪ Kqueue.fds s)) as Hw1.
  set (w1 := lowest_unused ({[r1]} ∪ Kqueue.fds s)) in *. clearbody w1.
  pose proof (lowest_unused_spec ({[r1; w1]} ∪ Kqueue.fds s)) as Hr2.
  set (r2 := lowest_unused ({[r1; w1]} ∪ Kqueue.fds s)) in *. clearbody r2.
  pose proof (lowest_unused_spec ({[r2]} ∪ ({[r1; w1]} ∪ Kqueue.fds s))) as Hw2.
  set (w2 := lowest_unused ({[r2]} ∪ ({[r1; w1]} ∪ Kqueue.fds s))) in *.
  clearbody w2.
  destruct (Kqueue.start_piper r1 stdout dir _ _) as [s1| |] eqn:E1; simpl;
    [|done..].
  intros E2. apply kqueue_start_piper in E1, E2. cbn zeta in E1, E2.
  subst s1. subst s'. simpl.
  pose proof (is_fresh (dom (Kqueue.heap s))) as Hp1.
  set (p1 := fresh (dom (Kqueue.heap s))) in *. clearbody p1.
  match goal with
  | |- context [fresh (dom ?h)] =>
      pose proof (is_fresh (dom h)) as Hp2;
      set (p2 := fresh (dom h)) in *; clearbody p2
  end.
  rewrite dom_insert in Hp2.
  assert (r1 ≠ w1 ∧ r1 ≠ r2 ∧ r1 ≠ w2 ∧ w1 ≠ r2 ∧ w1 ≠ w2 ∧ r2 ≠ w2)
    as (? & ? & ? & ? & ? & ?) by set_solver.
  assert ((r1 ∉ Kqueue.fds s) ∧ (w1 ∉ Kqueue.fds s) ∧
          (r2 ∉ Kqueue.fds s) ∧ (w2 ∉ Kqueue.fds s))
    as (? & ? & ? & ?) by set_solver.
  exists r1, w1, r2, w2, p1, p2, pid.
  split; [done|]. split; [done|]. split; [done|]. split; [done|].
  split; [set_solver|].
  split; [by apply not_elem_of_dom|].
  split; [apply not_elem_of_dom; set_solver|].
  split; [done|].
  split; [apply set_eq; intros fd; set_solver|].
  split; [done|].
  split.
  { intros fd. rewrite !elem_of_cons, elem_of_nil.
    intros [->|[->|[->|[->|[]]]]]; done. }
  split; [set_solver|]. split; [set_solver|]. done.
Qed.

(** X16.  [start_job] of the kqueue program, in the parent: the child
    is put in the queue for its exit, and the read ends of its two pipes
    for reading, each with a new piper that carries the directory as prefix
    and is at the start of a line; the parent keeps the two read ends open
    and neither write end. *)
Theorem kqueue_start_job_fills_the_queue (dir : string)
    (c : Kqueue.job_calls) (s s' : Kqueue.state)
    (Hjob : Kqueue.start_job dir c s = Ok s') :
  ∃ stdout_r stdout_w stderr_r stderr_w p_out p_err pid,
    kqueue_job_pipes s = ((stdout_r, stdout_w), (stderr_r, stderr_w)) ∧
    Kqueue.fork_pid c = Some pid ∧
    Kqueue.children s' = {[pid]} ∪ Kqueue.children s ∧
    Kqueue.readers s' =
      <[stderr_r := p_err]> (<[stdout_r := p_out]> (Kqueue.readers s)) ∧
    p_out ≠ p_err ∧
    Kqueue.heap s !! p_out = None ∧ Kqueue.heap s !! p_err = None ∧
    Kqueue.heap s' =
      <[p_err := {| in_fd := stderr_r; out_file := stderr; prefix := dir;
                    newline := true |}]>
        (<[p_out := {| in_fd := stdout_r; out_file := stdout;
                       prefix := dir; newline := true |}]>
           (Kqueue.heap s)) ∧
    Kqueue.fds s' = {[stdout_r; stderr_r]} ∪ Kqueue.fds s ∧
    stdout_r ≠ stderr_r ∧
    (∀ fd, fd ∈ [stdout_r; stdout_w; stderr_r; stderr_w] →
           fd ∉ Kqueue.fds s) ∧
    (stdout_w ∉ Kqueue.fds s') ∧ (stderr_w ∉ Kqueue.fds s').
Proof.
  destruct (kqueue_start_job_shape dir c s s' Hjob)
    as (r1 & w1 & r2 & w2 & p1 & p2 & pid & H1 & H2 & H3 & H4 & H5 & H6 &
        H7 & H8 & H9 & H10 & H11 & H12 & H13 & _).
  by exists r1, w1, r2, w2, p1, p2, pid.
Qed.

(** The first job of a run, with process identifier 100. *)
Lemma kqueue_start_job_fills_the_queue_witness :
  ∃ s', Kqueue.start_job "a" (kqueue_calls_ok 100) Kqueue.initial = Ok s' ∧
        Kqueue.children s' = {[100]} ∪ Kqueue.children Kqueue.initial.
Proof.
  eexists. split; [vm_compute; reflexivity|].
  match goal with
  | |- Kqueue.children ?s = _ =>
      assert (Kqueue.start_job "a" (kqueue_calls_ok 100) Kqueue.initial
              = Ok s) as Hjob by (vm_compute; reflexivity)
  end.
  destruct (kqueue_start_job_fills_the_queue _ _ _ _ Hjob)
    as (? & ? & ? & ? & ? & ? & pid & _ & Hpid & Hchildren & _).
  injection Hpid as <-. exact Hchildren.
Defined.

(** X17.  A read event of the kqueue program that carries EV_EOF, on a
    state whose queue is in order: once the bytes are passed on, the event
    is taken out of the queue, the descriptor is closed and the piper is
    freed, unless one of the calls fails, which ends the process with exit
    code 1; the other events, descriptors and pipers stay. *)
Theorem kqueue_end_of_file_releases_piper (fd : Z) (piper : positive)
    (data : Z) (c : Kqueue.read_calls) (s : Kqueue.state)
    (Hs : KqueueRun.tidy s)
    (Hevent : Kqueue.readers s !! fd = Some piper) :
  match Kqueue.readable piper data true c s with
  | Ok s' =>
      KqueueRun.tidy s' ∧
      Kqueue.readers s' = delete fd (Kqueue.readers s) ∧
      Kqueue.fds s' = Kqueue.fds s ∖ {[fd]} ∧
      Kqueue.heap s' !! piper = None ∧
      (∀ q, q ≠ piper → Kqueue.heap s' !! q = Kqueue.heap s !! q)
  | Stop t => exit_code t = 1
  | Undefined => False
  end.
Proof.
  pose proof (KqueueMemory.kqueue_readable_spec fd piper data true c s
                Hs Hevent) as Hspec.
  destruct (Kqueue.readable piper data true c s) as [s'|t|] eqn:Hread;
    [|by destruct Hspec as [msg ->]|done].
  destruct Hspec as (Hs' & Hq & Hfds & Hfree).
  split; [done|]. split; [done|]. split; [done|]. split; [done|].
  intros q Hne. revert Hread. unfold Kqueue.readable, Kqueue.run_piper.
  destruct (Kqueue.data_malloc_ok c); simpl; [|done].
  destruct (Kqueue.heap s !! piper) as [p|]; [|done].
  destruct (Kqueue.read_returns c) as [e|bytes]; [done|].
  destruct (pipe_bytes p _) as [calls p']. simpl.
  unfold Kqueue.retire, Kqueue.deregister_piper. simpl.
  rewrite lookup_insert_eq.
  destruct (Kqueue.deregister_ok c); simpl; [|done].
  rewrite lookup_insert_eq. intros [= <-]. simpl.
  by rewrite lookup_delete_ne, lookup_insert_ne.
Qed.

(** [within d1 echo hi]: end of file on the pipe of the standard
    output, descriptor 4. *)
Lemma kqueue_end_of_file_releases_piper_witness :
  ∃ s,
    Kqueue.run
      {| max_jobs := 1; num_directories := 1;
         directories := ["d1"; "echo"; "hi"]; command := ["echo"; "hi"] |}
      [kqueue_job_ok 100]
    = Some (Kqueue.Blocked Kqueue.Polling s) ∧
    KqueueRun.tidy s ∧ Kqueue.readers s !! 4 = Some 1%positive ∧
    match Kqueue.readable 1 0 true
            {| Kqueue.data_malloc_ok := true;
               Kqueue.read_returns := Kqueue.read_bytes [];
               Kqueue.deregister_ok := true |} s with
    | Ok s' =>
        Kqueue.readers s' = delete 4 (Kqueue.readers s) ∧
        Kqueue.heap s' !! 1%positive = None
    | _ => False
    end.
Proof.
  eexists. split; [vm_compute; reflexivity|].
  match goal with
  | |- KqueueRun.tidy ?s ∧ _ =>
      assert (KqueueRun.tidy s) as Hs
  end.
  { assert (well_formed
              {| max_jobs := 1; num_directories := 1;
                 directories := ["d1"; "echo"; "hi"];
                 command := ["echo"; "hi"] |}) as Ho
      by (split; simpl; lia).
    refine (proj2 (KqueueMemory.kqueue_run_sound _ [kqueue_job_ok 100]
                     (Kqueue.Blocked Kqueue.Polling _) Ho _)).
    vm_compute. reflexivity. }
  split; [exact Hs|]. split; [reflexivity|].
  match goal with
  | |- match Kqueue.readable ?p ?d true ?c ?s with _ => _ end =>
      pose proof (kqueue_end_of_file_releases_piper 4 p d c s Hs eq_refl)
        as Hspec;
      destruct (Kqueue.readable p d true c s) as [s'|t|] eqn:E;
        [|vm_compute in E; discriminate E..]
  end.
  destruct Hspec as (_ & Hq & _ & Hfree & _). by split.
Defined.

Lemma kqueue_accounted o answers out s :
  well_formed o → Kqueue.run o answers = Some out →
  KqueueRun.state_of out = Some s → kqueue_descriptors_accounted s.
Proof.
  intros Ho.
  apply (kqueue_state_invariant kqueue_descriptors_accounted o Ho).
  - split; simpl; [|set_solver]. rewrite dom_empty_L. set_solver.
  - intros dir c s0 s1 _ [Hfds Hdis]
      (r1 & w1 & r2 & w2 & p1 & p2 & pid & _ & _ & _ & Hq & _ & _ & _ & _ &
       Hfds' & _ & Hnew & _)%kqueue_start_job_shape.
    assert (r1 ∉ Kqueue.fds s0) as Hr1.
    { apply Hnew. set_solver. }
    assert (r2 ∉ Kqueue.fds s0) as Hr2.
    { apply Hnew. set_solver. }
    rewrite Hfds in Hr1, Hr2.
    split; simpl; rewrite Hq, !dom_insert_L; [|set_solver].
    rewrite Hfds', Hfds. set_solver.
  - by intros ident data s0.
  - intros fd piper data ev_eof c s0 s1 [_ Ht] [Hfds Hdis] Hfd Hread.
    simpl in Ht.
    pose proof (KqueueMemory.kqueue_readable_spec fd piper data ev_eof c
                  s0 Ht Hfd) as Hspec.
    rewrite Hread in Hspec. destruct Hspec as [_ Hspec].
    assert (fd ∈ dom (Kqueue.readers s0)) as Hin by (by apply elem_of_dom).
    destruct ev_eof.
    + destruct Hspec as (Hq & Hfds' & _).
      split; rewrite Hq, dom_delete_L; [|set_solver].
      rewrite Hfds', Hfds. apply set_eq. intros x. set_solver.
    + destruct Hspec as (Hq & Hfds' & _). split; by rewrite Hq, ?Hfds'.
Qed.

(** X18.  The kqueue program accounts for its descriptors: at each point
    of a run the descriptors open are 0 to 3, which are the three it
    started with and the queue, and the read ends that are in the queue
    for reading, so that no descriptor of a pipe stays open once its end
    of file was handled. *)
Theorem kqueue_descriptors_follow_the_queue (o : options)
    (answers : list Kqueue.answer) (out : Kqueue.outcome)
    (s : Kqueue.state) (Ho : well_formed o)
    (Hrun : Kqueue.run o answers = Some out)
    (Hs : KqueueRun.state_of out = Some s) :
  Kqueue.fds s = {[0; 1; 2; 3]} ∪ dom (Kqueue.readers s) ∧
  size (Kqueue.fds s) = (4 + size (Kqueue.readers s))%nat.
Proof.
  destruct (kqueue_accounted o answers out s Ho Hrun Hs) as [Hfds Hdis].
  split; [done|].
  rewrite Hfds, size_union by done. rewrite size_dom.
  rewrite (comm_L (∪)), !size_union, !size_singleton by set_solver. lia.
Qed.

(** [within d1 echo hi] with its job started: descriptors 4 and 6. *)
Lemma kqueue_descriptors_follow_the_queue_witness :
  well_formed
    {| max_jobs := 1; num_directories := 1;
       directories := ["d1"; "echo"; "hi"]; command := ["echo"; "hi"] |} ∧
  ∃ s,
    Kqueue.run
      {| max_jobs := 1; num_directories := 1;
         directories := ["d1"; "echo"; "hi"]; command := ["echo"; "hi"] |}
      [kqueue_job_ok 100]
    = Some (Kqueue.Blocked Kqueue.Polling s) ∧
    size (Kqueue.fds s) = (4 + size (Kqueue.readers s))%nat.
Proof.
  assert (well_formed
            {| max_jobs := 1; num_directories := 1;
               directories := ["d1"; "echo"; "hi"];
               command := ["echo"; "hi"] |}) as Ho by (split; simpl; lia).
  split; [exact Ho|].
  eexists. split; [vm_compute; reflexivity|].
  match goal with
  | |- size (Kqueue.fds ?s) = _ =>
      assert (Kqueue.run
                {| max_jobs := 1; num_directories := 1;
                   directories := ["d1"; "echo"; "hi"];
                   command := ["echo"; "hi"] |}
                [kqueue_job_ok 100]
              = Some (Kqueue.Blocked Kqueue.Polling s)) as Hrun
        by (vm_compute; reflexivity)
  end.
  exact (proj2 (kqueue_descriptors_follow_the_queue _ _ _ _ Ho Hrun
                  eq_refl)).
Defined.

(** X19.  In the kqueue program, too, the pipes of a job are apart from
    the descriptors the child puts them in the place of: 0 to 3 stay open
    all along a run, and the four descriptors the two [pipe] calls of the
    next [start_job] return are the four lowest descriptors that are not
    open in the parent, in increasing order, so that they are different,
    none of them open before and none of 0 to 3.  (A descriptor closed
    earlier is handed out again.) *)
Theorem kqueue_job_pipes_are_apart (o : options)
    (answers : list Kqueue.answer) (out : Kqueue.outcome)
    (s : Kqueue.state) (Ho : well_formed o)
    (Hrun : Kqueue.run o answers = Some out)
    (Hs : KqueueRun.state_of out = Some s) :
  {[0; 1; 2; 3]} ⊆ Kqueue.fds s ∧
  Child.apart (kqueue_job_pipes s).1 (kqueue_job_pipes s).2 ∧
  NoDup [(kqueue_job_pipes s).1.1; (kqueue_job_pipes s).1.2;
         (kqueue_job_pipes s).2.1; (kqueue_job_pipes s).2.2] ∧
  (∀ fd, fd ∈ [(kqueue_job_pipes s).1.1; (kqueue_job_pipes s).1.2;
               (kqueue_job_pipes s).2.1; (kqueue_job_pipes s).2.2] →
         fd ∉ Kqueue.fds s) ∧
  (kqueue_job_pipes s).1.1 < (kqueue_job_pipes s).1.2 ∧
  (kqueue_job_pipes s).1.2 < (kqueue_job_pipes s).2.1 ∧
  (kqueue_job_pipes s).2.1 < (kqueue_job_pipes s).2.2 ∧
  ∀ fd, 0 ≤ fd < (kqueue_job_pipes s).2.2 →
        fd ∈ Kqueue.fds s ∨
        fd ∈ [(kqueue_job_pipes s).1.1; (kqueue_job_pipes s).1.2;
              (kqueue_job_pipes s).2.1].
Proof.
  assert ({[0; 1; 2; 3]} ⊆ Kqueue.fds s) as Hstd.
  { destruct (kqueue_accounted o answers out s Ho Hrun Hs) as [-> _].
    set_solver. }
  split; [done|].
  unfold kqueue_job_pipes, Child.apart, Child.STDOUT_FILENO,
    Child.STDERR_FILENO. simpl.
  pose proof (pipes_lowest_unused (Kqueue.fds s)) as Hpipes.
  cbn zeta in Hpipes.
  set (r1 := lowest_unused (Kqueue.fds s)) in *. clearbody r1.
  set (w1 := lowest_unused ({[r1]} ∪ Kqueue.fds s)) in *. clearbody w1.
  set (r2 := lowest_unused ({[r1; w1]} ∪ Kqueue.fds s)) in *. clearbody r2.
  set (w2 := lowest_unused ({[r2]} ∪ ({[r1; w1]} ∪ Kqueue.fds s))) in *.
  clearbody w2.
  destruct Hpipes as (? & ? & ? & ? & ? & ? & ? & ? & Hleast).
  assert (∀ fd, fd ∈ [r1; w1; r2; w2] → fd ∉ Kqueue.fds s) as Hnew.
  { intros fd. rewrite !elem_of_cons, elem_of_nil.
    intros [->|[->|[->|[->|[]]]]]; done. }
  split; [|split; [|split; [done|]]].
  - intros fd Hfd. apply Hnew in Hfd. split; intros ->; set_solver.
  - rewrite !NoDup_cons, !not_elem_of_cons.
    repeat split; try lia; try apply not_elem_of_nil. constructor.
  - split; [done|]. split; [done|]. split; [done|].
    intros fd Hfd. rewrite !elem_of_cons, elem_of_nil.
    destruct (Hleast fd Hfd) as [?|[?|[?|?]]]; tauto.
Qed.

(** The pipes of the second job of [within -j 2 a b c - make], with the
    first job running: 4 and 6 are its read ends, and its write ends 5 and
    7 are closed in the parent. *)
Lemma kqueue_job_pipes_are_apart_witness :
  well_formed three_directories ∧
  ∃ s,
    Kqueue.run three_directories [kqueue_job_ok 100]
      = Some (Kqueue.Blocked Kqueue.Starting s) ∧
    kqueue_job_pipes s = ((5, 7), (8, 9)) ∧
    Child.apart (kqueue_job_pipes s).1 (kqueue_job_pipes s).2.
Proof.
  assert (well_formed three_directories) as Ho by (split; simpl; lia).
  split; [exact Ho|].
  eexists. split; [vm_compute; reflexivity|].
  split; [vm_compute; reflexivity|].
  match goal with
  | |- Child.apart (kqueue_job_pipes ?s).1 _ =>
      assert (Kqueue.run three_directories [kqueue_job_ok 100]
              = Some (Kqueue.Blocked Kqueue.Starting s)) as Hrun
        by (vm_compute; reflexivity)
  end.
  exact (proj1 (proj2 (kqueue_job_pipes_are_apart three_directories _ _
                         _ Ho Hrun eq_refl))).
Defined.

(** X20.  The kqueue program stays within what C defines, whatever the
    command line and whatever the system answers, as long as the system
    keeps to what it has promised (an event is one of the queue, a new
    child has an identifier of its own): it uses no piper that is freed or
    was never allocated, and it reads [directories] only below
    [num_directories]. *)
Theorem kqueue_main_never_undefined (long_bits : Z)
    (opts : list getopt_ret) (argv : list string) (kqueue_ok : bool)
    (answers : list Kqueue.answer) :
  Kqueue.main long_bits opts argv kqueue_ok answers ≠ Some Kqueue.Crashed.
Proof.
  unfold Kqueue.main.
  pose proof (parse_options_exits long_bits Kqueue.usage_text
                Kqueue.is_separator opts argv) as Hexit.
  destruct (parse_options _ _ _ opts argv) as [o|t|] eqn:Hparse;
    [|by destruct answers|done].
  destruct kqueue_ok; [|by destruct answers].
  intros Hrun. apply parse_options_well_formed in Hparse.
  by destruct (KqueueMemory.kqueue_run_sound o answers _ Hparse Hrun).
Qed.

Lemma kqueue_readable_names piper data ev_eof c s s' :
  kqueue_names_started s → Kqueue.readable piper data ev_eof c s = Ok s' →
  kqueue_names_started s'.
Proof.
  intros [Hheap Hout] Hread.
  pose proof (KqueueFacts.kqueue_readable_books _ _ _ _ _ _ Hread)
    as Hbooks.
  unfold KqueueRun.books in Hbooks. injection Hbooks as _ _ Hst _ _.
  revert Hread. unfold Kqueue.readable, Kqueue.run_piper.
  destruct (Kqueue.data_malloc_ok c); simpl; [|done].
  destruct (Kqueue.heap s !! piper) as [p|] eqn:Hp; [|done].
  destruct (Kqueue.read_returns c) as [e|bytes]; [done|].
  pose proof (pipe_bytes_through p (take (Z.to_nat data) bytes))
    as (_ & _ & Hpre).
  pose proof (pipe_bytes_fields p (take (Z.to_nat data) bytes))
    as (_ & _ & Hfield).
  destruct (pipe_bytes p _) as [calls p']. simpl in Hpre, Hfield. simpl.
  set (s1 := Kqueue.emit calls _).
  assert (kqueue_names_started s1) as [Hheap1 Hout1].
  { split; simpl.
    - intros q pq [[_ <-]|[_ Hq]]%lookup_insert_Some; [|by eapply Hheap].
      rewrite Hfield. by eapply Hheap.
    - rewrite prefixes_app, Forall_app. split; [done|].
      eapply Forall_impl; [exact Hpre|]. intros pre ->. by eapply Hheap. }
  destruct ev_eof; [|by intros [= <-]].
  unfold Kqueue.retire, Kqueue.deregister_piper. simpl.
  rewrite lookup_insert_eq.
  destruct (Kqueue.deregister_ok c); simpl; [|done].
  rewrite lookup_insert_eq.
  intros [= <-]. split; simpl; [|done].
  intros q pq [_ Hq]%lookup_delete_Some. by eapply Hheap1.
Qed.

Lemma kqueue_start_job_names dir c s s' :
  kqueue_names_started s → Kqueue.start_job dir c s = Ok s' →
  kqueue_names_started s'.
Proof.
  intros [Hheap Hout]
    (r1 & w1 & r2 & w2 & p1 & p2 & pid & _ & _ & _ & _ & _ & _ & _ & Hh &
     _ & _ & _ & _ & _ & Ho & Hst)%kqueue_start_job_shape.
  split; rewrite Hst.
  - intros q pq. rewrite Hh.
    intros [[_ <-]|[_ [[_ <-]|[_ Hq]]%lookup_insert_Some]]%lookup_insert_Some;
      simpl; rewrite elem_of_app.
    + right. by left.
    + right. by left.
    + left. by eapply Hheap.
  - rewrite Ho. eapply Forall_impl; [exact Hout|].
    intros pre Hpre. rewrite elem_of_app. by left.
Qed.

(** X21.  The kqueue program prints no other prefix than the names of
    directories whose jobs it has started, which are the first of the
    directories of the command line, in their order; and a live piper
    carries such a name. *)
Theorem kqueue_prefixes_name_started_jobs (o : options)
    (answers : list Kqueue.answer) (out : Kqueue.outcome)
    (s : Kqueue.state) (Ho : well_formed o)
    (Hrun : Kqueue.run o answers = Some out)
    (Hs : KqueueRun.state_of out = Some s) :
  Forall (λ pre, pre ∈ Kqueue.started s) (prefixes (Kqueue.output s)) ∧
  (∀ piper p, Kqueue.heap s !! piper = Some p →
              prefix p ∈ Kqueue.started s) ∧
  Kqueue.started s = take (length (Kqueue.started s)) (job_directories o).
Proof.
  assert (kqueue_names_started s) as [Hheap Hout].
  { apply (kqueue_state_invariant kqueue_names_started o Ho)
      with (answers := answers) (out := out); [| | | |done..].
    - split; [|constructor]. intros piper p. simpl. by rewrite lookup_empty.
    - intros dir c s0 s1 _ Hi Hjob.
      by apply (kqueue_start_job_names dir c s0 s1 Hi) in Hjob.
    - by intros ident data s0 Hi.
    - intros fd piper data ev_eof c s0 s1 _ Hi _ Hread.
      by eapply kqueue_readable_names. }
  split; [done|]. split; [done|].
  apply KqueueFacts.kqueue_run_reachable in Hrun; [|done].
  assert (KqueueRun.counted o s) as [].
  { destruct out; simplify_eq/=; by destruct Hrun. }
  unfold job_directories. rewrite take_take.
  rewrite started_in_order at 1. f_equal. lia.
Qed.

(** [within d1 echo hi]: the one prefix printed is [d1]. *)
Lemma kqueue_prefixes_name_started_jobs_witness :
  well_formed
    {| max_jobs := 1; num_directories := 1;
       directories := ["d1"; "echo"; "hi"]; command := ["echo"; "hi"] |} ∧
  ∃ s,
    Kqueue.run
      {| max_jobs := 1; num_directories := 1;
         directories := ["d1"; "echo"; "hi"]; command := ["echo"; "hi"] |}
      [kqueue_job_ok 100; kqueue_pipe_ends 4 ["h"; "i"; LF]%char]
    = Some (Kqueue.Blocked Kqueue.Polling s) ∧
    prefixes (Kqueue.output s) = ["d1"] ∧
    Forall (λ pre, pre ∈ Kqueue.started s) (prefixes (Kqueue.output s)).
Proof.
  assert (well_formed
            {| max_jobs := 1; num_directories := 1;
               directories := ["d1"; "echo"; "hi"];
               command := ["echo"; "hi"] |}) as Ho by (split; simpl; lia).
  split; [exact Ho|].
  eexists. split; [vm_compute; reflexivity|]. split; [reflexivity|].
  match goal with
  | |- Forall _ (prefixes (Kqueue.output ?s)) =>
      assert (Kqueue.run
                {| max_jobs := 1; num_directories := 1;
                   directories := ["d1"; "echo"; "hi"];
                   command := ["echo"; "hi"] |}
                [kqueue_job_ok 100; kqueue_pipe_ends 4 ["h"; "i"; LF]%char]
              = Some (Kqueue.Blocked Kqueue.Polling s)) as Hrun
        by (vm_compute; reflexivity)
  end.
  exact (proj1 (kqueue_prefixes_name_started_jobs _ _ _ _ Ho Hrun eq_refl)).
Defined.

(** ** Waiting in [kevent] *)

(** X22.  The kqueue program does not wait for nothing: when it blocks
    in [kevent], the exit of at least one child is registered in the queue,
    and [num_jobs] is the number of children registered there. *)
Theorem kqueue_waits_with_a_child_registered (o : options)
    (answers : list Kqueue.answer) (s : Kqueue.state)
    (Ho : well_formed o)
    (Hrun : Kqueue.run o answers = Some (Kqueue.Blocked Kqueue.Polling s)) :
  Kqueue.children s ≠ ∅ ∧
  Kqueue.num_jobs s = Z.of_nat (size (Kqueue.children s)).
Proof.
  apply KqueueFacts.kqueue_run_reachable in Hrun as [Hc Hb]; [|done].
  destruct (KqueueLiveness.kqueue_polling_child o s Ho Hc Hb)
    as (pid & _ & Hin & _).
  split; [set_solver|]. by destruct Hc.
Qed.

(** [within -j 2 a b c - make] with two jobs started, the children 100
    and 101. *)
Lemma kqueue_waits_with_a_child_registered_witness :
  well_formed three_directories ∧
  ∃ s,
    Kqueue.run three_directories [kqueue_job_ok 100; kqueue_job_ok 101]
      = Some (Kqueue.Blocked Kqueue.Polling s) ∧
    Kqueue.num_jobs s = 2 ∧ Kqueue.children s ≠ ∅.
Proof.
  assert (well_formed three_directories) as Ho by (split; simpl; lia).
  split; [exact Ho|].
  eexists. split; [vm_compute; reflexivity|]. split; [reflexivity|].
  match goal with
  | |- Kqueue.children ?s ≠ ∅ =>
      assert (Kqueue.run three_directories
                [kqueue_job_ok 100; kqueue_job_ok 101]
              = Some (Kqueue.Blocked Kqueue.Polling s)) as Hrun
        by (vm_compute; reflexivity)
  end.
  exact (proj1 (kqueue_waits_with_a_child_registered three_directories
                  _ _ Ho Hrun)).
Defined.

(** ** The child *)

Lemma child_table_after t stdout_file stderr_file out_r out_w err_r err_w :
  Child.apart (out_r, out_w) (err_r, err_w) →
  let t' :=
    Child.close err_w
      (Child.close err_r
         (Child.close out_w
            (Child.close out_r
               (<[Child.STDERR_FILENO := stderr_file]>
                  (<[Child.STDOUT_FILENO := stdout_file]> t))))) in
  t' !! Child.STDOUT_FILENO = Some stdout_file ∧
  t' !! Child.STDERR_FILENO = Some stderr_file ∧
  (∀ fd, fd ∈ [out_r; out_w; err_r; err_w] → t' !! fd = None) ∧
  (∀ fd, fd ∉ [Child.STDOUT_FILENO; Child.STDERR_FILENO; out_r; out_w;
               err_r; err_w] → t' !! fd = t !! fd).
Proof.
  intros Hapart. unfold Child.apart in Hapart. simpl in Hapart.
  destruct (Hapart out_r) as [? ?]; [set_solver|].
  destruct (Hapart out_w) as [? ?]; [set_solver|].
  destruct (Hapart err_r) as [? ?]; [set_solver|].
  destruct (Hapart err_w) as [? ?]; [set_solver|].
  assert (Child.STDOUT_FILENO ≠ Child.STDERR_FILENO) by done.
  unfold Child.close. cbn zeta. split; [|split; [|split]].
  - rewrite !lookup_delete_ne, lookup_insert_ne, lookup_insert_eq by done.
    done.
  - by rewrite !lookup_delete_ne, lookup_insert_eq by done.
  - intros fd. rewrite !elem_of_cons, elem_of_nil.
    intros [->|[->|[->|[->|[]]]]]; rewrite !lookup_delete_None; tauto.
  - intros fd. rewrite !not_elem_of_cons. intros (? & ? & ? & ? & ? & ? & _).
    by rewrite !lookup_delete_ne, !lookup_insert_ne by done.
Qed.

(** X23.  The child of [start_job], when the pipes are apart from the
    descriptors 1 and 2, their write ends are open and every call succeeds:
    the command is executed in the directory, with the command as its
    argument vector, its standard output on the write end of the first pipe
    and its standard error on the write end of the second, none of the four
    descriptors of the pipes left open, and every other descriptor as the
    parent had it. *)
Theorem child_runs_command_on_the_pipes (t : Child.table)
    (stdout_pipe stderr_pipe : Z * Z) (directory : string)
    (file : string) (args : list string) (c : Child.calls)
    (stdout_file stderr_file : Z)
    (Hapart : Child.apart stdout_pipe stderr_pipe)
    (Hstdout : t !! stdout_pipe.2 = Some stdout_file)
    (Hstderr : t !! stderr_pipe.2 = Some stderr_file)
    (Hdup2_stdout : Child.dup2_stdout_ok c = true)
    (Hdup2_stderr : Child.dup2_stderr_ok c = true)
    (Hchdir : Child.chdir_ok c = true)
    (Hexecvp : Child.execvp_ok c = true) :
  ∃ t',
    Child.child stdout_pipe stderr_pipe directory (file :: args) c t
      = Child.Executes directory file (file :: args) t' ∧
    t' !! Child.STDOUT_FILENO = Some stdout_file ∧
    t' !! Child.STDERR_FILENO = Some stderr_file ∧
    (∀ fd, fd ∈ [stdout_pipe.1; stdout_pipe.2; stderr_pipe.1;
                 stderr_pipe.2] → t' !! fd = None) ∧
    (∀ fd, fd ∉ [Child.STDOUT_FILENO; Child.STDERR_FILENO; stdout_pipe.1;
                 stdout_pipe.2; stderr_pipe.1; stderr_pipe.2] →
           t' !! fd = t !! fd).
Proof.
  destruct stdout_pipe as [out_r out_w], stderr_pipe as [err_r err_w].
  simpl in *.
  destruct (Hapart err_w) as [Hne _]; [set_solver|].
  unfold Child.child, Child.dup2. simpl.
  rewrite Hdup2_stdout, Hdup2_stderr, Hchdir, Hexecvp, Hstdout. simpl.
  rewrite lookup_insert_ne, Hstderr by done. simpl.
  eexists. split; [done|].
  by apply child_table_after.
Qed.

(** The child of the first job: the pipes are 3, 4 and 5, 6. *)
Lemma child_runs_command_on_the_pipes_witness :
  ∃ t',
    Child.child (3, 4) (5, 6) "a" ["make"; "clean"]
      {| Child.dup2_stdout_ok := true; Child.dup2_stderr_ok := true;
         Child.chdir_ok := true; Child.execvp_ok := true |}
      {[0 := 100; 1 := 101; 2 := 102; 3 := 10; 4 := 11; 5 := 12; 6 := 13]}
    = Child.Executes "a" "make" ["make"; "clean"] t' ∧
    t' !! 1 = Some 11 ∧ t' !! 2 = Some 13 ∧ t' !! 0 = Some 100.
Proof.
  assert (Child.apart (3, 4) (5, 6)) as Hapart.
  { intros fd. simpl. rewrite !elem_of_cons, elem_of_nil.
    intros [->|[->|[->|[->|[]]]]]; done. }
  assert (({[0 := 100; 1 := 101; 2 := 102; 3 := 10; 4 := 11; 5 := 12;
             6 := 13]} : Child.table) !! (3, 4).2 = Some 11) as Hstdout
    by (vm_compute; reflexivity).
  assert (({[0 := 100; 1 := 101; 2 := 102; 3 := 10; 4 := 11; 5 := 12;
             6 := 13]} : Child.table) !! (5, 6).2 = Some 13) as Hstderr
    by (vm_compute; reflexivity).
  destruct (child_runs_command_on_the_pipes _
              (3, 4) (5, 6) "a" "make" ["clean"]
              {| Child.dup2_stdout_ok := true; Child.dup2_stderr_ok := true;
                 Child.chdir_ok := true; Child.execvp_ok := true |}
              11 13 Hapart Hstdout Hstderr eq_refl eq_refl eq_refl eq_refl)
    as (t' & Hchild & Hout & Herr & _ & Hrest).
  exists t'. split; [exact Hchild|]. split; [exact Hout|].
  split; [exact Herr|].
  rewrite Hrest; [vm_compute; reflexivity|].
  simpl. rewrite !not_elem_of_cons. repeat split; try done.
  apply not_elem_of_nil.
Defined.

(** X24.  Whatever the system answers and whatever is open, the child
    executes the command or ends with exit code 1, as long as the command
    is not empty; it executes it only if the four calls succeed; and when,
    with the pipes apart as above, it is [chdir] or [execvp] that fails,
    its descriptor 2, where [err] writes what went wrong, is the write end
    of the pipe of the standard error, so that the parent prints the
    message with the prefix of the directory. *)
Theorem child_failures_exit_1 (t : Child.table)
    (stdout_pipe stderr_pipe : Z * Z) (directory : string)
    (file : string) (args : list string) (c : Child.calls) :
  match Child.child stdout_pipe stderr_pipe directory (file :: args) c t
  with
  | Child.Executes cwd file' argv _ =>
      cwd = directory ∧ file' = file ∧ argv = file :: args ∧
      Child.dup2_stdout_ok c = true ∧ Child.dup2_stderr_ok c = true ∧
      Child.chdir_ok c = true ∧ Child.execvp_ok c = true
  | Child.Exits e t' =>
      exit_code e = 1 ∧
      (Child.apart stdout_pipe stderr_pipe →
       Child.dup2_stdout_ok c = true → Child.dup2_stderr_ok c = true →
       is_Some (t !! stdout_pipe.2) → is_Some (t !! stderr_pipe.2) →
       t' !! Child.STDERR_FILENO = t !! stderr_pipe.2)
  | Child.Faults => False
  end.
Proof.
  destruct stdout_pipe as [out_r out_w], stderr_pipe as [err_r err_w].
  unfold Child.child, Child.dup2. simpl.
  destruct (Child.dup2_stdout_ok c); simpl; [|by split].
  destruct (t !! out_w) as [stdout_file|] eqn:Hout; simpl.
  2:{ split; [done|]. by intros _ _ _ []. }
  destruct (Child.dup2_stderr_ok c); simpl; [|by split].
  destruct (<[Child.STDOUT_FILENO:=stdout_file]> t !! err_w)
    as [stderr_file|] eqn:Herr; simpl.
  2:{ split; [done|]. intros Hapart _ _ _ [f Hf].
      destruct (Hapart err_w) as [Hne _]; [set_solver|].
      rewrite lookup_insert_ne in Herr by done. simpl in Hf. congruence. }
  assert (Child.apart (out_r, out_w) (err_r, err_w) →
          Child.close err_w
            (Child.close err_r
               (Child.close out_w
                  (Child.close out_r
                     (<[Child.STDERR_FILENO := stderr_file]>
                        (<[Child.STDOUT_FILENO := stdout_file]> t)))))
            !! Child.STDERR_FILENO = t !! err_w) as Hfd2.
  { intros Hapart.
    destruct (child_table_after t stdout_file stderr_file out_r out_w
                err_r err_w Hapart) as (_ & -> & _).
    destruct (Hapart err_w) as [Hne _]; [set_solver|].
    by rewrite lookup_insert_ne in Herr by done. }
  destruct (Child.chdir_ok c); simpl;
    [|split; [done|intros ? _ _ _ _; by apply Hfd2]].
  destruct (Child.execvp_ok c); simpl; [done|].
  split; [done|]. intros ? _ _ _ _. by apply Hfd2.
Qed.

(** X25.  The pipes must be apart: when the read end of the first pipe
    is descriptor 1, which [pipe] can return only to a process that was
    started without a standard output, the child closes the standard output
    it has just set up, and the command is executed without one. *)
Theorem child_closes_stdout_set_on_read_end (t : Child.table)
    (stdout_w stderr_r stderr_w : Z) (directory : string) (file : string)
    (args : list string) (c : Child.calls) (stdout_file stderr_file : Z)
    (Hstdout : t !! stdout_w = Some stdout_file)
    (Hstderr : t !! stderr_w = Some stderr_file)
    (Hother : stderr_w ≠ Child.STDOUT_FILENO)
    (Hdup2_stdout : Child.dup2_stdout_ok c = true)
    (Hdup2_stderr : Child.dup2_stderr_ok c = true)
    (Hchdir : Child.chdir_ok c = true)
    (Hexecvp : Child.execvp_ok c = true) :
  ∃ t',
    Child.child (Child.STDOUT_FILENO, stdout_w) (stderr_r, stderr_w)
      directory (file :: args) c t
      = Child.Executes directory file (file :: args) t' ∧
    t' !! Child.STDOUT_FILENO = None.
Proof.
  unfold Child.child, Child.dup2. simpl.
  rewrite Hdup2_stdout, Hdup2_stderr, Hchdir, Hexecvp, Hstdout. simpl.
  rewrite lookup_insert_ne, Hstderr by done. simpl.
  eexists. split; [done|].
  unfold Child.close. rewrite !lookup_delete_None. tauto.
Qed.

(** Started with descriptor 1 closed: the first pipe is 1 and 3. *)
Lemma child_closes_stdout_set_on_read_end_witness :
  ∃ t',
    Child.child (1, 3) (4, 5) "a" ["make"]
      {| Child.dup2_stdout_ok := true; Child.dup2_stderr_ok := true;
         Child.chdir_ok := true; Child.execvp_ok := true |}
      {[0 := 100; 2 := 102; 1 := 10; 3 := 11; 4 := 12; 5 := 13]}
    = Child.Executes "a" "make" ["make"] t' ∧
    t' !! 1 = None.
Proof.
  assert (({[0 := 100; 2 := 102; 1 := 10; 3 := 11; 4 := 12; 5 := 13]}
           : Child.table) !! 3 = Some 11) as Hstdout
    by (vm_compute; reflexivity).
  assert (({[0 := 100; 2 := 102; 1 := 10; 3 := 11; 4 := 12; 5 := 13]}
           : Child.table) !! 5 = Some 13) as Hstderr
    by (vm_compute; reflexivity).
  assert (5 ≠ Child.STDOUT_FILENO) as Hother by done.
  exact (child_closes_stdout_set_on_read_end _ 3 4 5 "a" "make" []
           {| Child.dup2_stdout_ok := true; Child.dup2_stderr_ok := true;
              Child.chdir_ok := true; Child.execvp_ok := true |}
           11 13 Hstdout Hstderr Hother eq_refl eq_refl eq_refl eq_refl).
Defined.

(** ** Pipers that share a stream *)

Lemma written_pipe_bytes_last p data :
  data ≠ [] →
  last (written (out_file p) (pipe_bytes p data).1) = last data.
Proof.
  revert p. induction data as [|c data IH]; intros p Hdata; [done|].
  simpl. specialize (IH (set_newline p (Ascii.eqb c LF))).
  destruct (pipe_bytes _ data) as [calls p'] eqn:E. simpl in *.
  assert (FILE_eqb (out_file p) (out_file p) = true) as Hf
    by (by apply FILE_eqb_eq).
  rewrite written_app.
  change (fputc c (out_file p) :: calls)
    with ([fputc c (out_file p)] ++ calls).
  rewrite written_app, app_assoc, last_app.
  destruct data as [|d data].
  - simpl in E. injection E as <- <-. simpl.
    rewrite last_app. unfold written. simpl. by rewrite Hf.
  - rewrite IH by done. rewrite last_cons_cons.
    destruct (last (d :: data)) eqn:Hl; [done|].
    by apply last_None in Hl.
Qed.

(** X26.  The flag [newline] belongs to a piper, not to the stream:
    when a piper has put a part of a line on a stream, without the line
    feed, and another piper of the same stream, at the start of a line of
    its own, then gets a byte, the prefix of the second follows the last
    byte of the first on the same line. *)
Theorem prefix_follows_partial_line_of_other_piper (p q : piper)
    (data1 data2 : list ascii) (b : ascii)
    (Hstream : out_file q = out_file p)
    (Hstart : newline q = true)
    (Hpart : last data1 = Some b)
    (Hopen : b ≠ LF)
    (Hmore : data2 ≠ []) :
  ∃ before after,
    written (out_file p) ((pipe_bytes p data1).1 ++ (pipe_bytes q data2).1)
    = before ++ b :: String.list_ascii_of_string (prefix q +:+ ": ")
        ++ after.
Proof.
  assert (data1 ≠ []) as Hdata1 by (by intros ->).
  pose proof (written_pipe_bytes_last p data1 Hdata1) as Hlast.
  rewrite Hpart in Hlast.
  apply last_Some in Hlast as [before Hbefore].
  destruct data2 as [|c data2]; [done|].
  rewrite written_app, Hbefore. simpl.
  destruct (pipe_bytes _ data2) as [calls q']. simpl.
  rewrite Hstart. simpl. unfold written at 1. simpl.
  rewrite Hstream.
  assert (FILE_eqb (out_file p) (out_file p) = true) as ->
    by (by apply FILE_eqb_eq).
  exists before. eexists.
  rewrite <- app_assoc. simpl. reflexivity.
Qed.

(** Two jobs on the standard output: [a] writes [x] and [b] then writes
    a line. *)
Lemma prefix_follows_partial_line_of_other_piper_witness :
  ∃ before after,
    written stdout
      ((pipe_bytes {| in_fd := 3; out_file := stdout; prefix := "a";
                      newline := true |} ["x"%char]).1
       ++ (pipe_bytes {| in_fd := 7; out_file := stdout; prefix := "b";
                         newline := true |} ["y"%char; LF]).1)
    = before ++ "x"%char :: String.list_ascii_of_string ("b" +:+ ": ")
        ++ after.
Proof.
  assert ("x"%char ≠ LF) as Hopen by done.
  assert (["y"%char; LF] ≠ []) as Hmore by done.
  exact (prefix_follows_partial_line_of_other_piper
           {| in_fd := 3; out_file := stdout; prefix := "a";
              newline := true |}
           {| in_fd := 7; out_file := stdout; prefix := "b";
              newline := true |}
           ["x"%char] ["y"%char; LF] "x"%char eq_refl eq_refl eq_refl
           Hopen Hmore).
Defined.
